(** * Wildcard matching over UTF-8 text: the cursor and the two matchers

    A shallow embedding of [fastwildcompare.cpp]: the code point cursor
    ([CodePointAdvance], [CodePointCompare], [CodePointAdvanceAndCompare],
    [CodePointCount]), the matcher for null-terminated strings
    ([FastWildCompareUtf8]), the matcher with code point limits
    ([FastWildLenCompareUtf8]) and the matcher for strings of single-byte
    characters ([FastWildCompare]); and of the routine [test] of
    [wild.cpp], which runs the matchers against an expected result.

    Memory model.  A [char *] is modelled by the bytes found from the
    pointed-to address on: [*(k + p)] is the k-th element of that list and
    [p + k] drops k elements.  A byte is a natural number ([N]); the source
    compares bytes and never computes with them.  Reading beyond the last
    element of the list yields zero: every buffer is followed by its
    terminator.  A list may hold zero bytes itself, which is how a buffer
    with content after a terminator is written. *)

From Stdlib Require Import String Ascii.
From Stdlib Require Import NArith ZArith List Bool Lia.
Import ListNotations.

Local Open Scope N_scope.

(** ** Bytes and pointers *)

Definition ptr := list N.

(** [*(k + p)] *)
Definition rd (p : ptr) (k : nat) : N := nth k p 0.

(** The conversion of a C++ [bool] to an integer, as in [p += (c1) + (c2)]. *)
Definition bool_to_nat (b : bool) : nat := if b then 1%nat else 0%nat.

(** The conversion of a byte to a C++ [bool]. *)
Definition nonzero (b : N) : bool := negb (b =? 0).

Definition SINGLETON_LIMIT : N := 0xBF.
Definition TWOFER_LIMIT : N := 0xDF.
Definition THREESOME_LIMIT : N := 0xEF.

Definition STAR : N := 42.
Definition QUESTION : N := 63.

(** The bytes of a string literal. *)
Definition bytes (s : string) : ptr :=
  map (fun c => N_of_ascii c) (list_ascii_of_string s).

(** ** The code point cursor *)

(** The number of bytes [CodePointAdvance] adds to the pointer: one for a
    non-zero first byte, and one more for each trailing byte that the first
    byte calls for and that is not zero. *)
Definition advance_step (p : ptr) : nat :=
  let first := 0 <? rd p 0 in
  let second := (SINGLETON_LIMIT <? rd p 0) && nonzero (rd p 1) in
  let third := (TWOFER_LIMIT <? rd p 0) && nonzero (rd p 2) in
  let fourth := (THREESOME_LIMIT <? rd p 0) && nonzero (rd p 3) in
  (bool_to_nat first + bool_to_nat second
   + bool_to_nat third + bool_to_nat fourth)%nat.

(** [CodePointAdvance(&p)] (lines 40-50): the new pointer and the returned
    flag, which tells whether the byte now pointed to is not zero. *)
Definition CodePointAdvance (p : ptr) : ptr * bool :=
  let p' := skipn (advance_step p) p in
  (p', nonzero (rd p' 0)).

(** [CodePointCompare(a, b)] (lines 56-79): the first bytes, and each
    trailing byte that the first byte of [a] calls for, compared in turn. *)
Definition CodePointCompare (a b : ptr) : bool :=
  if negb (rd a 0 =? rd b 0) then false
  else if (SINGLETON_LIMIT <? rd a 0) && negb (rd a 1 =? rd b 1) then false
  else if (TWOFER_LIMIT <? rd a 0) && negb (rd a 2 =? rd b 2) then false
  else if (THREESOME_LIMIT <? rd a 0) && negb (rd a 3 =? rd b 3) then false
  else true.

(** [CodePointAdvanceAndCompare(a, &b)] (lines 86-117): [b] is advanced, then
    compared with [a]; the new [b] and the returned flag. *)
Definition CodePointAdvanceAndCompare (a b : ptr) : ptr * bool :=
  let b' := skipn (advance_step b) b in
  (b', CodePointCompare a b').

(** ** Loops

    A loop of the source is a function that recurses on a gas counter, one
    unit per iteration.  Its outcome is a [return] of the enclosing C++
    function, the state with which control leaves the loop, or [OutOfGas].
    Loops that step one byte at a time recurse on the list instead. *)

Inductive outcome (A : Type) : Type :=
| Return (verdict : bool)
| Proceed (a : A)
| OutOfGas.

Arguments Return {A} verdict.
Arguments Proceed {A} a.
Arguments OutOfGas {A}.

(** Sequencing: a [return] or a lack of gas ends the function, otherwise
    the code that follows runs on the state. *)
Definition bind {A B : Type} (o : outcome A) (k : A -> outcome B) : outcome B :=
  match o with
  | Return b => Return b
  | Proceed a => k a
  | OutOfGas => OutOfGas
  end.

Notation "x <- e ;; k" := (bind e (fun x => k))
  (at level 61, e at next level, right associativity).

(** What a call returns: the verdict, or nothing when the gas ran out. *)
Definition verdict_of {A : Type} (o : outcome A) : option bool :=
  match o with
  | Return b => Some b
  | _ => None
  end.

(** [CodePointCount] (lines 123-134): [iCount] starts as [*p > 0] and grows
    by one for each successful advance. *)
Fixpoint count_loop (gas : nat) (p : ptr) (iCount : Z) : option Z :=
  match gas with
  | O => None
  | S gas' =>
      let (p', more) := CodePointAdvance p in
      if more then count_loop gas' p' (iCount + 1)%Z else Some iCount
  end.

Definition CodePointCount_gas (gas : nat) (pContent : ptr) : option Z :=
  count_loop gas pContent (if 0 <? rd pContent 0 then 1%Z else 0%Z).

(** Each successful advance steps over a byte at least, so one unit of gas
    per byte and one for the last call are enough. *)
Definition CodePointCount (pContent : ptr) : option Z :=
  CodePointCount_gas (S (length pContent)) pContent.

(** ** [FastWildCompareUtf8] *)

(** The positions the lower loop works on. *)
Record cursors : Type := Cursors {
  pWild : ptr;
  pTame : ptr;
  pWildSequence : ptr;
  pTameSequence : ptr
}.

(** Lines 158-166, entered with the tame string at its end: as long as the
    wild byte is a star, step one byte and return true when the byte found
    there is zero; return false once the wild byte is no star. *)
Fixpoint only_stars_left (pWild : ptr) : bool :=
  match pWild with
  | [] => false
  | c :: pWild' =>
      if c =? STAR then
        if rd pWild' 0 =? 0 then true else only_stars_left pWild'
      else false
  end.

(** Line 176: advance [pWild] for as long as the advance reports further
    content and that content starts with a star. *)
Fixpoint skip_stars_advancing (gas : nat) (pWild : ptr) : outcome ptr :=
  match gas with
  | O => OutOfGas
  | S gas' =>
      let (pWild', more) := CodePointAdvance pWild in
      if more && (rd pWild' 0 =? STAR) then skip_stars_advancing gas' pWild'
      else Proceed pWild'
  end.

(** Lines 189-195 and 237-243: until the code points at [pWild] and [pTame]
    compare equal, advance [pTame]; return false when the advance reports
    the terminator. *)
Fixpoint seek (gas : nat) (pWild pTame : ptr) : outcome ptr :=
  match gas with
  | O => OutOfGas
  | S gas' =>
      if CodePointCompare pWild pTame then Proceed pTame
      else
        let (pTame', more) := CodePointAdvance pTame in
        if more then seek gas' pWild pTame' else Return false
  end.

(** Line 219: increment [pWild], and again for as long as it points to a
    star.  This is [skip_stars] applied to the pointer incremented once. *)
Fixpoint skip_stars (pWild : ptr) : ptr :=
  match pWild with
  | [] => []
  | c :: pWild' => if c =? STAR then skip_stars pWild' else pWild
  end.

(** Lines 259-263: for as long as [pWildSequence] points to a question
    mark, increment [pWildSequence] and increment [pTameSequence]. *)
Fixpoint skip_questions (pWildSequence pTameSequence : ptr) : ptr * ptr :=
  match pWildSequence with
  | [] => ([], pTameSequence)
  | c :: pWildSequence' =>
      if c =? QUESTION then skip_questions pWildSequence' (tl pTameSequence)
      else (pWildSequence, pTameSequence)
  end.

(** Lines 268-274: advance [pTameSequence] and compare, until the code
    points are equal; return false when they differ at the terminator. *)
Fixpoint retry (gas : nat) (pWild pTameSequence : ptr) : outcome ptr :=
  match gas with
  | O => OutOfGas
  | S gas' =>
      let (pTameSequence', same) :=
        CodePointAdvanceAndCompare pWild pTameSequence in
      if same then Proceed pTameSequence'
      else if rd pTameSequence' 0 =? 0 then Return false
      else retry gas' pWild pTameSequence'
  end.

(** The upper loop (lines 151-211).  [Proceed] is its [break], with the
    positions that become the fallback positions. *)
Fixpoint upper_loop (gas : nat) (pWild pTame : ptr) : outcome (ptr * ptr) :=
  match gas with
  | O => OutOfGas
  | S gas' =>
      if rd pTame 0 =? 0 then
        if nonzero (rd pWild 0) then Return (only_stars_left pWild)
        else Return true
      else if rd pWild 0 =? STAR then
        pWild' <- skip_stars_advancing gas' pWild ;;
        if rd pWild' 0 =? 0 then Return true
        else
          pTame' <- (if negb (rd pWild' 0 =? QUESTION)
                     then seek gas' pWild' pTame
                     else Proceed pTame) ;;
          Proceed (pWild', pTame')
      else if negb (CodePointCompare pWild pTame)
              && negb (rd pWild 0 =? QUESTION) then Return false
      else upper_loop gas' (fst (CodePointAdvance pWild))
                           (fst (CodePointAdvance pTame))
  end.

(** One pass through the body of the lower loop up to its end check (lines
    216-277). *)
Definition lower_branch (gas : nat) (s : cursors) : outcome cursors :=
  if rd (pWild s) 0 =? STAR then
    let pWild' := skip_stars (tl (pWild s)) in
    if rd pWild' 0 =? 0 then Return true
    else if rd (pTame s) 0 =? 0 then Return false
    else
      pTame' <- (if negb (rd pWild' 0 =? QUESTION)
                 then seek gas pWild' (pTame s)
                 else Proceed (pTame s)) ;;
      Proceed (Cursors pWild' pTame' pWild' pTame')
  else if negb (CodePointCompare (pWild s) (pTame s))
          && negb (rd (pWild s) 0 =? QUESTION) then
    if rd (pTame s) 0 =? 0 then Return false
    else
      let (pWildSequence', pTameSequence') :=
        skip_questions (pWildSequence s) (pTameSequence s) in
      pTameSequence'' <- retry gas pWildSequence' pTameSequence' ;;
      Proceed (Cursors pWildSequence' pTameSequence''
                       pWildSequence' pTameSequence'')
  else Proceed s.

(** The lower loop (lines 214-294). *)
Fixpoint lower_loop (gas : nat) (s : cursors) : outcome cursors :=
  match gas with
  | O => OutOfGas
  | S gas' =>
      s' <- lower_branch gas' s ;;
      if rd (pTame s') 0 =? 0 then Return (rd (pWild s') 0 =? 0)
      else lower_loop gas' (Cursors (fst (CodePointAdvance (pWild s')))
                                    (fst (CodePointAdvance (pTame s')))
                                    (pWildSequence s') (pTameSequence s'))
  end.

Definition FastWildCompareUtf8_gas (gas : nat) (pWild pTame : ptr)
  : option bool :=
  verdict_of (wt <- upper_loop gas pWild pTame ;;
              lower_loop gas (Cursors (fst wt) (snd wt) (fst wt) (snd wt))).

(** Gas that suffices for every call: the upper loop runs once per tame code
    point, the lower loop at most once per pair of a fallback position and
    a tame position behind it, and a loop over the wild string once per
    byte of it. *)
Definition gas_for (pWild pTame : ptr) : nat :=
  (length pWild + (length pTame + 2) * (length pTame + 2))%nat.

Definition FastWildCompareUtf8 (pWild pTame : ptr) : option bool :=
  FastWildCompareUtf8_gas (gas_for pWild pTame) pWild pTame.

(** ** [FastWildLenCompareUtf8]

    The same loops with the [int] counters of the source next to the
    pointers.  A counter grows by at most one per byte stepped over, so it
    stays below the size of a buffer; the counters are integers ([Z]) with
    no wrap-around, which leaves buffers of [2^31] bytes or more out of the
    model. *)

Local Open Scope Z_scope.

Record len_cursors : Type := LenCursors {
  lpWild : ptr;
  lpTame : ptr;
  iWild : Z;
  iTame : Z;
  lpWildSequence : ptr;
  lpTameSequence : ptr;
  iWildSequence : Z;
  iTameSequence : Z
}.

(** Lines 324-332: as long as the wild byte is a star, step one byte and
    count it, returning true when the count reaches [lenWild]; return false
    once the wild byte is no star. *)
Fixpoint len_only_stars_left (pWild : ptr) (iWild lenWild : Z) : bool :=
  match pWild with
  | [] => false
  | c :: pWild' =>
      if (c =? STAR)%N then
        if lenWild <=? iWild + 1 then true
        else len_only_stars_left pWild' (iWild + 1) lenWild
      else false
  end.

(** Lines 348-360: advance [pWild]; when the advance reports further content
    count it, and go on if that content starts with a star and the count is
    below [lenWild]. *)
Fixpoint len_skip_stars_advancing (gas : nat) (pWild : ptr) (iWild lenWild : Z)
  : outcome (ptr * Z) :=
  match gas with
  | O => OutOfGas
  | S gas' =>
      let (pWild', more) := CodePointAdvance pWild in
      if more then
        if (rd pWild' 0 =? STAR)%N && (iWild + 1 <? lenWild)
        then len_skip_stars_advancing gas' pWild' (iWild + 1) lenWild
        else Proceed (pWild', iWild + 1)
      else Proceed (pWild', iWild)
  end.

(** Lines 370-378 and 428-436: [seek] with [iTame] counting the advances. *)
Fixpoint len_seek (gas : nat) (pWild pTame : ptr) (iTame : Z)
  : outcome (ptr * Z) :=
  match gas with
  | O => OutOfGas
  | S gas' =>
      if CodePointCompare pWild pTame then Proceed (pTame, iTame)
      else
        let (pTame', more) := CodePointAdvance pTame in
        if more then len_seek gas' pWild pTame' (iTame + 1) else Return false
  end.

(** Lines 407-413, after the first increment of [pWild]: for as long as
    [pWild] points to a star, count it, return true when the count reaches
    [lenWild], and increment [pWild]. *)
Fixpoint len_skip_stars (pWild : ptr) (iWild lenWild : Z) : outcome (ptr * Z) :=
  match pWild with
  | [] => Proceed ([], iWild)
  | c :: pWild' =>
      if (c =? STAR)%N then
        if lenWild <=? iWild + 1 then Return true
        else len_skip_stars pWild' (iWild + 1) lenWild
      else Proceed (pWild, iWild)
  end.

(** Lines 454-460: [skip_questions] with both counters incremented along. *)
Fixpoint len_skip_questions (pWildSequence pTameSequence : ptr)
    (iWildSequence iTameSequence : Z) : ptr * ptr * Z * Z :=
  match pWildSequence with
  | [] => ([], pTameSequence, iWildSequence, iTameSequence)
  | c :: pWildSequence' =>
      if (c =? QUESTION)%N then
        len_skip_questions pWildSequence' (tl pTameSequence)
                           (iWildSequence + 1) (iTameSequence + 1)
      else (pWildSequence, pTameSequence, iWildSequence, iTameSequence)
  end.

(** Lines 466-472: [retry]; after a failed comparison [iTameSequence] is
    incremented and then tested against [lenTame]. *)
Fixpoint len_retry (gas : nat) (pWild pTameSequence : ptr)
    (iTameSequence lenTame : Z) : outcome (ptr * Z) :=
  match gas with
  | O => OutOfGas
  | S gas' =>
      let (pTameSequence', same) :=
        CodePointAdvanceAndCompare pWild pTameSequence in
      if same then Proceed (pTameSequence', iTameSequence)
      else if (lenTame <=? iTameSequence + 1)
              || (rd pTameSequence' 0 =? 0)%N then Return false
      else len_retry gas' pWild pTameSequence' (iTameSequence + 1) lenTame
  end.

(** The upper loop (lines 317-397); [iWild] is the index for both inputs.
    [Proceed] is its [break], with [pWild], [pTame], [iWild], [iTame]. *)
Fixpoint len_upper_loop (gas : nat) (pWild pTame : ptr) (iWild : Z)
    (lenWild lenTame : Z) : outcome (ptr * ptr * Z * Z) :=
  match gas with
  | O => OutOfGas
  | S gas' =>
      if (lenTame <=? iWild) || (rd pTame 0 =? 0)%N then
        if (iWild <? lenWild) && nonzero (rd pWild 0)
        then Return (len_only_stars_left pWild iWild lenWild)
        else Return true
      else if lenWild <=? iWild then Return false
      else if (rd pWild 0 =? STAR)%N then
        let iTame := iWild in
        wi <- len_skip_stars_advancing gas' pWild iWild lenWild ;;
        let (pWild', iWild') := (wi : ptr * Z) in
        if (rd pWild' 0 =? 0)%N then Return true
        else
          ti <- (if negb (rd pWild' 0 =? QUESTION)%N
                 then len_seek gas' pWild' pTame iTame
                 else Proceed (pTame, iTame)) ;;
          let (pTame', iTame') := (ti : ptr * Z) in
          Proceed (pWild', pTame', iWild', iTame')
      else if negb (CodePointCompare pWild pTame)
              && negb (rd pWild 0 =? QUESTION)%N then Return false
      else len_upper_loop gas' (fst (CodePointAdvance pWild))
                               (fst (CodePointAdvance pTame))
                               (iWild + 1) lenWild lenTame
  end.

(** One pass through the body of the lower loop up to its end check (lines
    402-476). *)
Definition len_lower_branch (gas : nat) (lenWild lenTame : Z) (s : len_cursors)
  : outcome len_cursors :=
  if (rd (lpWild s) 0 =? STAR)%N then
    wi <- len_skip_stars (tl (lpWild s)) (iWild s + 1) lenWild ;;
    let (pWild', iWild') := (wi : ptr * Z) in
    if (lenWild <=? iWild') || (rd pWild' 0 =? 0)%N then Return true
    else if (lenTame <=? iTame s) || (rd (lpTame s) 0 =? 0)%N then Return false
    else
      ti <- (if negb (rd pWild' 0 =? QUESTION)%N
             then len_seek gas pWild' (lpTame s) (iTame s)
             else Proceed (lpTame s, iTame s)) ;;
      let (pTame', iTame') := (ti : ptr * Z) in
      Proceed (LenCursors pWild' pTame' iWild' iTame'
                          pWild' pTame' iWild' iTame')
  else if negb (CodePointCompare (lpWild s) (lpTame s))
          && negb (rd (lpWild s) 0 =? QUESTION)%N then
    if (lenTame <=? iTame s) || (rd (lpTame s) 0 =? 0)%N then Return false
    else
      let '(pWildSequence', pTameSequence', iWildSequence', iTameSequence') :=
        len_skip_questions (lpWildSequence s) (lpTameSequence s)
                           (iWildSequence s) (iTameSequence s) in
      ti <- len_retry gas pWildSequence' pTameSequence'
                      iTameSequence' lenTame ;;
      let (pTameSequence'', iTameSequence'') := (ti : ptr * Z) in
      Proceed (LenCursors pWildSequence' pTameSequence''
                          iWildSequence' iTameSequence''
                          pWildSequence' pTameSequence''
                          iWildSequence' iTameSequence'')
  else Proceed s.

(** The lower loop (lines 400-494). *)
Fixpoint len_lower_loop (gas : nat) (lenWild lenTame : Z) (s : len_cursors)
  : outcome len_cursors :=
  match gas with
  | O => OutOfGas
  | S gas' =>
      s' <- len_lower_branch gas' lenWild lenTame s ;;
      if (lenTame <=? iTame s') || (rd (lpTame s') 0 =? 0)%N then
        Return ((lenWild <=? iWild s') || (rd (lpWild s') 0 =? 0)%N)
      else
        len_lower_loop gas' lenWild lenTame
          (LenCursors (fst (CodePointAdvance (lpWild s')))
                      (fst (CodePointAdvance (lpTame s')))
                      (iWild s' + 1) (iTame s' + 1)
                      (lpWildSequence s') (lpTameSequence s')
                      (iWildSequence s') (iTameSequence s'))
  end.

Definition FastWildLenCompareUtf8_gas (gas : nat) (pWild pTame : ptr)
    (lenWild lenTame : Z) : option bool :=
  verdict_of
    (r <- len_upper_loop gas pWild pTame 0 lenWild lenTame ;;
     let '(pWild', pTame', iWild', iTame') := (r : ptr * ptr * Z * Z) in
     len_lower_loop gas lenWild lenTame
       (LenCursors pWild' pTame' iWild' iTame' pWild' pTame' iWild' iTame')).

Definition FastWildLenCompareUtf8 (pWild pTame : ptr) (lenWild lenTame : Z)
  : option bool :=
  FastWildLenCompareUtf8_gas (gas_for pWild pTame) pWild pTame lenWild lenTame.

Local Open Scope N_scope.

(** ** [FastWildCompare]

    The routine for strings of single-byte characters (lines 503-654).  Its
    pointers step one byte at a time, so its inner loops recurse on the list
    they walk; the loops of lines 517-523, 535 and 577, and 617-621 are
    [only_stars_left], [skip_stars] and [skip_questions]. *)

(** Lines 548-554 and 595-601: until the bytes at [pWild] and [pTame] are
    equal, increment [pTame]; return false when it reaches a zero byte. *)
Fixpoint byte_seek (pWild pTame : ptr) : outcome ptr :=
  match pTame with
  | [] => if rd pWild 0 =? 0 then Proceed [] else Return false
  | d :: pTame' =>
      if rd pWild 0 =? d then Proceed pTame
      else if rd pTame' 0 =? 0 then Return false
      else byte_seek pWild pTame'
  end.

(** Lines 626-632: increment [pTameSequence] and compare, until the bytes
    are equal; return false when they differ at a zero byte. *)
Fixpoint byte_retry (pWild pTameSequence : ptr) : outcome ptr :=
  match pTameSequence with
  | [] => if rd pWild 0 =? 0 then Proceed [] else Return false
  | _ :: pTameSequence' =>
      if rd pWild 0 =? rd pTameSequence' 0 then Proceed pTameSequence'
      else if rd pTameSequence' 0 =? 0 then Return false
      else byte_retry pWild pTameSequence'
  end.

(** The upper loop (lines 510-569). *)
Fixpoint byte_upper_loop (gas : nat) (pWild pTame : ptr)
  : outcome (ptr * ptr) :=
  match gas with
  | O => OutOfGas
  | S gas' =>
      if rd pTame 0 =? 0 then
        if nonzero (rd pWild 0) then Return (only_stars_left pWild)
        else Return true
      else if rd pWild 0 =? STAR then
        let pWild' := skip_stars (tl pWild) in
        if rd pWild' 0 =? 0 then Return true
        else
          pTame' <- (if negb (rd pWild' 0 =? QUESTION)
                     then byte_seek pWild' pTame
                     else Proceed pTame) ;;
          Proceed (pWild', pTame')
      else if negb (rd pWild 0 =? rd pTame 0)
              && negb (rd pWild 0 =? QUESTION) then Return false
      else byte_upper_loop gas' (tl pWild) (tl pTame)
  end.

(** One pass through the body of the lower loop up to its end check (lines
    574-635). *)
Definition byte_lower_branch (s : cursors) : outcome cursors :=
  if rd (pWild s) 0 =? STAR then
    let pWild' := skip_stars (tl (pWild s)) in
    if rd pWild' 0 =? 0 then Return true
    else if rd (pTame s) 0 =? 0 then Return false
    else
      pTame' <- (if negb (rd pWild' 0 =? QUESTION)
                 then byte_seek pWild' (pTame s)
                 else Proceed (pTame s)) ;;
      Proceed (Cursors pWild' pTame' pWild' pTame')
  else if negb (rd (pWild s) 0 =? rd (pTame s) 0)
          && negb (rd (pWild s) 0 =? QUESTION) then
    if rd (pTame s) 0 =? 0 then Return false
    else
      let (pWildSequence', pTameSequence') :=
        skip_questions (pWildSequence s) (pTameSequence s) in
      pTameSequence'' <- byte_retry pWildSequence' pTameSequence' ;;
      Proceed (Cursors pWildSequence' pTameSequence''
                       pWildSequence' pTameSequence'')
  else Proceed s.

(** The lower loop (lines 572-652). *)
Fixpoint byte_lower_loop (gas : nat) (s : cursors) : outcome cursors :=
  match gas with
  | O => OutOfGas
  | S gas' =>
      s' <- byte_lower_branch s ;;
      if rd (pTame s') 0 =? 0 then Return (rd (pWild s') 0 =? 0)
      else byte_lower_loop gas' (Cursors (tl (pWild s')) (tl (pTame s'))
                                         (pWildSequence s') (pTameSequence s'))
  end.

Definition FastWildCompare_gas (gas : nat) (pWild pTame : ptr) : option bool :=
  verdict_of (wt <- byte_upper_loop gas pWild pTame ;;
              byte_lower_loop gas (Cursors (fst wt) (snd wt)
                                           (fst wt) (snd wt))).

Definition FastWildCompare (pWild pTame : ptr) : option bool :=
  FastWildCompare_gas (gas_for pWild pTame) pWild pTame.

(** ** The test routine of [wild.cpp]

    [test] (lines 55-126) as it is compiled with [COMPARE_UTF8] defined and
    [COMPARE_PERFORMANCE] not: both matchers for UTF-8 are run, the one with
    limits on the code point counts, and the test passes when both return
    the expected result. *)
Definition test (pTame pWild : ptr) (bExpectedResult : bool) : option bool :=
  match CodePointCount pWild, CodePointCount pTame with
  | Some lenWild, Some lenTame =>
      match FastWildCompareUtf8 pWild pTame,
            FastWildLenCompareUtf8 pWild pTame lenWild lenTame with
      | Some r1, Some r2 =>
          let bPassed := true in
          let bPassed :=
            if negb (Bool.eqb bExpectedResult r1) then false else bPassed in
          let bPassed :=
            if negb (Bool.eqb bExpectedResult r2) then false else bPassed in
          Some bPassed
      | _, _ => None
      end
  | _, _ => None
  end.

(** * Vocabulary of the properties *)

(** The three bytes of the euro sign, U+20AC. *)
Definition euro : ptr := [0xE2; 0x82; 0xAC].

(** The two bytes of e with acute, U+00E9. *)
Definition e_acute : ptr := [0xC3; 0xA9].

(** The content of a terminated string: no byte of it is zero, and the
    terminator is what is read behind its last byte. *)
Definition cstring (s : ptr) : bool := forallb nonzero s.

(** The byte is the star. *)
Definition is_star (b : N) : bool := b =? STAR.

(** The number of bytes the first byte of a code point calls for. *)
Definition nominal_width (b : N) : nat :=
  if THREESOME_LIMIT <? b then 4%nat
  else if TWOFER_LIMIT <? b then 3%nat
  else if SINGLETON_LIMIT <? b then 2%nat
  else 1%nat.

(** No code point of [p], as [CodePointAdvance] delimits them, is a star or
    a question mark. *)
Fixpoint literal_units (gas : nat) (p : ptr) : bool :=
  match gas with
  | O => true
  | S gas' =>
      if rd p 0 =? 0 then true
      else negb (rd p 0 =? STAR) && negb (rd p 0 =? QUESTION)
           && literal_units gas' (fst (CodePointAdvance p))
  end.

(** One unit of gas per byte is enough to walk the whole of [p]. *)
Definition no_wildcard (p : ptr) : bool := literal_units (length p) p.

(** Equality of two strings, byte for byte. *)
Definition ptr_eqb (p t : ptr) : bool :=
  if list_eq_dec N.eq_dec p t then true else false.

(** An outcome that is not [OutOfGas], and whose state, when control
    proceeds, satisfies [P]. *)
Definition settled {A : Type} (P : A -> Prop) (o : outcome A) : Prop :=
  match o with
  | Return _ => True
  | Proceed a => P a
  | OutOfGas => False
  end.

(** What one pass of the lower loop does to the lengths of the tame string
    at [pTame] and at [pTameSequence]: the fallback position never moves
    back, and where it stays the tame position does not move back. *)
Definition keeps_order (q c : nat) (pTameSequence' pTame' : ptr) : Prop :=
  (length pTame' <= length pTameSequence')%nat /\
  (length pTameSequence' <= q)%nat /\
  (length pTameSequence' = q -> (length pTame' <= c)%nat).

(** [o'] is [o], unless [o] ran out of gas. *)
Definition refines {A : Type} (o o' : outcome A) : Prop :=
  o = OutOfGas \/ o = o'.

(** Every byte of the string is a code point of its own. *)
Definition single_byte (s : ptr) : bool :=
  forallb (fun b => nonzero b && (b <=? SINGLETON_LIMIT)) s.

(** Two outcomes of the same kind: the same verdict, or states related by
    [R]. *)
Definition sim {A B : Type} (R : A -> B -> Prop)
    (o : outcome A) (lo : outcome B) : Prop :=
  match o, lo with
  | Return b, Return b' => b = b'
  | Proceed a, Proceed b => R a b
  | OutOfGas, OutOfGas => True
  | _, _ => False
  end.

(** The counter [i] is the index of the position [p] in a string of [len]
    code points that are single bytes. *)
Definition index_of (len : Z) (p : ptr) (i : Z) : Prop :=
  i = (len - Z.of_nat (length p))%Z.

(** The counter [i] is at most that index. *)
Definition index_below (len : Z) (p : ptr) (i : Z) : Prop :=
  (i <= len - Z.of_nat (length p))%Z.

(** The state of the lower loop of [FastWildLenCompareUtf8] next to that of
    [FastWildCompareUtf8] on strings of single bytes: the same pointers, the
    counters of the wild string exact, those of the tame string not ahead,
    and both positions as many bytes behind their fallback positions. *)
Definition in_step (lenWild lenTame : Z) (s : cursors) (ls : len_cursors)
  : Prop :=
  lpWild ls = pWild s /\ lpTame ls = pTame s /\
  lpWildSequence ls = pWildSequence s /\
  lpTameSequence ls = pTameSequence s /\
  single_byte (pWildSequence s) = true /\
  single_byte (pTameSequence s) = true /\
  index_of lenWild (pWild s) (iWild ls) /\
  index_below lenTame (pTame s) (iTame ls) /\
  index_of lenWild (pWildSequence s) (iWildSequence ls) /\
  index_below lenTame (pTameSequence s) (iTameSequence ls) /\
  exists k, pWild s = skipn k (pWildSequence s) /\
            pTame s = skipn k (pTameSequence s).

(** Matching by the book, on strings whose characters are single bytes: a
    star stands for any run of bytes, a question mark for any one byte, any
    other byte for itself. *)
Fixpoint glob (p t : ptr) : bool :=
  match p with
  | [] => match t with [] => true | _ => false end
  | c :: p' =>
      if c =? STAR then
        (fix star (t : ptr) : bool :=
           glob p' t || match t with [] => false | _ :: t' => star t' end) t
      else
        match t with
        | [] => false
        | d :: t' => ((c =? QUESTION) || (c =? d)) && glob p' t'
        end
  end.

(** A wild character that is no star against a tame character. *)
Definition seg_match (c d : N) : Prop :=
  c <> STAR /\ (c = QUESTION \/ c = d).

(** The lower loop is about to try the wild string at [pWildSequence]
    against the tame string at [pTameSequence]: the characters up to [pWild]
    have been matched with the characters up to [pTame], and [ans] is
    whether the wild string with a star in front matches. *)
Definition aligned (ans : bool) (s : cursors) : Prop :=
  exists seg tseg,
    pWildSequence s = seg ++ pWild s /\
    pTameSequence s = tseg ++ pTame s /\
    Forall2 seg_match seg tseg /\
    cstring (pWildSequence s) = true /\
    cstring (pTameSequence s) = true /\
    ans = glob (STAR :: pWildSequence s) (pTameSequence s).

(** The four pointers of the lower loop are in strings of single bytes. *)
Definition single_bytes (s : cursors) : Prop :=
  single_byte (pWild s) = true /\ single_byte (pTame s) = true /\
  single_byte (pWildSequence s) = true /\
  single_byte (pTameSequence s) = true.

(** A whole code point: as many bytes as its first byte calls for, none of
    them zero. *)
Definition code_point (u : ptr) : bool :=
  (length u =? nominal_width (rd u 0))%nat && cstring u.

(** A code point that is neither the star nor the question mark. *)
Definition literal_code_point (u : ptr) : bool :=
  code_point u && negb (rd u 0 =? STAR) && negb (rd u 0 =? QUESTION).

(** [l] is what [t] starts with. *)
Definition is_prefix (l t : ptr) : bool := ptr_eqb l (firstn (length l) t).

(** The bytes of a code point read as one number, the first byte lowest. *)
Definition code (u : ptr) : N := fold_right (fun b acc => b + 256 * acc) 0 u.

(** A whole code point whose bytes are below 256. *)
Definition utf8_unit (u : ptr) : bool :=
  code_point u && forallb (fun b => b <? 256) u.

(** In a wild string given as the numbers of its code points, no question
    mark comes next behind a run of stars. *)
Fixpoint no_question_after_star (P : ptr) : bool :=
  match P with
  | [] => true
  | c :: rest =>
      (if c =? STAR then negb (rd (skip_stars rest) 0 =? QUESTION) else true)
      && no_question_after_star rest
  end.

(** [w] is the bytes and [W] the numbers of the code points [us]. *)
Definition encodes (us : list ptr) (w W : ptr) : Prop :=
  Forall (fun u => utf8_unit u = true) us /\
  w = concat us /\ W = map code us.

Definition encoded (w W : ptr) : Prop := exists us, encodes us w W.

(** The outcome [o] on bytes is out of gas, or it is the outcome [o'] on the
    numbers of the code points, with positions related by [R]. *)
Definition refines_by {A B : Type} (R : A -> B -> Prop)
    (o : outcome A) (o' : outcome B) : Prop :=
  o = OutOfGas \/
  match o, o' with
  | Return b, Return b' => b = b'
  | Proceed a, Proceed a' => R a a'
  | _, _ => False
  end.

(** The positions with which the upper loop breaks, on bytes and on
    numbers. *)
Definition encoded_pair (wt WT : ptr * ptr) : Prop :=
  encoded (fst wt) (fst WT) /\ encoded (snd wt) (snd WT) /\
  no_question_after_star (fst WT) = true /\ rd (fst WT) 0 <> QUESTION.

(** The state of the lower loop on bytes and on numbers. *)
Definition encoded_cursors (s S : cursors) : Prop :=
  encoded (pWild s) (pWild S) /\ encoded (pTame s) (pTame S) /\
  encoded (pWildSequence s) (pWildSequence S) /\
  encoded (pTameSequence s) (pTameSequence S) /\
  no_question_after_star (pWild S) = true /\
  no_question_after_star (pWildSequence S) = true /\
  rd (pWildSequence S) 0 <> QUESTION.

(** The state of the lower loop of [FastWildLenCompareUtf8] next to that
    of [FastWildCompare] on the numbers of the code points: the pointers
    encoded, the counters of the wild string exact and those of the tame
    string not ahead. *)
Definition encoded_len_cursors (lenWild lenTame : Z)
    (ls : len_cursors) (S : cursors) : Prop :=
  encoded_cursors (Cursors (lpWild ls) (lpTame ls)
                           (lpWildSequence ls) (lpTameSequence ls)) S /\
  index_of lenWild (pWild S) (iWild ls) /\
  index_below lenTame (pTame S) (iTame ls) /\
  index_of lenWild (pWildSequence S) (iWildSequence ls) /\
  index_below lenTame (pTameSequence S) (iTameSequence ls).

(** The number of bytes before the first zero byte of the buffer. *)
Fixpoint strlen (p : ptr) : nat :=
  match p with
  | [] => 0%nat
  | b :: p' => if b =? 0 then 0%nat else S (strlen p')
  end.


(** * Properties *)

(** ** The cursor *)

Lemma rd_nil (k : nat) : rd [] k = 0.
Proof. unfold rd; destruct k; reflexivity. Qed.

Lemma rd_cons_0 (b : N) (p : ptr) : rd (b :: p) 0 = b.
Proof. reflexivity. Qed.

Lemma rd_cons_S (b : N) (p : ptr) (k : nat) : rd (b :: p) (S k) = rd p k.
Proof. reflexivity. Qed.

Lemma nonzero_true (b : N) : nonzero b = true <-> b <> 0.
Proof.
  unfold nonzero; rewrite negb_true_iff, N.eqb_neq; reflexivity.
Qed.

Lemma nonzero_false (b : N) : nonzero b = false <-> b = 0.
Proof.
  unfold nonzero; rewrite negb_false_iff, N.eqb_eq; reflexivity.
Qed.

Lemma advance_step_at_zero (p : ptr) : rd p 0 = 0 -> advance_step p = 0%nat.
Proof.
  intros H; unfold advance_step; rewrite H; reflexivity.
Qed.

Lemma advance_step_positive (p : ptr) :
  rd p 0 <> 0 -> (1 <= advance_step p)%nat.
Proof.
  intros H; unfold advance_step.
  assert (E : (0 <? rd p 0) = true) by (apply N.ltb_lt; lia).
  rewrite E; simpl; lia.
Qed.

Lemma advance_shortens (p : ptr) :
  rd p 0 <> 0 -> (length (fst (CodePointAdvance p)) < length p)%nat.
Proof.
  intros H; pose proof (advance_step_positive p H) as Hs.
  unfold CodePointAdvance; simpl; rewrite length_skipn.
  destruct p as [|b p]; [now rewrite rd_nil in H|cbn [length]; lia].
Qed.

Lemma advance_no_longer (p : ptr) :
  (length (fst (CodePointAdvance p)) <= length p)%nat.
Proof.
  unfold CodePointAdvance; simpl; rewrite length_skipn; lia.
Qed.

Lemma advance_more_shortens (p : ptr) :
  snd (CodePointAdvance p) = true ->
  (length (fst (CodePointAdvance p)) < length p)%nat.
Proof.
  intros H; apply advance_shortens; intros Hz.
  unfold CodePointAdvance in H; simpl in H.
  rewrite (advance_step_at_zero p Hz) in H; simpl in H.
  apply nonzero_true in H; contradiction.
Qed.

(** C9: at the terminator [CodePointAdvance] leaves the pointer where it is
    and returns false, however often it is called. *)
Theorem CodePointAdvance_at_terminator (p : ptr) (n : nat) :
  rd p 0 = 0 ->
  CodePointAdvance p = (p, false) /\
  Nat.iter n (fun q => fst (CodePointAdvance q)) p = p.
Proof.
  intros H.
  assert (E : CodePointAdvance p = (p, false)).
  { unfold CodePointAdvance; rewrite (advance_step_at_zero p H); simpl.
    rewrite H; reflexivity. }
  split; [exact E|].
  induction n as [|n IH]; [reflexivity|].
  rewrite Nat.iter_succ, IH, E; reflexivity.
Qed.

Lemma CodePointAdvance_at_terminator_witness :
  CodePointAdvance [0; 97] = ([0; 97], false) /\
  Nat.iter 3 (fun q => fst (CodePointAdvance q)) [0; 97] = [0; 97].
Proof.
  apply (CodePointAdvance_at_terminator [0; 97] 3); reflexivity.
Defined.

(** C3: the code steps over a zero byte inside a truncated code point.  At
    the bytes E2 00 41 the first byte calls for two trailing bytes, the first
    of them is zero and the second is not: [CodePointAdvance] adds one for
    the first byte and one for the third, so the pointer ends two bytes on,
    beyond the zero byte at offset one, and further content is reported.
    [CodePointAdvanceAndCompare] moves its second pointer the same way. *)
Theorem CodePointAdvance_steps_over_zero :
  CodePointAdvance [0xE2; 0; 0x41] = ([0x41], true) /\
  fst (CodePointAdvanceAndCompare [0x41] [0xE2; 0; 0x41]) = [0x41].
Proof. split; reflexivity. Qed.

(** ** Concrete verdicts *)

(** C8: the verdicts of the listed scenarios; the wild string is the first
    argument, the tame string the second. *)
Theorem FastWildCompareUtf8_scenarios :
  FastWildCompareUtf8 (bytes "Hi*") (bytes "Hi") = Some true /\
  FastWildCompareUtf8 (bytes "ab*d") (bytes "abc") = Some false /\
  FastWildCompareUtf8 (bytes "*issip*ss*") (bytes "mississipissippi")
    = Some true /\
  FastWildCompareUtf8 (bytes "*ccd") (bytes "abcccd") = Some true /\
  FastWildCompareUtf8 (bytes "*a?b") (bytes "caaab") = Some true /\
  FastWildCompareUtf8 (bytes "*aa?") (bytes "aaaaa") = Some true /\
  FastWildCompareUtf8 (bytes "?") [] = Some false /\
  FastWildCompareUtf8 [] [] = Some true.
Proof. repeat split; vm_compute; reflexivity. Qed.

(** C1: the two matchers disagree on a well-formed input.  Wild string
    star, question mark; tame string e with acute, a: both count two code
    points, the matcher for terminated strings returns true and the matcher
    with limits returns false. *)
Theorem FastWildLenCompareUtf8_differs :
  CodePointCount (bytes "*?") = Some 2%Z /\
  CodePointCount (e_acute ++ bytes "a") = Some 2%Z /\
  FastWildCompareUtf8 (bytes "*?") (e_acute ++ bytes "a") = Some true /\
  FastWildLenCompareUtf8 (bytes "*?") (e_acute ++ bytes "a") 2 2 = Some false.
Proof. repeat split; vm_compute; reflexivity. Qed.

(** C2: the retry step moves the fallback tame pointer one byte for each
    question mark, not one code point.  With the fallback positions at
    question mark, question mark, a, b and at the euro sign, a, b, skipping
    the two question marks leaves the tame pointer at the third byte of the
    euro sign, in both matchers, where two advances would have left it at
    b; and the wild string star, question mark, question mark, a, b, which
    asks for four code points at least, is found to match the three code
    points euro sign, a, b. *)
Theorem skip_questions_splits_code_point :
  skip_questions (bytes "??ab") (euro ++ bytes "ab")
    = (bytes "ab", [0xAC] ++ bytes "ab") /\
  len_skip_questions (bytes "??ab") (euro ++ bytes "ab") 1 0
    = (bytes "ab", [0xAC] ++ bytes "ab", 3%Z, 2%Z) /\
  fst (CodePointAdvance (fst (CodePointAdvance (euro ++ bytes "ab"))))
    = bytes "b" /\
  FastWildCompareUtf8 (bytes "*??ab") (euro ++ bytes "ab") = Some true.
Proof. repeat split; vm_compute; reflexivity. Qed.

(** ** Terminated strings *)

Lemma cstring_cons (b : N) (s : ptr) :
  cstring (b :: s) = true <-> b <> 0 /\ cstring s = true.
Proof.
  unfold cstring; simpl; rewrite andb_true_iff, nonzero_true; reflexivity.
Qed.

Lemma cstring_rd_0 (s : ptr) :
  cstring s = true -> (rd s 0 = 0 <-> s = []).
Proof.
  destruct s as [|b s]; intros H.
  - split; reflexivity.
  - apply cstring_cons in H; rewrite rd_cons_0; split; [tauto|discriminate].
Qed.

Lemma gas_for_succ (pWild pTame : ptr) :
  exists gas, gas_for pWild pTame = S gas.
Proof.
  unfold gas_for.
  exists (length pWild + (length pTame + 2) * (length pTame + 2) - 1)%nat.
  nia.
Qed.

Lemma only_stars_left_cstring (p : ptr) :
  cstring p = true -> p <> [] -> only_stars_left p = forallb is_star p.
Proof.
  induction p as [|b p IH]; intros Hc Hne; [contradiction|].
  apply cstring_cons in Hc; destruct Hc as [_ Hc].
  simpl; unfold is_star at 1.
  destruct (b =? STAR); [|reflexivity]; simpl.
  destruct p as [|c p]; [reflexivity|].
  apply cstring_cons in Hc as Hc'; destruct Hc' as [Hnz _].
  rewrite rd_cons_0.
  destruct (N.eqb_spec c 0) as [E|_]; [contradiction|].
  apply IH; [assumption|discriminate].
Qed.

Lemma upper_loop_tame_empty (gas : nat) (p : ptr) :
  cstring p = true ->
  upper_loop (S gas) p [] = Return (forallb is_star p).
Proof.
  intros Hc; simpl.
  destruct p as [|b p]; [reflexivity|].
  apply cstring_cons in Hc as Hb; destruct Hb as [Hb _].
  rewrite rd_cons_0.
  apply nonzero_true in Hb; rewrite Hb.
  rewrite only_stars_left_cstring; [reflexivity|assumption|discriminate].
Qed.

(** C6: the empty wild string matches the empty tame string and no other,
    and a wild string matches the empty tame string exactly when each of its
    bytes is a star. *)
Theorem FastWildCompareUtf8_empty (p t : ptr) :
  cstring p = true -> cstring t = true -> t <> [] ->
  FastWildCompareUtf8 [] [] = Some true /\
  FastWildCompareUtf8 [] t = Some false /\
  FastWildCompareUtf8 p [] = Some (forallb is_star p).
Proof.
  intros Hp Ht Hne; split; [reflexivity|split].
  - unfold FastWildCompareUtf8, FastWildCompareUtf8_gas.
    destruct (gas_for_succ [] t) as [gas ->].
    destruct t as [|b t]; [contradiction|].
    apply cstring_cons in Ht; destruct Ht as [Hb _].
    cbn [upper_loop]; rewrite rd_cons_0, rd_nil.
    destruct (N.eqb_spec b 0) as [E|_]; [contradiction|].
    change (0 =? STAR) with false; cbv iota.
    unfold CodePointCompare; rewrite rd_cons_0, rd_nil.
    destruct (N.eqb_spec 0 b) as [E|_]; [symmetry in E; contradiction|].
    reflexivity.
  - unfold FastWildCompareUtf8, FastWildCompareUtf8_gas.
    destruct (gas_for_succ p []) as [gas ->].
    rewrite upper_loop_tame_empty by assumption; reflexivity.
Qed.

Lemma FastWildCompareUtf8_empty_witness :
  FastWildCompareUtf8 [] [] = Some true /\
  FastWildCompareUtf8 [] (bytes "a") = Some false /\
  FastWildCompareUtf8 (bytes "**") [] = Some (forallb is_star (bytes "**")).
Proof.
  apply (FastWildCompareUtf8_empty (bytes "**") (bytes "a"));
    [reflexivity|reflexivity|discriminate].
Defined.

(** C10: with the limit zero for the wild string, the matcher with limits
    returns true exactly when the limit of the tame string is zero or the
    tame string starts with the terminator; with both limits zero it
    returns true. *)
Theorem FastWildLenCompareUtf8_no_wild (pWild pTame : ptr) (lenTame : Z) :
  (0 <= lenTame)%Z ->
  FastWildLenCompareUtf8 pWild pTame 0 lenTame
    = Some ((lenTame =? 0)%Z || (rd pTame 0 =? 0)) /\
  FastWildLenCompareUtf8 pWild pTame 0 0 = Some true.
Proof.
  intros Hlen.
  assert (G : forall l, (0 <= l)%Z ->
            FastWildLenCompareUtf8 pWild pTame 0 l
              = Some ((l =? 0)%Z || (rd pTame 0 =? 0))).
  { intros l Hl; unfold FastWildLenCompareUtf8, FastWildLenCompareUtf8_gas.
    destruct (gas_for_succ pWild pTame) as [gas ->].
    cbn [len_upper_loop].
    replace (l <=? 0)%Z with (l =? 0)%Z
      by (destruct (Z.eqb_spec l 0), (Z.leb_spec l 0); lia || reflexivity).
    destruct ((l =? 0)%Z || (rd pTame 0 =? 0)); reflexivity. }
  split; [apply G; assumption|].
  rewrite G by lia; reflexivity.
Qed.

Lemma FastWildLenCompareUtf8_no_wild_witness :
  FastWildLenCompareUtf8 (bytes "a*") (bytes "ab") 0 2
    = Some ((2 =? 0)%Z || (rd (bytes "ab") 0 =? 0)) /\
  FastWildLenCompareUtf8 (bytes "a*") (bytes "ab") 0 0 = Some true.
Proof.
  apply (FastWildLenCompareUtf8_no_wild (bytes "a*") (bytes "ab") 2); lia.
Defined.

(** ** Code points of a terminated string *)

Ltac limits := unfold SINGLETON_LIMIT, TWOFER_LIMIT, THREESOME_LIMIT,
                      STAR, QUESTION in *.

Lemma cstring_rd (s : ptr) (k : nat) :
  cstring s = true -> (rd s k <> 0 <-> (k < length s)%nat).
Proof.
  revert k; induction s as [|b s IH]; intros k Hc.
  - rewrite rd_nil; simpl; split; [congruence|lia].
  - apply cstring_cons in Hc; destruct Hc as [Hb Hc].
    destruct k as [|k]; [rewrite rd_cons_0; simpl; split; [lia|auto]|].
    rewrite rd_cons_S, (IH k Hc); simpl; lia.
Qed.

Lemma cstring_skipn (s : ptr) (k : nat) :
  cstring s = true -> cstring (skipn k s) = true.
Proof.
  revert k; induction s as [|b s IH]; intros [|k] Hc; try assumption.
  simpl; apply IH; apply cstring_cons in Hc; tauto.
Qed.

Lemma CodePointCompare_spec (a b : ptr) :
  CodePointCompare a b = true <->
  forall k, (k < nominal_width (rd a 0))%nat -> rd a k = rd b k.
Proof.
  unfold CodePointCompare, nominal_width.
  destruct (N.eqb_spec (rd a 0) (rd b 0)) as [E0|E0];
  destruct (N.eqb_spec (rd a 1) (rd b 1)) as [E1|E1];
  destruct (N.eqb_spec (rd a 2) (rd b 2)) as [E2|E2];
  destruct (N.eqb_spec (rd a 3) (rd b 3)) as [E3|E3];
  destruct (N.ltb_spec SINGLETON_LIMIT (rd a 0));
  destruct (N.ltb_spec TWOFER_LIMIT (rd a 0));
  destruct (N.ltb_spec THREESOME_LIMIT (rd a 0));
  limits; try lia; simpl; split; intros Hall; try reflexivity;
  try discriminate;
  try (intros k Hk;
       destruct k as [|[|[|[|k]]]]; try assumption; lia);
  try (exfalso;
       first [ apply E0, (Hall 0%nat) | apply E1, (Hall 1%nat)
             | apply E2, (Hall 2%nat) | apply E3, (Hall 3%nat) ]; lia).
Qed.

Lemma advance_step_cstring (p : ptr) :
  cstring p = true ->
  advance_step p = Nat.min (nominal_width (rd p 0)) (length p).
Proof.
  intros Hc.
  pose proof (cstring_rd p 0 Hc) as H0.
  pose proof (cstring_rd p 1 Hc) as H1.
  pose proof (cstring_rd p 2 Hc) as H2.
  pose proof (cstring_rd p 3 Hc) as H3.
  unfold advance_step, nominal_width, nonzero.
  destruct (N.eqb_spec (rd p 1) 0);
  destruct (N.eqb_spec (rd p 2) 0);
  destruct (N.eqb_spec (rd p 3) 0);
  destruct (N.ltb_spec 0 (rd p 0));
  destruct (N.ltb_spec SINGLETON_LIMIT (rd p 0));
  destruct (N.ltb_spec TWOFER_LIMIT (rd p 0));
  destruct (N.ltb_spec THREESOME_LIMIT (rd p 0));
  limits; try lia; cbn [bool_to_nat andb negb Nat.add]; lia.
Qed.

Lemma CodePointCompare_refl (p : ptr) : CodePointCompare p p = true.
Proof. apply CodePointCompare_spec; reflexivity. Qed.

Lemma nominal_width_positive (b : N) : (1 <= nominal_width b)%nat.
Proof.
  unfold nominal_width.
  destruct (THREESOME_LIMIT <? b), (TWOFER_LIMIT <? b), (SINGLETON_LIMIT <? b);
    lia.
Qed.

Lemma firstn_ext (m : nat) (p t : ptr) :
  (m <= length p)%nat -> (m <= length t)%nat ->
  (forall k, (k < m)%nat -> rd p k = rd t k) ->
  firstn m p = firstn m t.
Proof.
  revert p t; induction m as [|m IH]; intros p t Hp Ht Hk; [reflexivity|].
  destruct p as [|b p]; [simpl in Hp; lia|].
  destruct t as [|c t]; [simpl in Ht; lia|].
  simpl in Hp, Ht; simpl; f_equal.
  - apply (Hk 0%nat); lia.
  - apply IH; [lia|lia|].
    intros k Hlt; apply (Hk (S k)); lia.
Qed.

(** Equal code points of two terminated strings are stepped over alike, and
    the strings are equal exactly when what follows is. *)
Lemma compare_true_advance (p t : ptr) :
  cstring p = true -> cstring t = true ->
  CodePointCompare p t = true ->
  advance_step t = advance_step p /\
  (p = t <-> skipn (advance_step p) p = skipn (advance_step p) t).
Proof.
  intros Hp Ht Hc.
  rewrite CodePointCompare_spec in Hc.
  pose proof (nominal_width_positive (rd p 0)) as Hw.
  assert (H0 : rd p 0 = rd t 0) by (apply Hc; lia).
  assert (Hk : forall k, (k < nominal_width (rd p 0))%nat ->
                 ((k < length p)%nat <-> (k < length t)%nat)).
  { intros k Hlt.
    rewrite <- (cstring_rd p k Hp), <- (cstring_rd t k Ht), (Hc k Hlt).
    reflexivity. }
  rewrite (advance_step_cstring p Hp), (advance_step_cstring t Ht), <- H0.
  set (w := nominal_width (rd p 0)) in *.
  assert (Hm : Nat.min w (length t) = Nat.min w (length p)).
  { destruct (Nat.lt_ge_cases (length p) w) as [Hlp|Hlp];
    destruct (Nat.lt_ge_cases (length t) w) as [Hlt|Hlt];
      try pose proof (Hk _ Hlp); try pose proof (Hk _ Hlt); lia. }
  split; [exact Hm|].
  split; [intros ->; reflexivity|intros Hs].
  rewrite <- (firstn_skipn (Nat.min w (length p)) p).
  rewrite <- (firstn_skipn (Nat.min w (length p)) t).
  rewrite Hs; f_equal.
  apply firstn_ext; [lia|lia|].
  intros k Hlt; apply Hc; lia.
Qed.

Lemma ptr_eqb_true (p t : ptr) : ptr_eqb p t = true <-> p = t.
Proof.
  unfold ptr_eqb; destruct (list_eq_dec N.eq_dec p t);
    split; congruence.
Qed.

Lemma ptr_eqb_iff (p t p' t' : ptr) :
  (p = t <-> p' = t') -> ptr_eqb p t = ptr_eqb p' t'.
Proof.
  unfold ptr_eqb; intros H.
  destruct (list_eq_dec N.eq_dec p t), (list_eq_dec N.eq_dec p' t');
    tauto.
Qed.

(** On a wild string with no star and no question mark the upper loop
    compares the strings code point by code point to the end. *)
Lemma upper_loop_literal (gas n : nat) (p t : ptr) :
  (length t < gas)%nat -> (length p <= n)%nat ->
  cstring p = true -> cstring t = true ->
  literal_units n p = true ->
  upper_loop gas p t = Return (ptr_eqb p t).
Proof.
  revert n p t; induction gas as [|gas IH]; intros n p t Hg Hn Hp Ht Hl;
    [lia|].
  destruct t as [|c t].
  { rewrite upper_loop_tame_empty by assumption; f_equal.
    destruct p as [|b p]; [reflexivity|].
    destruct n as [|n]; [simpl in Hn; lia|].
    apply cstring_cons in Hp; destruct Hp as [Hb _].
    simpl in Hl; rewrite rd_cons_0 in Hl.
    destruct (N.eqb_spec b 0); [contradiction|].
    unfold is_star at 1; simpl.
    destruct (b =? STAR); [discriminate|reflexivity]. }
  apply cstring_cons in Ht as Hc; destruct Hc as [Hc _].
  cbn [upper_loop]; rewrite rd_cons_0.
  destruct (N.eqb_spec c 0); [contradiction|].
  assert (Hlit : (rd p 0 =? STAR) = false /\ (rd p 0 =? QUESTION) = false /\
                 (rd p 0 <> 0 ->
                  exists n', n = S n' /\
                    literal_units n' (fst (CodePointAdvance p)) = true)).
  { destruct p as [|b p]; [rewrite rd_nil; repeat split; congruence|].
    destruct n as [|n]; [simpl in Hn; lia|].
    simpl in Hl; rewrite rd_cons_0 in *.
    destruct (N.eqb_spec b 0) as [->|_]; [repeat split; congruence|].
    destruct (b =? STAR), (b =? QUESTION); try discriminate.
    repeat split; intros _; exists n; split; [reflexivity|exact Hl]. }
  destruct Hlit as (-> & -> & Hnext); cbn [negb andb].
  destruct (CodePointCompare p (c :: t)) eqn:Hcmp; cbn [negb andb].
  - pose proof (CodePointCompare_spec p (c :: t)) as Hs.
    rewrite Hcmp in Hs; destruct Hs as [Hs _].
    pose proof (nominal_width_positive (rd p 0)) as Hw.
    assert (H0 : rd p 0 = c) by (apply (Hs eq_refl 0%nat); lia).
    destruct Hnext as (n' & -> & Hl'); [congruence|].
    destruct (compare_true_advance p (c :: t) Hp Ht Hcmp) as [Hst Heq].
    rewrite (IH n').
    + f_equal; symmetry; apply ptr_eqb_iff.
      unfold CodePointAdvance; cbn [fst]; rewrite Hst; exact Heq.
    + pose proof (advance_shortens (c :: t)) as Hsh.
      rewrite rd_cons_0 in Hsh; specialize (Hsh Hc); lia.
    + pose proof (advance_shortens p) as Hsh.
      rewrite H0 in Hsh; specialize (Hsh Hc); lia.
    + apply cstring_skipn; assumption.
    + apply cstring_skipn; assumption.
    + exact Hl'.
  - f_equal; symmetry.
    unfold ptr_eqb; destruct (list_eq_dec N.eq_dec p (c :: t)) as [E|_];
      [|reflexivity].
    rewrite E, CodePointCompare_refl in Hcmp; discriminate.
Qed.

Lemma literal_wild_matches_equal (p t : ptr) :
  cstring p = true -> cstring t = true -> no_wildcard p = true ->
  (FastWildCompareUtf8 p t = Some true <-> p = t).
Proof.
  intros Hp Ht Hl.
  unfold FastWildCompareUtf8, FastWildCompareUtf8_gas.
  rewrite (upper_loop_literal _ (length p)); try assumption;
    [|unfold gas_for; nia|lia].
  cbn [bind verdict_of]; rewrite <- ptr_eqb_true; split; congruence.
Qed.

(** C5: a wild string with no star and no question mark matches the tame
    string that is equal to it, byte for byte, and no other. *)
Theorem FastWildCompareUtf8_literal (p t : ptr) :
  cstring p = true -> cstring t = true -> no_wildcard p = true ->
  FastWildCompareUtf8 p t = Some (ptr_eqb p t) /\
  (FastWildCompareUtf8 p t = Some true <-> p = t).
Proof.
  intros Hp Ht Hl; split.
  - unfold FastWildCompareUtf8, FastWildCompareUtf8_gas.
    rewrite (upper_loop_literal _ (length p)); try assumption;
      [reflexivity|unfold gas_for; nia|lia].
  - apply literal_wild_matches_equal; assumption.
Qed.

Lemma FastWildCompareUtf8_literal_witness :
  FastWildCompareUtf8 (bytes "abc") (bytes "abd")
    = Some (ptr_eqb (bytes "abc") (bytes "abd")) /\
  (FastWildCompareUtf8 (bytes "abc") (bytes "abd") = Some true
   <-> bytes "abc" = bytes "abd").
Proof.
  apply (FastWildCompareUtf8_literal (bytes "abc") (bytes "abd"));
    reflexivity.
Defined.



(** ** Question marks *)

(** In the upper loop a question mark is stepped over together with one
    whole code point of the tame string. *)
Lemma upper_loop_question (gas : nat) (p t : ptr) :
  rd t 0 <> 0 ->
  upper_loop (S gas) (QUESTION :: p) t
    = upper_loop gas p (fst (CodePointAdvance t)).
Proof.
  intros Ht; cbn [upper_loop]; rewrite rd_cons_0.
  destruct (N.eqb_spec (rd t 0) 0); [contradiction|].
  change (QUESTION =? STAR) with false.
  change (QUESTION =? QUESTION) with true.
  rewrite andb_false_r; reflexivity.
Qed.

(** One question mark matches one code point of four bytes, and two
    question marks do not. *)
Lemma question_consumes_four_byte_unit (b0 b1 b2 b3 : N) :
  THREESOME_LIMIT < b0 -> b1 <> 0 -> b2 <> 0 -> b3 <> 0 ->
  FastWildCompareUtf8 (bytes "?") [b0; b1; b2; b3] = Some true /\
  FastWildCompareUtf8 (bytes "??") [b0; b1; b2; b3] = Some false.
Proof.
  intros H0 H1 H2 H3.
  assert (Hc : cstring [b0; b1; b2; b3] = true).
  { repeat (apply cstring_cons; split; [limits; lia|]); reflexivity. }
  assert (Hadv : fst (CodePointAdvance [b0; b1; b2; b3]) = []).
  { unfold CodePointAdvance; cbn [fst].
    rewrite (advance_step_cstring _ Hc), rd_cons_0; unfold nominal_width.
    destruct (N.ltb_spec THREESOME_LIMIT b0); [reflexivity|lia]. }
  assert (Hnz : rd [b0; b1; b2; b3] 0 <> 0) by (rewrite rd_cons_0; limits; lia).
  unfold FastWildCompareUtf8, FastWildCompareUtf8_gas.
  split.
  - change (gas_for (bytes "?") [b0; b1; b2; b3]) with 37%nat.
    change (bytes "?") with [QUESTION].
    rewrite (upper_loop_question _ _ _ Hnz), Hadv; reflexivity.
  - change (gas_for (bytes "??") [b0; b1; b2; b3]) with 38%nat.
    change (bytes "??") with [QUESTION; QUESTION].
    rewrite (upper_loop_question _ _ _ Hnz), Hadv; reflexivity.
Qed.

(** ** Termination *)

Lemma settled_weaken {A : Type} (P Q : A -> Prop) (o : outcome A) :
  (forall a, P a -> Q a) -> settled P o -> settled Q o.
Proof. destruct o; simpl; auto. Qed.

Lemma settled_bind {A B : Type} (P : A -> Prop) (Q : B -> Prop)
    (o : outcome A) (k : A -> outcome B) :
  settled P o -> (forall a, P a -> settled Q (k a)) -> settled Q (bind o k).
Proof. destruct o; simpl; auto. Qed.

Lemma settled_verdict {A : Type} (o : outcome A) :
  settled (fun _ => False) o -> exists b, verdict_of o = Some b.
Proof. destruct o; simpl; intros H; [eauto|contradiction|contradiction]. Qed.

Lemma advance_pair_shortens (p p' : ptr) :
  CodePointAdvance p = (p', true) -> (length p' < length p)%nat.
Proof.
  intros E; pose proof (advance_more_shortens p) as H.
  rewrite E in H; apply H; reflexivity.
Qed.

Lemma advance_pair_no_longer (p p' : ptr) (more : bool) :
  CodePointAdvance p = (p', more) -> (length p' <= length p)%nat.
Proof.
  intros E; pose proof (advance_no_longer p) as H.
  rewrite E in H; exact H.
Qed.

Lemma count_loop_total (gas : nat) (p : ptr) (i : Z) :
  (length p < gas)%nat -> exists n, count_loop gas p i = Some n.
Proof.
  revert p i; induction gas as [|gas IH]; intros p i Hg; [lia|].
  cbn [count_loop].
  destruct (CodePointAdvance p) as [p' more] eqn:E.
  destruct more; [|eauto].
  pose proof (advance_pair_shortens _ _ E); apply IH; lia.
Qed.

(** [CodePointCount] returns a count for every string. *)
Lemma CodePointCount_total (p : ptr) : exists n, CodePointCount p = Some n.
Proof. apply count_loop_total; lia. Qed.

Lemma skip_stars_advancing_settled (gas : nat) (pWild : ptr) :
  (length pWild < gas)%nat ->
  settled (fun p' => (length p' <= length pWild)%nat)
          (skip_stars_advancing gas pWild).
Proof.
  revert pWild; induction gas as [|gas IH]; intros pWild Hg; [lia|].
  cbn [skip_stars_advancing].
  destruct (CodePointAdvance pWild) as [p' more] eqn:E.
  destruct more; cbn [andb].
  - pose proof (advance_pair_shortens _ _ E) as Hs.
    destruct (rd p' 0 =? STAR); [|simpl; lia].
    eapply settled_weaken; [|apply IH; lia].
    simpl; intros; lia.
  - pose proof (advance_pair_no_longer _ _ _ E); simpl; lia.
Qed.

Lemma seek_settled (gas : nat) (pWild pTame : ptr) :
  (length pTame < gas)%nat ->
  settled (fun t' => (length t' <= length pTame)%nat) (seek gas pWild pTame).
Proof.
  revert pTame; induction gas as [|gas IH]; intros pTame Hg; [lia|].
  cbn [seek].
  destruct (CodePointCompare pWild pTame); [simpl; lia|].
  destruct (CodePointAdvance pTame) as [t' more] eqn:E.
  destruct more; [|exact I].
  pose proof (advance_pair_shortens _ _ E) as Hs.
  eapply settled_weaken; [|apply IH; lia].
  simpl; intros; lia.
Qed.

Lemma skip_stars_no_longer (p : ptr) :
  (length (skip_stars p) <= length p)%nat.
Proof.
  induction p as [|c p IH]; simpl; [lia|].
  destruct (c =? STAR); simpl; lia.
Qed.

Lemma skip_questions_no_longer (ws ts : ptr) :
  (length (snd (skip_questions ws ts)) <= length ts)%nat.
Proof.
  revert ts; induction ws as [|c ws IH]; intros ts; simpl; [lia|].
  destruct (c =? QUESTION); simpl; [|lia].
  specialize (IH (tl ts)); destruct ts; simpl in *; lia.
Qed.

(** Where the retry loop is left, the tame string has got shorter or is at
    a zero byte. *)
Lemma retry_settled (gas : nat) (pWild ts : ptr) :
  (length ts < gas)%nat ->
  settled (fun ts' => (length ts' < length ts)%nat \/ rd ts' 0 = 0)
          (retry gas pWild ts).
Proof.
  revert ts; induction gas as [|gas IH]; intros ts Hg; [lia|].
  cbn [retry]; unfold CodePointAdvanceAndCompare.
  set (ts' := skipn (advance_step ts) ts).
  assert (Hs : (length ts' < length ts)%nat \/ rd ts' 0 = 0).
  { destruct (N.eq_dec (rd ts 0) 0) as [E|E].
    - right; unfold ts'; rewrite (advance_step_at_zero ts E); exact E.
    - left; apply (advance_shortens ts E). }
  destruct (CodePointCompare pWild ts'); [exact Hs|].
  destruct (N.eqb_spec (rd ts' 0) 0) as [E|E]; [exact I|].
  destruct Hs as [Hs|Hs]; [|contradiction].
  eapply settled_weaken; [|apply IH; lia].
  simpl; intros a [H|H]; [left; lia|right; exact H].
Qed.

Lemma upper_loop_settled (gas : nat) (pWild pTame : ptr) :
  (length pWild + 2 * length pTame + 2 <= gas)%nat ->
  settled (fun wt => (length (snd wt) <= length pTame)%nat)
          (upper_loop gas pWild pTame).
Proof.
  revert pWild pTame; induction gas as [|gas IH]; intros pWild pTame Hg;
    [lia|].
  cbn [upper_loop].
  destruct (N.eqb_spec (rd pTame 0) 0) as [E|E].
  { destruct (nonzero (rd pWild 0)); exact I. }
  destruct (rd pWild 0 =? STAR).
  { eapply settled_bind; [apply skip_stars_advancing_settled; lia|].
    intros pWild' _.
    destruct (rd pWild' 0 =? 0); [exact I|].
    eapply settled_bind with (P := fun t' => (length t' <= length pTame)%nat).
    - destruct (negb (rd pWild' 0 =? QUESTION));
        [apply seek_settled; lia|simpl; lia].
    - intros t' Ht; exact Ht. }
  destruct (negb (CodePointCompare pWild pTame)
            && negb (rd pWild 0 =? QUESTION)); [exact I|].
  pose proof (advance_shortens pTame E).
  pose proof (advance_no_longer pWild).
  eapply settled_weaken; [|apply IH; lia].
  cbv beta; intros; lia.
Qed.

Lemma lower_branch_settled (gas : nat) (s : cursors) :
  (length (pTameSequence s) < gas)%nat ->
  (length (pTame s) <= length (pTameSequence s))%nat ->
  settled (fun s' => rd (pTame s') 0 = 0 \/
                     keeps_order (length (pTameSequence s)) (length (pTame s))
                                 (pTameSequence s') (pTame s'))
          (lower_branch gas s).
Proof.
  intros Hg Hinv; unfold lower_branch.
  destruct (rd (pWild s) 0 =? STAR).
  { destruct (rd (skip_stars (tl (pWild s))) 0 =? 0); [exact I|].
    destruct (rd (pTame s) 0 =? 0); [exact I|].
    eapply settled_bind
      with (P := fun t' => (length t' <= length (pTame s))%nat).
    - destruct (negb (rd (skip_stars (tl (pWild s))) 0 =? QUESTION));
        [apply seek_settled; lia|simpl; lia].
    - intros t' Ht; right; unfold keeps_order; cbn [pTame pTameSequence].
      lia. }
  destruct (negb (CodePointCompare (pWild s) (pTame s))
            && negb (rd (pWild s) 0 =? QUESTION)).
  - destruct (rd (pTame s) 0 =? 0); [exact I|].
    pose proof (skip_questions_no_longer (pWildSequence s) (pTameSequence s))
      as Hq.
    destruct (skip_questions (pWildSequence s) (pTameSequence s))
      as [ws' ts'].
    cbn [snd] in Hq.
    eapply settled_bind; [apply retry_settled; lia|].
    intros ts'' [Hlt|Hz]; cbn [settled pTame pTameSequence];
      [right; unfold keeps_order; lia|left; exact Hz].
  - right; unfold keeps_order; lia.
Qed.

Lemma lower_loop_settled (gas : nat) (s : cursors) :
  (length (pTame s) <= length (pTameSequence s))%nat ->
  (length (pTameSequence s) * (length (pTameSequence s) + 1)
   + length (pTame s) + length (pTameSequence s) + 2 <= gas)%nat ->
  settled (fun _ => False) (lower_loop gas s).
Proof.
  revert s; induction gas as [|gas IH]; intros s Hinv Hg; [lia|].
  cbn [lower_loop].
  eapply settled_bind; [apply lower_branch_settled; [nia|exact Hinv]|].
  intros s' Hs'; cbv beta in Hs'.
  destruct (N.eqb_spec (rd (pTame s') 0) 0) as [E|E]; [exact I|].
  destruct Hs' as [Hz|(H1 & H2 & H3)]; [contradiction|].
  pose proof (advance_shortens (pTame s') E) as Hsh.
  apply IH; cbn [pTame pTameSequence]; [lia|].
  destruct (Nat.eq_dec (length (pTameSequence s'))
                       (length (pTameSequence s))) as [Eq|Ne].
  - specialize (H3 Eq); rewrite Eq; lia.
  - nia.
Qed.

Lemma FastWildCompareUtf8_gas_settled (gas : nat) (wild tame : ptr) :
  (gas_for wild tame <= gas)%nat ->
  exists b, FastWildCompareUtf8_gas gas wild tame = Some b.
Proof.
  intros Hg; unfold gas_for in Hg.
  apply settled_verdict.
  eapply settled_bind; [apply upper_loop_settled; nia|].
  intros [w t] Ht; cbn [fst snd] in *.
  apply lower_loop_settled; cbn [pTame pTameSequence]; [lia|nia].
Qed.

(** The same for the loops of [FastWildLenCompareUtf8]. *)

Lemma len_skip_stars_advancing_settled (gas : nat) (wild : ptr) (i len : Z) :
  (length wild < gas)%nat ->
  settled (fun wi => (length (fst wi) <= length wild)%nat)
          (len_skip_stars_advancing gas wild i len).
Proof.
  revert wild i; induction gas as [|gas IH]; intros wild i Hg; [lia|].
  cbn [len_skip_stars_advancing].
  destruct (CodePointAdvance wild) as [p' more] eqn:E.
  destruct more.
  - pose proof (advance_pair_shortens _ _ E) as Hs.
    destruct ((rd p' 0 =? STAR) && (i + 1 <? len)%Z);
      [|cbn [settled fst]; lia].
    eapply settled_weaken; [|apply IH; lia].
    cbv beta; intros; lia.
  - pose proof (advance_pair_no_longer _ _ _ E); cbn [settled fst]; lia.
Qed.

Lemma len_seek_settled (gas : nat) (wild tame : ptr) (i : Z) :
  (length tame < gas)%nat ->
  settled (fun ti => (length (fst ti) <= length tame)%nat)
          (len_seek gas wild tame i).
Proof.
  revert tame i; induction gas as [|gas IH]; intros tame i Hg; [lia|].
  cbn [len_seek].
  destruct (CodePointCompare wild tame); [cbn [settled fst]; lia|].
  destruct (CodePointAdvance tame) as [t' more] eqn:E.
  destruct more; [|exact I].
  pose proof (advance_pair_shortens _ _ E) as Hs.
  eapply settled_weaken; [|apply IH; lia].
  cbv beta; intros; lia.
Qed.

Lemma len_skip_stars_settled (wild : ptr) (i len : Z) :
  settled (fun _ => True) (len_skip_stars wild i len).
Proof.
  revert i; induction wild as [|c wild IH]; intros i; simpl; [exact I|].
  destruct (c =? STAR); [|exact I].
  destruct (len <=? i + 1)%Z; [exact I|apply IH].
Qed.

Lemma len_skip_questions_no_longer (ws ts : ptr) (iw it : Z) :
  (length (snd (fst (fst (len_skip_questions ws ts iw it)))) <= length ts)%nat.
Proof.
  revert ts iw it; induction ws as [|c ws IH]; intros ts iw it; simpl; [lia|].
  destruct (c =? QUESTION); simpl; [|lia].
  specialize (IH (tl ts) (iw + 1)%Z (it + 1)%Z); destruct ts; simpl in *; lia.
Qed.

Lemma len_retry_settled (gas : nat) (wild ts : ptr) (i len : Z) :
  (length ts < gas)%nat ->
  settled (fun ti => (length (fst ti) < length ts)%nat \/ rd (fst ti) 0 = 0)
          (len_retry gas wild ts i len).
Proof.
  revert ts i; induction gas as [|gas IH]; intros ts i Hg; [lia|].
  cbn [len_retry]; unfold CodePointAdvanceAndCompare.
  set (ts' := skipn (advance_step ts) ts).
  assert (Hs : (length ts' < length ts)%nat \/ rd ts' 0 = 0).
  { destruct (N.eq_dec (rd ts 0) 0) as [E|E].
    - right; unfold ts'; rewrite (advance_step_at_zero ts E); exact E.
    - left; apply (advance_shortens ts E). }
  destruct (CodePointCompare wild ts'); [exact Hs|].
  destruct (len <=? i + 1)%Z; [exact I|]; cbn [orb].
  destruct (N.eqb_spec (rd ts' 0) 0) as [E|E]; [exact I|].
  destruct Hs as [Hs|Hs]; [|contradiction].
  eapply settled_weaken; [|apply IH; lia].
  cbv beta; intros a [H|H]; [left; lia|right; exact H].
Qed.

Lemma len_upper_loop_settled (gas : nat) (wild tame : ptr) (i lenW lenT : Z) :
  (length wild + 2 * length tame + 2 <= gas)%nat ->
  settled (fun r => (length (snd (fst (fst r))) <= length tame)%nat)
          (len_upper_loop gas wild tame i lenW lenT).
Proof.
  revert wild tame i; induction gas as [|gas IH]; intros wild tame i Hg;
    [lia|].
  cbn [len_upper_loop].
  destruct (lenT <=? i)%Z; cbn [orb].
  { destruct ((i <? lenW)%Z && nonzero (rd wild 0)); exact I. }
  destruct (N.eqb_spec (rd tame 0) 0) as [E|E].
  { destruct ((i <? lenW)%Z && nonzero (rd wild 0)); exact I. }
  destruct (lenW <=? i)%Z; [exact I|].
  destruct (rd wild 0 =? STAR).
  { eapply settled_bind; [apply len_skip_stars_advancing_settled; lia|].
    intros [wild' i'] _.
    destruct (rd wild' 0 =? 0); [exact I|].
    eapply settled_bind
      with (P := fun ti => (length (fst ti) <= length tame)%nat).
    - destruct (negb (rd wild' 0 =? QUESTION));
        [apply len_seek_settled; lia|cbn [settled fst]; lia].
    - intros [t' it'] Ht; exact Ht. }
  destruct (negb (CodePointCompare wild tame)
            && negb (rd wild 0 =? QUESTION)); [exact I|].
  pose proof (advance_shortens tame E).
  pose proof (advance_no_longer wild).
  eapply settled_weaken; [|apply IH; lia].
  cbv beta; intros; lia.
Qed.

Lemma len_lower_branch_settled (gas : nat) (lenW lenT : Z) (s : len_cursors) :
  (length (lpTameSequence s) < gas)%nat ->
  (length (lpTame s) <= length (lpTameSequence s))%nat ->
  settled (fun s' => rd (lpTame s') 0 = 0 \/
                     keeps_order (length (lpTameSequence s))
                                 (length (lpTame s))
                                 (lpTameSequence s') (lpTame s'))
          (len_lower_branch gas lenW lenT s).
Proof.
  intros Hg Hinv; unfold len_lower_branch.
  destruct (rd (lpWild s) 0 =? STAR).
  { eapply settled_bind; [apply len_skip_stars_settled|].
    intros [wild' i'] _.
    destruct ((lenW <=? i')%Z || (rd wild' 0 =? 0)); [exact I|].
    destruct ((lenT <=? iTame s)%Z || (rd (lpTame s) 0 =? 0)); [exact I|].
    eapply settled_bind
      with (P := fun ti => (length (fst ti) <= length (lpTame s))%nat).
    - destruct (negb (rd wild' 0 =? QUESTION));
        [apply len_seek_settled; lia|cbn [settled fst]; lia].
    - intros [t' it'] Ht; right; unfold keeps_order.
      cbn [lpTame lpTameSequence fst] in *; lia. }
  destruct (negb (CodePointCompare (lpWild s) (lpTame s))
            && negb (rd (lpWild s) 0 =? QUESTION)).
  - destruct ((lenT <=? iTame s)%Z || (rd (lpTame s) 0 =? 0)); [exact I|].
    pose proof (len_skip_questions_no_longer
                  (lpWildSequence s) (lpTameSequence s)
                  (iWildSequence s) (iTameSequence s)) as Hq.
    destruct (len_skip_questions (lpWildSequence s) (lpTameSequence s)
                                 (iWildSequence s) (iTameSequence s))
      as [[[ws' ts'] iw'] it'].
    cbn [fst snd] in Hq.
    eapply settled_bind; [apply len_retry_settled; lia|].
    intros [ts'' it''] [Hlt|Hz]; cbn [settled lpTame lpTameSequence fst] in *;
      [right; unfold keeps_order; lia|left; exact Hz].
  - right; unfold keeps_order; lia.
Qed.

Lemma len_lower_loop_settled (gas : nat) (lenW lenT : Z) (s : len_cursors) :
  (length (lpTame s) <= length (lpTameSequence s))%nat ->
  (length (lpTameSequence s) * (length (lpTameSequence s) + 1)
   + length (lpTame s) + length (lpTameSequence s) + 2 <= gas)%nat ->
  settled (fun _ => False) (len_lower_loop gas lenW lenT s).
Proof.
  revert s; induction gas as [|gas IH]; intros s Hinv Hg; [lia|].
  cbn [len_lower_loop].
  eapply settled_bind; [apply len_lower_branch_settled; [nia|exact Hinv]|].
  intros s' Hs'; cbv beta in Hs'.
  destruct (lenT <=? iTame s')%Z; [exact I|]; cbn [orb].
  destruct (N.eqb_spec (rd (lpTame s') 0) 0) as [E|E]; [exact I|].
  destruct Hs' as [Hz|(H1 & H2 & H3)]; [contradiction|].
  pose proof (advance_shortens (lpTame s') E) as Hsh.
  apply IH; cbn [lpTame lpTameSequence]; [lia|].
  destruct (Nat.eq_dec (length (lpTameSequence s'))
                       (length (lpTameSequence s))) as [Eq|Ne].
  - specialize (H3 Eq); rewrite Eq; lia.
  - nia.
Qed.

Lemma FastWildLenCompareUtf8_gas_settled (gas : nat) (wild tame : ptr)
    (lenW lenT : Z) :
  (gas_for wild tame <= gas)%nat ->
  exists b, FastWildLenCompareUtf8_gas gas wild tame lenW lenT = Some b.
Proof.
  intros Hg; unfold gas_for in Hg.
  apply settled_verdict.
  eapply settled_bind; [apply len_upper_loop_settled; nia|].
  intros [[[w t] iw] it] Ht; cbn [fst snd] in *.
  apply len_lower_loop_settled; cbn [lpTame lpTameSequence]; [lia|nia].
Qed.

(** ** More gas changes no verdict *)

Lemma refines_refl {A : Type} (o : outcome A) : refines o o.
Proof. right; reflexivity. Qed.

Lemma refines_bind {A B : Type} (o o' : outcome A) (k k' : A -> outcome B) :
  refines o o' -> (forall a, refines (k a) (k' a)) ->
  refines (bind o k) (bind o' k').
Proof.
  intros [->| ->] Hk; [left; reflexivity|].
  destruct o' as [b|a|]; simpl;
    [apply refines_refl|apply Hk|apply refines_refl].
Qed.

Lemma refines_verdict {A : Type} (o o' : outcome A) (b : bool) :
  refines o o' -> verdict_of o = Some b -> verdict_of o' = Some b.
Proof. intros [->| ->]; [discriminate|auto]. Qed.

Ltac refines_step IH :=
  first
    [ apply refines_refl
    | apply IH; lia
    | match goal with
      | |- refines (if ?c then _ else _) (if ?c then _ else _) => destruct c
      | |- refines (let (_, _) := ?x in _) (let (_, _) := ?x in _) =>
          destruct x
      | |- refines (bind _ _) (bind _ _) => apply refines_bind; [|intros ?]
      end ].

Ltac refines_loop loop :=
  let IH := fresh "IH" in
  let gas := fresh "gas" in
  let gas' := fresh "gas'" in
  intros gas; induction gas as [|gas IH]; intros gas';
  [intros; left; reflexivity|];
  destruct gas' as [|gas']; [intros; lia|]; intros;
  cbn [loop]; repeat refines_step IH.

Lemma skip_stars_advancing_more_gas :
  forall gas gas' wild, (gas <= gas')%nat ->
    refines (skip_stars_advancing gas wild) (skip_stars_advancing gas' wild).
Proof. refines_loop skip_stars_advancing. Qed.

Lemma seek_more_gas :
  forall gas gas' wild tame, (gas <= gas')%nat ->
    refines (seek gas wild tame) (seek gas' wild tame).
Proof. refines_loop seek. Qed.

Lemma retry_more_gas :
  forall gas gas' wild ts, (gas <= gas')%nat ->
    refines (retry gas wild ts) (retry gas' wild ts).
Proof. refines_loop retry. Qed.

Lemma upper_loop_more_gas :
  forall gas gas' wild tame, (gas <= gas')%nat ->
    refines (upper_loop gas wild tame) (upper_loop gas' wild tame).
Proof.
  refines_loop upper_loop;
    first [apply skip_stars_advancing_more_gas | apply seek_more_gas]; lia.
Qed.

Lemma lower_branch_more_gas (gas gas' : nat) (s : cursors) :
  (gas <= gas')%nat -> refines (lower_branch gas s) (lower_branch gas' s).
Proof.
  intros Hg; unfold lower_branch.
  repeat first [ refines_step Hg
               | apply seek_more_gas; exact Hg
               | apply retry_more_gas; exact Hg ].
Qed.

Lemma lower_loop_more_gas :
  forall gas gas' s, (gas <= gas')%nat ->
    refines (lower_loop gas s) (lower_loop gas' s).
Proof.
  refines_loop lower_loop; apply lower_branch_more_gas; lia.
Qed.

Lemma FastWildCompareUtf8_more_gas (gas gas' : nat) (wild tame : ptr)
    (b : bool) :
  (gas <= gas')%nat ->
  FastWildCompareUtf8_gas gas wild tame = Some b ->
  FastWildCompareUtf8_gas gas' wild tame = Some b.
Proof.
  intros Hg; apply refines_verdict.
  apply refines_bind; [apply upper_loop_more_gas; exact Hg|].
  intros wt; apply lower_loop_more_gas; exact Hg.
Qed.

Lemma len_skip_stars_advancing_more_gas :
  forall gas gas' wild i len, (gas <= gas')%nat ->
    refines (len_skip_stars_advancing gas wild i len)
            (len_skip_stars_advancing gas' wild i len).
Proof. refines_loop len_skip_stars_advancing. Qed.

Lemma len_seek_more_gas :
  forall gas gas' wild tame i, (gas <= gas')%nat ->
    refines (len_seek gas wild tame i) (len_seek gas' wild tame i).
Proof. refines_loop len_seek. Qed.

Lemma len_retry_more_gas :
  forall gas gas' wild ts i len, (gas <= gas')%nat ->
    refines (len_retry gas wild ts i len) (len_retry gas' wild ts i len).
Proof. refines_loop len_retry. Qed.

Lemma len_upper_loop_more_gas :
  forall gas gas' wild tame i lenW lenT, (gas <= gas')%nat ->
    refines (len_upper_loop gas wild tame i lenW lenT)
            (len_upper_loop gas' wild tame i lenW lenT).
Proof.
  refines_loop len_upper_loop;
    first [apply len_skip_stars_advancing_more_gas | apply len_seek_more_gas];
    lia.
Qed.

Lemma len_lower_branch_more_gas (gas gas' : nat) (lenW lenT : Z)
    (s : len_cursors) :
  (gas <= gas')%nat ->
  refines (len_lower_branch gas lenW lenT s)
          (len_lower_branch gas' lenW lenT s).
Proof.
  intros Hg; unfold len_lower_branch.
  repeat first [ refines_step Hg
               | apply len_seek_more_gas; exact Hg
               | apply len_retry_more_gas; exact Hg ].
Qed.

Lemma len_lower_loop_more_gas :
  forall gas gas' lenW lenT s, (gas <= gas')%nat ->
    refines (len_lower_loop gas lenW lenT s) (len_lower_loop gas' lenW lenT s).
Proof.
  refines_loop len_lower_loop; apply len_lower_branch_more_gas; lia.
Qed.

Lemma FastWildLenCompareUtf8_more_gas (gas gas' : nat) (wild tame : ptr)
    (lenW lenT : Z) (b : bool) :
  (gas <= gas')%nat ->
  FastWildLenCompareUtf8_gas gas wild tame lenW lenT = Some b ->
  FastWildLenCompareUtf8_gas gas' wild tame lenW lenT = Some b.
Proof.
  intros Hg; apply refines_verdict.
  apply refines_bind; [apply len_upper_loop_more_gas; exact Hg|].
  intros [[[w t] iw] it]; apply len_lower_loop_more_gas; exact Hg.
Qed.

(** C7: both matchers reach a verdict on every pair of strings and for
    every pair of limits: each loop is left after finitely many passes.
    The gas [gas_for] is enough, and with any larger amount of gas the
    verdict is the same. *)
Theorem matchers_terminate (wild tame : ptr) (lenWild lenTame : Z) :
  exists b b' : bool,
    FastWildCompareUtf8 wild tame = Some b /\
    FastWildLenCompareUtf8 wild tame lenWild lenTame = Some b' /\
    forall extra : nat,
      FastWildCompareUtf8_gas (gas_for wild tame + extra) wild tame = Some b /\
      FastWildLenCompareUtf8_gas (gas_for wild tame + extra) wild tame
                                 lenWild lenTame = Some b'.
Proof.
  destruct (FastWildCompareUtf8_gas_settled (gas_for wild tame) wild tame)
    as [b Hb]; [lia|].
  destruct (FastWildLenCompareUtf8_gas_settled (gas_for wild tame) wild tame
              lenWild lenTame) as [b' Hb']; [lia|].
  exists b, b'; split; [exact Hb|split; [exact Hb'|]].
  intros extra; split.
  - apply (FastWildCompareUtf8_more_gas (gas_for wild tame)); [lia|exact Hb].
  - apply (FastWildLenCompareUtf8_more_gas (gas_for wild tame));
      [lia|exact Hb'].
Qed.

(** ** Strings of single bytes: the two matchers agree *)

Lemma single_byte_cons (b : N) (s : ptr) :
  single_byte (b :: s) = true <->
  (b <> 0 /\ b <= SINGLETON_LIMIT) /\ single_byte s = true.
Proof.
  unfold single_byte; simpl.
  rewrite !andb_true_iff, nonzero_true, N.leb_le; reflexivity.
Qed.

Lemma single_byte_skipn (s : ptr) (k : nat) :
  single_byte s = true -> single_byte (skipn k s) = true.
Proof.
  revert k; induction s as [|b s IH]; intros [|k] Hs; try assumption.
  simpl; apply IH; apply single_byte_cons in Hs; tauto.
Qed.

Lemma single_byte_tl (s : ptr) :
  single_byte s = true -> single_byte (tl s) = true.
Proof.
  destruct s as [|b s]; [auto|].
  intros H; apply single_byte_cons in H; tauto.
Qed.

Lemma single_byte_rd_0 (s : ptr) :
  single_byte s = true -> (rd s 0 = 0 <-> s = []).
Proof.
  destruct s as [|b s]; intros H; [split; reflexivity|].
  apply single_byte_cons in H; rewrite rd_cons_0; split; [tauto|discriminate].
Qed.

Lemma advance_single_byte (s : ptr) :
  single_byte s = true ->
  CodePointAdvance s = (tl s, nonzero (rd (tl s) 0)).
Proof.
  intros Hs; unfold CodePointAdvance.
  assert (E : skipn (advance_step s) s = tl s).
  { destruct s as [|b s]; [reflexivity|].
    apply single_byte_cons in Hs; destruct Hs as [[Hb Hle] _].
    unfold advance_step; rewrite rd_cons_0.
    destruct (N.ltb_spec 0 b); [|lia].
    destruct (N.ltb_spec SINGLETON_LIMIT b); [lia|].
    destruct (N.ltb_spec TWOFER_LIMIT b); [limits; lia|].
    destruct (N.ltb_spec THREESOME_LIMIT b); [limits; lia|].
    reflexivity. }
  rewrite E; reflexivity.
Qed.

Lemma length_tl_nonempty (s : ptr) :
  rd s 0 <> 0 -> Z.of_nat (length (tl s)) = (Z.of_nat (length s) - 1)%Z.
Proof.
  destruct s as [|b s]; [rewrite rd_nil; congruence|simpl length; lia].
Qed.

Lemma tl_skipn (k : nat) (s : ptr) : tl (skipn k s) = skipn (S k) s.
Proof.
  revert s; induction k as [|k IH]; intros [|b s]; try reflexivity.
  simpl; rewrite IH; destruct s; reflexivity.
Qed.

Lemma sim_bind {A B A' B' : Type} (R : A -> B -> Prop) (Q : A' -> B' -> Prop)
    (o : outcome A) (lo : outcome B)
    (k : A -> outcome A') (lk : B -> outcome B') :
  sim R o lo -> (forall a b, R a b -> sim Q (k a) (lk b)) ->
  sim Q (bind o k) (bind lo lk).
Proof.
  destruct o, lo; simpl; try contradiction; auto.
Qed.

Lemma sim_verdict {A B : Type} (R : A -> B -> Prop)
    (o : outcome A) (lo : outcome B) :
  sim R o lo -> verdict_of lo = verdict_of o.
Proof.
  destruct o, lo; simpl; try contradiction; intros; subst; reflexivity.
Qed.

Lemma count_loop_single_byte (gas : nat) (p : ptr) (i : Z) :
  (length p < gas)%nat -> single_byte p = true ->
  count_loop gas p i = Some (i + Z.of_nat (length (tl p)))%Z.
Proof.
  revert p i; induction gas as [|gas IH]; intros p i Hg Hs; [lia|].
  cbn [count_loop]; rewrite (advance_single_byte p Hs).
  pose proof (single_byte_tl p Hs) as Ht.
  destruct (nonzero (rd (tl p) 0)) eqn:E.
  - apply nonzero_true in E.
    assert (Hlt : (length (tl p) < gas)%nat).
    { destruct p as [|b p]; [rewrite rd_nil in E; congruence|].
      simpl in Hg; simpl tl; lia. }
    rewrite (IH _ _ Hlt Ht), (length_tl_nonempty _ E); f_equal; lia.
  - apply nonzero_false in E; apply (single_byte_rd_0 _ Ht) in E.
    rewrite E; simpl; f_equal; lia.
Qed.

(** On a string of single bytes [CodePointCount] is the length. *)
Lemma CodePointCount_single_byte (p : ptr) :
  single_byte p = true -> CodePointCount p = Some (Z.of_nat (length p)).
Proof.
  intros Hs; unfold CodePointCount, CodePointCount_gas.
  rewrite count_loop_single_byte; [|lia|exact Hs].
  destruct p as [|b p]; [reflexivity|].
  apply single_byte_cons in Hs; destruct Hs as [[Hb _] _].
  rewrite rd_cons_0; destruct (N.ltb_spec 0 b); [|lia].
  simpl tl; simpl length; f_equal; lia.
Qed.

Section SingleByteLimits.

Variables lenWild lenTame : Z.

Lemma index_of_below (len : Z) (p : ptr) (i : Z) :
  index_of len p i -> index_below len p i.
Proof. unfold index_of, index_below; lia. Qed.

Lemma index_below_end (len : Z) (p : ptr) (i : Z) :
  single_byte p = true -> index_below len p i ->
  (len <=? i)%Z || (rd p 0 =? 0) = (rd p 0 =? 0).
Proof.
  intros Hs Hi; unfold index_below in Hi.
  destruct (N.eqb_spec (rd p 0) 0) as [E|E]; [apply orb_true_r|].
  rewrite (single_byte_rd_0 p Hs) in E.
  destruct p as [|b p]; [contradiction|simpl length in Hi].
  destruct (Z.leb_spec len i); [lia|reflexivity].
Qed.

Lemma index_of_end (len : Z) (p : ptr) (i : Z) :
  single_byte p = true -> index_of len p i ->
  (len <=? i)%Z = (rd p 0 =? 0).
Proof.
  intros Hs Hi; unfold index_of in Hi.
  destruct p as [|b p].
  - rewrite rd_nil; simpl in *; destruct (Z.leb_spec len i); [reflexivity|lia].
  - apply single_byte_cons in Hs; destruct Hs as [[Hb _] _].
    rewrite rd_cons_0; simpl length in Hi.
    destruct (N.eqb_spec b 0); [contradiction|].
    destruct (Z.leb_spec len i); [lia|reflexivity].
Qed.

Lemma index_of_tl (len : Z) (p : ptr) (i : Z) :
  rd p 0 <> 0 -> index_of len p i -> index_of len (tl p) (i + 1).
Proof.
  unfold index_of; intros Hp ->; rewrite (length_tl_nonempty p Hp); lia.
Qed.

Lemma index_below_tl (len : Z) (p : ptr) (i : Z) :
  rd p 0 <> 0 -> index_below len p i -> index_below len (tl p) (i + 1).
Proof.
  unfold index_below; intros Hp Hi; rewrite (length_tl_nonempty p Hp); lia.
Qed.

Lemma index_below_tl_same (len : Z) (p : ptr) (i : Z) :
  index_below len p i -> index_below len (tl p) i.
Proof.
  unfold index_below; intros Hi; destruct p; simpl tl; simpl length in *; lia.
Qed.

Lemma len_only_stars_left_single_byte (w : ptr) (i : Z) :
  single_byte w = true -> index_of lenWild w i ->
  len_only_stars_left w i lenWild = only_stars_left w.
Proof.
  revert i; induction w as [|c w IH]; intros i Hs Hi; [reflexivity|].
  apply single_byte_cons in Hs as Hc; destruct Hc as [[Hc _] Hw].
  cbn [len_only_stars_left only_stars_left].
  destruct (c =? STAR); [|reflexivity].
  assert (Hi' : index_of lenWild w (i + 1)).
  { apply (index_of_tl _ (c :: w)); [rewrite rd_cons_0; exact Hc|exact Hi]. }
  rewrite (index_of_end _ _ _ Hw Hi'), (IH _ Hw Hi'); reflexivity.
Qed.

Lemma len_skip_stars_advancing_sim (gas : nat) (w : ptr) (i : Z) :
  single_byte w = true -> index_of lenWild w i ->
  sim (fun w' wi => fst wi = w' /\ single_byte w' = true /\
                    (rd w' 0 <> 0 -> index_of lenWild w' (snd wi)))
      (skip_stars_advancing gas w)
      (len_skip_stars_advancing gas w i lenWild).
Proof.
  revert w i; induction gas as [|gas IH]; intros w i Hs Hi; [exact I|].
  cbn [skip_stars_advancing len_skip_stars_advancing].
  rewrite (advance_single_byte w Hs).
  pose proof (single_byte_tl w Hs) as Ht.
  destruct (nonzero (rd (tl w) 0)) eqn:E; cbn [andb].
  - apply nonzero_true in E.
    assert (Hw : rd w 0 <> 0).
    { destruct w as [|b w]; [rewrite rd_nil in E; congruence|].
      apply single_byte_cons in Hs; rewrite rd_cons_0; tauto. }
    pose proof (index_of_tl _ _ _ Hw Hi) as Hi'.
    pose proof (index_of_end _ _ _ Ht Hi') as He.
    replace (i + 1 <? lenWild)%Z with true.
    2:{ rewrite Z.ltb_antisym, He.
        destruct (N.eqb_spec (rd (tl w) 0) 0); [contradiction|reflexivity]. }
    rewrite andb_true_r.
    destruct (rd (tl w) 0 =? STAR); [apply IH; assumption|].
    cbn [sim fst snd]; auto.
  - apply nonzero_false in E.
    cbn [sim fst snd]; repeat split; [exact Ht|congruence].
Qed.

Lemma len_seek_sim (gas : nat) (w t : ptr) (i : Z) :
  single_byte t = true -> index_below lenTame t i ->
  sim (fun t' ti => fst ti = t' /\ single_byte t' = true /\
                    index_below lenTame t' (snd ti))
      (seek gas w t) (len_seek gas w t i).
Proof.
  revert t i; induction gas as [|gas IH]; intros t i Hs Hi; [exact I|].
  cbn [seek len_seek].
  destruct (CodePointCompare w t); [cbn [sim fst snd]; auto|].
  rewrite (advance_single_byte t Hs).
  pose proof (single_byte_tl t Hs) as Ht.
  destruct (nonzero (rd (tl t) 0)) eqn:E; [|reflexivity].
  apply nonzero_true in E.
  apply IH; [exact Ht|].
  apply index_below_tl; [|exact Hi].
  destruct t as [|b t]; [rewrite rd_nil in E; congruence|].
  apply single_byte_cons in Hs; rewrite rd_cons_0; tauto.
Qed.

Lemma len_skip_stars_sim (w : ptr) (i : Z) :
  single_byte w = true -> index_of lenWild w i ->
  match len_skip_stars w i lenWild with
  | Return b => b = true /\ rd (skip_stars w) 0 = 0
  | Proceed wi => fst wi = skip_stars w /\
                  index_of lenWild (skip_stars w) (snd wi)
  | OutOfGas => False
  end.
Proof.
  revert i; induction w as [|c w IH]; intros i Hs Hi;
    [cbn; auto|].
  apply single_byte_cons in Hs as Hc; destruct Hc as [[Hc _] Hw].
  cbn [len_skip_stars skip_stars].
  destruct (c =? STAR); [|cbn; auto].
  assert (Hi' : index_of lenWild w (i + 1)).
  { apply (index_of_tl _ (c :: w)); [rewrite rd_cons_0; exact Hc|exact Hi]. }
  rewrite (index_of_end _ _ _ Hw Hi').
  destruct (N.eqb_spec (rd w 0) 0) as [E|E]; [|apply IH; assumption].
  apply (single_byte_rd_0 _ Hw) in E; subst w; cbn; auto.
Qed.

Lemma skip_questions_prefix (ws ts : ptr) (k : nat) :
  rd (skipn k ws) 0 <> QUESTION ->
  exists j, (j <= k)%nat /\ (j <= length ws)%nat /\
            skip_questions ws ts = (skipn j ws, skipn j ts).
Proof.
  revert ts k; induction ws as [|c ws IH]; intros ts k Hk.
  - exists 0%nat; repeat split; lia.
  - cbn [skip_questions].
    destruct (N.eqb_spec c QUESTION) as [E|E].
    + destruct k as [|k]; [exfalso; apply Hk; rewrite E; reflexivity|].
      destruct (IH (tl ts) k Hk) as (j & Hj & Hl & ->).
      exists (S j); repeat split; [lia|simpl; lia|].
      destruct ts; [rewrite !skipn_nil|]; reflexivity.
    + exists 0%nat; repeat split; lia.
Qed.

Lemma len_skip_questions_counts (ws ts : ptr) (iw it : Z) :
  len_skip_questions ws ts iw it
  = (fst (skip_questions ws ts), snd (skip_questions ws ts),
     iw + (Z.of_nat (length ws)
           - Z.of_nat (length (fst (skip_questions ws ts)))),
     it + (Z.of_nat (length ws)
           - Z.of_nat (length (fst (skip_questions ws ts)))))%Z.
Proof.
  revert ts iw it; induction ws as [|c ws IH]; intros ts iw it.
  - cbn; f_equal; [f_equal|]; lia.
  - cbn [len_skip_questions skip_questions].
    destruct (c =? QUESTION).
    + rewrite IH; simpl length; f_equal; [f_equal|]; lia.
    + cbn [fst snd]; f_equal; [f_equal|]; lia.
Qed.

Lemma len_retry_sim (gas : nat) (w ts : ptr) (i : Z) :
  single_byte ts = true -> index_below lenTame ts i ->
  sim (fun ts' ti => fst ti = ts' /\ single_byte ts' = true /\
                     index_below lenTame ts' (snd ti) /\
                     CodePointCompare w ts' = true)
      (retry gas w ts) (len_retry gas w ts i lenTame).
Proof.
  revert ts i; induction gas as [|gas IH]; intros ts i Hs Hi; [exact I|].
  cbn [retry len_retry]; unfold CodePointAdvanceAndCompare.
  pose proof (advance_single_byte ts Hs) as Ha.
  unfold CodePointAdvance in Ha; injection Ha as Ha _; rewrite Ha.
  pose proof (single_byte_tl ts Hs) as Ht.
  pose proof (index_below_tl_same _ _ _ Hi) as Hi'.
  destruct (CodePointCompare w (tl ts)) eqn:Ec;
    [cbn [sim fst snd]; auto|].
  destruct (N.eqb_spec (rd (tl ts) 0) 0) as [E|E];
    [rewrite orb_true_r; reflexivity|].
  assert (Hw : rd ts 0 <> 0).
  { destruct ts as [|b ts]; [rewrite rd_nil in E; congruence|].
    apply single_byte_cons in Hs; rewrite rd_cons_0; tauto. }
  pose proof (index_below_tl _ _ _ Hw Hi) as Hi1.
  pose proof (index_below_end _ _ _ Ht Hi1) as He.
  destruct (N.eqb_spec (rd (tl ts) 0) 0) as [E'|_]; [contradiction|].
  rewrite orb_false_r in He |- *; rewrite He.
  apply IH; assumption.
Qed.

Lemma CodePointCompare_first (a b : ptr) :
  CodePointCompare a b = true -> rd a 0 = rd b 0.
Proof.
  intros H; rewrite CodePointCompare_spec in H.
  apply H; apply nominal_width_positive.
Qed.

Lemma len_upper_loop_sim (gas : nat) (w t : ptr) (i : Z) :
  single_byte w = true -> single_byte t = true ->
  index_of lenWild w i -> index_below lenTame t i ->
  sim (fun wt r =>
         fst (fst (fst r)) = fst wt /\ snd (fst (fst r)) = snd wt /\
         single_byte (fst wt) = true /\ single_byte (snd wt) = true /\
         index_of lenWild (fst wt) (snd (fst r)) /\
         index_below lenTame (snd wt) (snd r))
      (upper_loop gas w t) (len_upper_loop gas w t i lenWild lenTame).
Proof.
  revert w t i; induction gas as [|gas IH]; intros w t i Hw Ht Hiw Hit;
    [exact I|].
  cbn [upper_loop len_upper_loop].
  rewrite (index_below_end _ _ _ Ht Hit).
  pose proof (index_of_end _ _ _ Hw Hiw) as Hend.
  destruct (N.eqb_spec (rd t 0) 0) as [Et|Et].
  { rewrite Z.ltb_antisym, Hend; unfold nonzero.
    destruct (rd w 0 =? 0); cbn [negb andb]; [reflexivity|].
    rewrite (len_only_stars_left_single_byte _ _ Hw Hiw); reflexivity. }
  rewrite Hend.
  destruct (N.eqb_spec (rd w 0) 0) as [Ew|Ew].
  { rewrite Ew; change (0 =? STAR) with false; cbv iota.
    destruct (CodePointCompare w t) eqn:Ec; [|reflexivity].
    apply CodePointCompare_first in Ec; congruence. }
  destruct (rd w 0 =? STAR).
  { eapply sim_bind; [apply len_skip_stars_advancing_sim; assumption|].
    intros w' [w'' i'] (E1 & Hw' & Hi'); cbn [fst snd] in *; subst w''.
    destruct (N.eqb_spec (rd w' 0) 0) as [Ez|Ez]; [reflexivity|].
    specialize (Hi' Ez).
    eapply sim_bind
      with (R := fun t' ti => fst ti = t' /\ single_byte t' = true /\
                              index_below lenTame t' (snd ti)).
    - destruct (negb (rd w' 0 =? QUESTION)).
      + apply len_seek_sim; assumption.
      + cbn [sim fst snd]; repeat split; assumption.
    - intros t' [t'' it'] (E2 & Ht' & Hit'); cbn [fst snd] in *; subst t''.
      cbn [sim fst snd]; repeat split; assumption. }
  destruct (negb (CodePointCompare w t) && negb (rd w 0 =? QUESTION));
    [reflexivity|].
  rewrite (advance_single_byte w Hw), (advance_single_byte t Ht).
  cbn [fst]; apply IH.
  - apply single_byte_tl; assumption.
  - apply single_byte_tl; assumption.
  - apply index_of_tl; assumption.
  - apply index_below_tl; assumption.
Qed.

Lemma len_lower_branch_sim (gas : nat) (s : cursors) (ls : len_cursors) :
  in_step lenWild lenTame s ls ->
  sim (fun s' ls' => in_step lenWild lenTame s' ls' /\
                     (rd (pTame s') 0 <> 0 -> rd (pWild s') 0 <> 0))
      (lower_branch gas s) (len_lower_branch gas lenWild lenTame ls).
Proof.
  destruct s as [w t ws ts], ls as [lw lt iw it lws lts iws its].
  intros Hin; pose proof Hin as Hin0; revert Hin0.
  unfold in_step at 1; cbn [pWild pTame pWildSequence pTameSequence
    lpWild lpTame lpWildSequence lpTameSequence
    iWild iTame iWildSequence iTameSequence].
  intros (-> & -> & -> & -> & Hws & Hts & Hiw & Hit & Hiws & Hits
          & k & Hk1 & Hk2).
  assert (Hw : single_byte w = true)
    by (rewrite Hk1; apply single_byte_skipn; exact Hws).
  assert (Ht : single_byte t = true)
    by (rewrite Hk2; apply single_byte_skipn; exact Hts).
  unfold lower_branch, len_lower_branch;
    cbn [pWild pTame pWildSequence pTameSequence
         lpWild lpTame lpWildSequence lpTameSequence
         iWild iTame iWildSequence iTameSequence].
  rewrite (index_below_end _ _ _ Ht Hit).
  destruct (N.eqb_spec (rd w 0) STAR) as [Es|Es].
  { assert (Hnz : rd w 0 <> 0) by (rewrite Es; discriminate).
    pose proof (len_skip_stars_sim (tl w) (iw + 1)
                  (single_byte_tl _ Hw) (index_of_tl _ _ _ Hnz Hiw)) as Hsk.
    assert (Hsw : single_byte (skip_stars (tl w)) = true).
    { clear -Hw; apply single_byte_tl in Hw.
      induction (tl w) as [|c l IHl]; [reflexivity|].
      simpl; destruct (c =? STAR); [|exact Hw].
      apply IHl; apply single_byte_cons in Hw; tauto. }
    destruct (len_skip_stars (tl w) (iw + 1) lenWild) as [b|[w' i']|];
      [| |contradiction].
    - destruct Hsk as [-> Hz]; cbn [bind].
      rewrite Hz; reflexivity.
    - cbn [fst snd] in Hsk; destruct Hsk as [-> Hi']; cbn [bind].
      rewrite (index_below_end _ _ _ Hsw (index_of_below _ _ _ Hi')).
      destruct (N.eqb_spec (rd (skip_stars (tl w)) 0) 0) as [Ez|Ez];
        [reflexivity|].
      destruct (rd t 0 =? 0); [reflexivity|].
      eapply sim_bind
        with (R := fun t' ti => fst ti = t' /\ single_byte t' = true /\
                                index_below lenTame t' (snd ti)).
      + destruct (negb (rd (skip_stars (tl w)) 0 =? QUESTION));
          [apply len_seek_sim; assumption|cbn [sim fst snd]; auto].
      + intros t' [t'' it'] (E2 & Ht' & Hit'); cbn [fst snd] in *; subst t''.
        cbn [sim]; split; [|cbn [pWild]; auto].
        unfold in_step; cbn [pWild pTame pWildSequence pTameSequence
          lpWild lpTame lpWildSequence lpTameSequence
          iWild iTame iWildSequence iTameSequence].
        repeat split; try assumption.
        exists 0%nat; split; reflexivity. }
  destruct (CodePointCompare w t) eqn:Ec; cbn [negb andb].
  { cbn [sim]; split; [exact Hin|cbn [pWild pTame]].
    apply CodePointCompare_first in Ec; congruence. }
  destruct (N.eqb_spec (rd w 0) QUESTION) as [Eq|Eq]; cbn [negb].
  { cbn [sim]; split; [exact Hin|cbn [pWild pTame]].
    intros _; rewrite Eq; discriminate. }
  destruct (N.eqb_spec (rd t 0) 0) as [Et|Et]; [reflexivity|].
  rewrite Hk1 in Eq.
  destruct (skip_questions_prefix ws ts k Eq) as (j & Hjk & Hjw & Hsq).
  rewrite len_skip_questions_counts, Hsq; cbn [fst snd].
  assert (Hkt : (k < length ts)%nat).
  { destruct (Nat.lt_ge_cases k (length ts)) as [H|H]; [exact H|].
    rewrite Hk2, skipn_all2, rd_nil in Et by exact H; congruence. }
  assert (Hiws' : index_of lenWild (skipn j ws)
                    (iws + (Z.of_nat (length ws)
                            - Z.of_nat (length (skipn j ws))))).
  { unfold index_of in *; lia. }
  assert (Hits' : index_below lenTame (skipn j ts)
                    (its + (Z.of_nat (length ws)
                            - Z.of_nat (length (skipn j ws))))).
  { unfold index_below in *; rewrite !length_skipn; lia. }
  eapply sim_bind;
    [apply len_retry_sim;
       [apply single_byte_skipn; exact Hts|exact Hits']|].
  intros ts' [ts'' it'] (E2 & Hts' & Hit' & Hc); cbn [fst snd] in *;
    subst ts''.
  cbn [sim]; split.
  - unfold in_step; cbn [pWild pTame pWildSequence pTameSequence
      lpWild lpTame lpWildSequence lpTameSequence
      iWild iTame iWildSequence iTameSequence].
    repeat split; try assumption;
      [apply single_byte_skipn; exact Hws|].
    exists 0%nat; split; reflexivity.
  - cbn [pWild pTame]; apply CodePointCompare_first in Hc; congruence.
Qed.

Lemma len_lower_loop_sim (gas : nat) (s : cursors) (ls : len_cursors) :
  in_step lenWild lenTame s ls ->
  sim (fun _ _ => True)
      (lower_loop gas s) (len_lower_loop gas lenWild lenTame ls).
Proof.
  revert s ls; induction gas as [|gas IH]; intros s ls Hin; [exact I|].
  cbn [lower_loop len_lower_loop].
  eapply sim_bind; [apply len_lower_branch_sim; exact Hin|].
  clear s ls Hin.
  intros [w t ws ts] [lw lt iw it lws lts iws its] [Hin Hnz].
  unfold in_step in Hin;
    cbn [pWild pTame pWildSequence pTameSequence
         lpWild lpTame lpWildSequence lpTameSequence
         iWild iTame iWildSequence iTameSequence] in *.
  destruct Hin as (-> & -> & -> & -> & Hws & Hts & Hiw & Hit & Hiws & Hits
                   & k & Hk1 & Hk2).
  assert (Hw : single_byte w = true)
    by (rewrite Hk1; apply single_byte_skipn; exact Hws).
  assert (Ht : single_byte t = true)
    by (rewrite Hk2; apply single_byte_skipn; exact Hts).
  rewrite (index_below_end _ _ _ Ht Hit).
  rewrite (index_below_end _ _ _ Hw (index_of_below _ _ _ Hiw)).
  destruct (N.eqb_spec (rd t 0) 0) as [Et|Et]; [reflexivity|].
  specialize (Hnz Et).
  rewrite (advance_single_byte w Hw), (advance_single_byte t Ht).
  cbn [fst]; apply IH.
  unfold in_step; cbn [pWild pTame pWildSequence pTameSequence
    lpWild lpTame lpWildSequence lpTameSequence
    iWild iTame iWildSequence iTameSequence].
  repeat split; try assumption.
  - apply index_of_tl; assumption.
  - apply index_below_tl; assumption.
  - exists (S k); rewrite Hk1, Hk2, !tl_skipn; split; reflexivity.
Qed.

(** With the limit of the wild string at its length and the limit of the
    tame string at its length or beyond, the matcher with limits returns on
    strings of single bytes what the matcher for terminated strings
    returns, whatever the gas. *)
Lemma FastWildLenCompareUtf8_gas_single_byte (gas : nat) (w t : ptr) :
  single_byte w = true -> single_byte t = true ->
  lenWild = Z.of_nat (length w) -> (Z.of_nat (length t) <= lenTame)%Z ->
  FastWildLenCompareUtf8_gas gas w t lenWild lenTame
  = FastWildCompareUtf8_gas gas w t.
Proof.
  intros Hw Ht Elw Elt.
  unfold FastWildLenCompareUtf8_gas, FastWildCompareUtf8_gas.
  apply (sim_verdict (fun _ _ => True)).
  eapply sim_bind.
  - apply len_upper_loop_sim; try assumption;
      unfold index_of, index_below; lia.
  - intros [w' t'] [[[w'' t''] iw] it]; cbn [fst snd].
    intros (-> & -> & Hw' & Ht' & Hiw & Hit).
    apply len_lower_loop_sim.
    unfold in_step; cbn [pWild pTame pWildSequence pTameSequence
      lpWild lpTame lpWildSequence lpTameSequence
      iWild iTame iWildSequence iTameSequence].
    repeat split; try assumption.
    exists 0%nat; split; reflexivity.
Qed.

End SingleByteLimits.

(** On strings of single bytes the matcher with limits, called with the
    code point counts, returns what the matcher for terminated strings
    returns. *)
Lemma matchers_agree_on_single_bytes (w t : ptr) (lenW lenT : Z) :
  single_byte w = true -> single_byte t = true ->
  CodePointCount w = Some lenW -> CodePointCount t = Some lenT ->
  FastWildLenCompareUtf8 w t lenW lenT = FastWildCompareUtf8 w t.
Proof.
  intros Hw Ht Ew Et.
  rewrite (CodePointCount_single_byte w Hw) in Ew.
  rewrite (CodePointCount_single_byte t Ht) in Et.
  injection Ew as <-; injection Et as <-.
  apply FastWildLenCompareUtf8_gas_single_byte; auto; lia.
Qed.

(** ** Matching by the book *)

Lemma glob_star_unfold (p t : ptr) :
  glob (STAR :: p) t
  = glob p t || match t with [] => false | _ :: t' => glob (STAR :: p) t' end.
Proof. destruct t; reflexivity. Qed.

Lemma glob_cons (c : N) (p t : ptr) :
  c <> STAR ->
  glob (c :: p) t
  = match t with
    | [] => false
    | d :: t' => ((c =? QUESTION) || (c =? d)) && glob p t'
    end.
Proof.
  intros Hc; cbn [glob].
  destruct (N.eqb_spec c STAR); [contradiction|reflexivity].
Qed.

Lemma glob_nil (t : ptr) : glob [] t = match t with [] => true | _ => false end.
Proof. reflexivity. Qed.

Lemma glob_star_nil (t : ptr) : glob [STAR] t = true.
Proof.
  induction t as [|d t IH]; rewrite glob_star_unfold; [reflexivity|].
  rewrite IH; apply orb_true_r.
Qed.

Lemma glob_star_cons (p : ptr) (d : N) (t : ptr) :
  glob (STAR :: p) t = true -> glob (STAR :: p) (d :: t) = true.
Proof.
  intros H; rewrite glob_star_unfold, H; apply orb_true_r.
Qed.

Lemma glob_star_skipn (p : ptr) (j : nat) (t : ptr) :
  glob (STAR :: p) (skipn j t) = true -> glob (STAR :: p) t = true.
Proof.
  revert t; induction j as [|j IH]; intros t H; [exact H|].
  destruct t as [|d t]; [exact H|].
  apply glob_star_cons, IH; exact H.
Qed.

Lemma glob_star_exists (p t : ptr) :
  glob (STAR :: p) t = true -> exists i, glob p (skipn i t) = true.
Proof.
  induction t as [|d t IH]; rewrite glob_star_unfold; intros H.
  - rewrite orb_false_r in H; exists 0%nat; exact H.
  - apply orb_true_iff in H; destruct H as [H|H].
    + exists 0%nat; exact H.
    + destruct (IH H) as [i Hi]; exists (S i); exact Hi.
Qed.

Lemma glob_star_star (p t : ptr) :
  glob (STAR :: STAR :: p) t = glob (STAR :: p) t.
Proof.
  induction t as [|d t IH]; rewrite (glob_star_unfold (STAR :: p)).
  - apply orb_false_r.
  - rewrite IH.
    destruct (glob (STAR :: p) t) eqn:E; [|apply orb_false_r].
    rewrite (glob_star_cons _ _ _ E); reflexivity.
Qed.

Lemma glob_skip_stars (p t : ptr) :
  glob (STAR :: p) t = glob (STAR :: skip_stars p) t.
Proof.
  induction p as [|c p IH]; [reflexivity|].
  cbn [skip_stars].
  destruct (N.eqb_spec c STAR) as [->|_]; [|reflexivity].
  rewrite glob_star_star; exact IH.
Qed.

Lemma glob_star_question (p t : ptr) :
  glob (STAR :: QUESTION :: p) t
  = match t with [] => false | _ :: t' => glob (STAR :: p) t' end.
Proof.
  induction t as [|d t IH]; rewrite glob_star_unfold.
  - reflexivity.
  - rewrite IH, glob_cons by discriminate.
    rewrite (glob_star_unfold p t); reflexivity.
Qed.

Lemma glob_empty_tame (p : ptr) : glob p [] = forallb is_star p.
Proof.
  induction p as [|c p IH]; [reflexivity|].
  cbn [forallb]; unfold is_star at 1.
  destruct (N.eqb_spec c STAR) as [->|Hc].
  - rewrite glob_star_unfold, IH; apply orb_false_r.
  - rewrite glob_cons by exact Hc; reflexivity.
Qed.

Lemma seg_glob (seg tseg q u : ptr) :
  Forall2 seg_match seg tseg ->
  glob (seg ++ q) (tseg ++ u) = glob q u.
Proof.
  induction 1 as [|c d seg tseg [Hc Hm] _ IH]; [reflexivity|].
  cbn [app]; rewrite glob_cons by exact Hc.
  rewrite IH.
  destruct Hm as [->| ->]; [reflexivity|].
  rewrite N.eqb_refl, orb_true_r; reflexivity.
Qed.

Lemma seg_glob_inv (seg q t : ptr) :
  Forall (fun c => c <> STAR) seg ->
  glob (seg ++ q) t = true ->
  (length seg <= length t)%nat /\ glob q (skipn (length seg) t) = true.
Proof.
  intros Hs; revert t; induction Hs as [|c seg Hc _ IH]; intros t H.
  - split; [simpl; lia|exact H].
  - cbn [app] in H; rewrite glob_cons in H by exact Hc.
    destruct t as [|d t]; [discriminate|].
    apply andb_true_iff in H; destruct H as [_ H].
    destruct (IH t H) as [Hl Hg]; split; [simpl; lia|exact Hg].
Qed.

Lemma seg_match_no_star (seg tseg : ptr) :
  Forall2 seg_match seg tseg ->
  Forall (fun c => c <> STAR) seg /\ length seg = length tseg.
Proof.
  induction 1 as [|c d seg tseg [Hc _] _ [IH1 IH2]]; [split; auto|].
  split; [constructor; assumption|simpl; lia].
Qed.

(** The leftmost place where a run of the wild string with no star fits is
    as good as any. *)
Lemma glob_leftmost (seg tseg rest u : ptr) :
  Forall2 seg_match seg tseg ->
  glob (STAR :: seg ++ STAR :: rest) (tseg ++ u) = glob (STAR :: rest) u.
Proof.
  intros Hm; destruct (seg_match_no_star _ _ Hm) as [Hs Hl].
  destruct (glob (STAR :: rest) u) eqn:E.
  - rewrite glob_star_unfold, (seg_glob _ _ _ _ Hm), E; reflexivity.
  - destruct (glob (STAR :: seg ++ STAR :: rest) (tseg ++ u)) eqn:F;
      [|reflexivity].
    apply glob_star_exists in F; destruct F as [i F].
    apply (seg_glob_inv _ _ _ Hs) in F; destruct F as [_ F].
    rewrite skipn_skipn, Nat.add_comm, <- skipn_skipn in F.
    rewrite Hl, skipn_app, skipn_all, Nat.sub_diag in F; cbn [app skipn] in F.
    apply glob_star_skipn in F; congruence.
Qed.

(** A wild string with more characters that are no star than the tame string
    has characters matches at no place. *)
Lemma glob_too_short (seg tseg : ptr) (c : N) (rest : ptr) :
  Forall2 seg_match seg tseg -> c <> STAR ->
  glob (STAR :: seg ++ c :: rest) tseg = false.
Proof.
  intros Hm Hc; destruct (seg_match_no_star _ _ Hm) as [Hs Hl].
  destruct (glob (STAR :: seg ++ c :: rest) tseg) eqn:F; [|reflexivity].
  apply glob_star_exists in F; destruct F as [i F].
  assert (Hs' : Forall (fun c => c <> STAR) (seg ++ [c]))
    by (apply Forall_app; split;
        [exact Hs|constructor; [exact Hc|constructor]]).
  replace (seg ++ c :: rest) with ((seg ++ [c]) ++ rest) in F
    by (rewrite <- app_assoc; reflexivity).
  apply (seg_glob_inv _ _ _ Hs') in F; destruct F as [F _].
  rewrite length_app, length_skipn in F; simpl in F; lia.
Qed.

(** ** [FastWildCompare] decides matching *)

Lemma cstring_app (a b : ptr) :
  cstring (a ++ b) = true <-> cstring a = true /\ cstring b = true.
Proof. unfold cstring; rewrite forallb_app, andb_true_iff; reflexivity. Qed.

Lemma cstring_tl (s : ptr) : cstring s = true -> cstring (tl s) = true.
Proof. intros H; apply (cstring_skipn s 1 H). Qed.

Lemma cstring_skip_stars (s : ptr) :
  cstring s = true -> cstring (skip_stars s) = true.
Proof.
  induction s as [|c s IH]; intros H; [reflexivity|].
  cbn [skip_stars]; destruct (c =? STAR); [|exact H].
  apply IH; apply cstring_cons in H; tauto.
Qed.

Lemma skip_stars_head (s : ptr) : rd (skip_stars s) 0 <> STAR.
Proof.
  induction s as [|c s IH]; [rewrite rd_nil; discriminate|].
  cbn [skip_stars]; destruct (N.eqb_spec c STAR); [exact IH|].
  rewrite rd_cons_0; assumption.
Qed.

(** A wild string whose first character is neither a wildcard nor the
    character the tame string starts with does not match it. *)
Lemma glob_first_differs (q u : ptr) :
  cstring q = true -> cstring u = true ->
  rd q 0 <> STAR -> rd q 0 <> QUESTION -> rd q 0 <> rd u 0 ->
  glob q u = false.
Proof.
  intros Hq Hu Hs Hn Hd.
  destruct q as [|c q].
  - destruct u as [|d u]; [rewrite !rd_nil in Hd; congruence|reflexivity].
  - rewrite rd_cons_0 in *; rewrite glob_cons by exact Hs.
    destruct u as [|d u]; [reflexivity|].
    rewrite rd_cons_0 in Hd.
    destruct (N.eqb_spec c QUESTION); [contradiction|].
    destruct (N.eqb_spec c d); [contradiction|reflexivity].
Qed.

Lemma byte_seek_correct (q u : ptr) :
  cstring q = true -> cstring u = true ->
  rd q 0 <> 0 -> rd q 0 <> STAR -> rd q 0 <> QUESTION ->
  match byte_seek q u with
  | Return b => b = false /\ glob (STAR :: q) u = false
  | Proceed u' =>
      glob (STAR :: q) u = glob (STAR :: q) u' /\ rd u' 0 = rd q 0 /\
      exists m, u' = skipn m u
  | OutOfGas => False
  end.
Proof.
  intros Hq Hu H0 Hs Hn.
  assert (Hnil : glob q [] = false).
  { destruct q as [|c q]; [rewrite rd_nil in H0; congruence|].
    rewrite rd_cons_0 in Hs; rewrite glob_cons by exact Hs; reflexivity. }
  induction u as [|d u IH]; cbn [byte_seek].
  - destruct (N.eqb_spec (rd q 0) 0); [contradiction|].
    split; [reflexivity|].
    rewrite glob_star_unfold, Hnil; reflexivity.
  - apply cstring_cons in Hu as Hd; destruct Hd as [Hd Hu'].
    destruct (N.eqb_spec (rd q 0) d) as [E|E].
    + repeat split; [rewrite rd_cons_0; auto|exists 0%nat; reflexivity].
    + assert (Hf : glob q (d :: u) = false).
      { apply glob_first_differs; assumption. }
      rewrite glob_star_unfold, Hf; cbn [orb].
      destruct (N.eqb_spec (rd u 0) 0) as [Ez|Ez].
      * apply (cstring_rd_0 _ Hu') in Ez; subst u.
        split; [reflexivity|].
        rewrite glob_star_unfold, Hnil; reflexivity.
      * specialize (IH Hu').
        destruct (byte_seek q u) as [b|u'|]; [exact IH| |exact IH].
        destruct IH as (IH1 & IH2 & m & IH3).
        repeat split; [exact IH1|exact IH2|exists (S m); exact IH3].
Qed.

Lemma byte_retry_correct (q u : ptr) :
  cstring q = true -> cstring u = true ->
  rd q 0 <> STAR -> rd q 0 <> QUESTION ->
  match byte_retry q u with
  | Return b => b = false /\ glob (STAR :: q) (tl u) = false
  | Proceed u' =>
      glob (STAR :: q) (tl u) = glob (STAR :: q) u' /\ rd u' 0 = rd q 0 /\
      exists m, u' = skipn m (tl u)
  | OutOfGas => False
  end.
Proof.
  intros Hq Hu Hs Hn.
  assert (Hnil : rd q 0 <> 0 -> glob q [] = false).
  { intros H0; destruct q as [|c q]; [rewrite rd_nil in H0; congruence|].
    rewrite rd_cons_0 in Hs; rewrite glob_cons by exact Hs; reflexivity. }
  induction u as [|d u IH]; cbn [byte_retry tl].
  - destruct (N.eqb_spec (rd q 0) 0) as [E|E].
    + repeat split; [rewrite rd_nil; auto|exists 0%nat; reflexivity].
    + split; [reflexivity|].
      rewrite glob_star_unfold, (Hnil E); reflexivity.
  - apply cstring_cons in Hu as Hd; destruct Hd as [_ Hu'].
    destruct (N.eqb_spec (rd q 0) (rd u 0)) as [E|E].
    + repeat split; [auto|exists 0%nat; reflexivity].
    + assert (Hf : glob q u = false)
        by (apply glob_first_differs; assumption).
      destruct (N.eqb_spec (rd u 0) 0) as [Ez|Ez].
      * apply (cstring_rd_0 _ Hu') in Ez; subst u.
        split; [reflexivity|].
        rewrite glob_star_unfold, Hf; reflexivity.
      * specialize (IH Hu').
        assert (Hstep : glob (STAR :: q) u = glob (STAR :: q) (tl u)).
        { rewrite glob_star_unfold, Hf; cbn [orb].
          destruct u as [|e u]; [rewrite rd_nil in Ez; congruence|].
          reflexivity. }
        destruct (byte_retry q u) as [b|u'|]; [| |exact IH].
        -- destruct IH as [-> IH]; split; [reflexivity|congruence].
        -- destruct IH as (IH1 & IH2 & m & IH3).
           repeat split; [congruence|exact IH2|].
           exists (S m); rewrite IH3.
           destruct u; [rewrite !skipn_nil|]; reflexivity.
Qed.

(** Skipping the question marks at the fallback position keeps what has
    been matched, and what the wild string with a star in front matches. *)
Lemma skip_questions_aligned (seg tseg w t : ptr) :
  Forall2 seg_match seg tseg -> rd w 0 <> QUESTION -> rd w 0 <> STAR ->
  cstring (seg ++ w) = true -> cstring (tseg ++ t) = true ->
  exists seg' tseg',
    skip_questions (seg ++ w) (tseg ++ t) = (seg' ++ w, tseg' ++ t) /\
    Forall2 seg_match seg' tseg' /\
    rd (seg' ++ w) 0 <> QUESTION /\ rd (seg' ++ w) 0 <> STAR /\
    cstring (seg' ++ w) = true /\ cstring (tseg' ++ t) = true /\
    (length tseg' <= length tseg)%nat /\
    glob (STAR :: seg ++ w) (tseg ++ t)
    = glob (STAR :: seg' ++ w) (tseg' ++ t).
Proof.
  intros Hm Hw Hs; induction Hm as [|c d seg tseg Hcd Hm IH]; intros Hcw Hct.
  - exists [], []; cbn [app] in *; repeat split; try assumption;
      [|constructor|lia].
    destruct w as [|c w]; [reflexivity|].
    rewrite rd_cons_0 in Hw; cbn [skip_questions].
    destruct (N.eqb_spec c QUESTION); [contradiction|reflexivity].
  - cbn [app skip_questions tl] in *.
    apply cstring_cons in Hcw as Hcw'; destruct Hcw' as [_ Hcw'].
    apply cstring_cons in Hct as Hct'; destruct Hct' as [_ Hct'].
    destruct (N.eqb_spec c QUESTION) as [->|Hc].
    + destruct (IH Hcw' Hct')
        as (seg' & tseg' & E & Hm' & Hq & Hst & Hc1 & Hc2 & Hl & Hg).
      exists seg', tseg'; repeat split; try assumption; [simpl; lia|].
      rewrite glob_star_question; exact Hg.
    + exists (c :: seg), (d :: tseg); cbn [app].
      split; [reflexivity|].
      split; [constructor; assumption|].
      split; [rewrite rd_cons_0; exact Hc|].
      split; [rewrite rd_cons_0; apply Hcd|].
      split; [exact Hcw|].
      split; [exact Hct|].
      split; [lia|reflexivity].
Qed.

Lemma byte_lower_branch_correct (ans : bool) (s : cursors) :
  aligned ans s ->
  match byte_lower_branch s with
  | Return b => b = ans
  | Proceed s' =>
      aligned ans s' /\
      (rd (pTame s') 0 = 0 -> ans = (rd (pWild s') 0 =? 0)) /\
      (rd (pTame s') 0 <> 0 ->
       seg_match (rd (pWild s') 0) (rd (pTame s') 0)) /\
      keeps_order (length (pTameSequence s)) (length (pTame s))
                  (pTameSequence s') (pTame s')
  | OutOfGas => False
  end.
Proof.
  destruct s as [w t ws ts].
  intros (seg & tseg & Ew & Et & Hm & Hcw & Hct & Hans).
  pose proof (ex_intro (fun a => exists b, _) seg
                (ex_intro _ tseg
                   (conj Ew (conj Et (conj Hm (conj Hcw (conj Hct Hans)))))))
    as Hal.
  cbn [pWild pTame pWildSequence pTameSequence] in *; subst ws ts.
  apply cstring_app in Hcw as Hw; destruct Hw as [_ Hw].
  apply cstring_app in Hct as Ht; destruct Ht as [_ Ht].
  unfold byte_lower_branch; cbn [pWild pTame pWildSequence pTameSequence].
  destruct (N.eqb_spec (rd w 0) STAR) as [Es|Es].
  { destruct w as [|c rest]; [rewrite rd_nil in Es; discriminate|].
    rewrite rd_cons_0 in Es; subst c; cbn [tl].
    rewrite (glob_leftmost _ _ _ _ Hm), glob_skip_stars in Hans.
    apply cstring_cons in Hw; destruct Hw as [_ Hw].
    pose proof (cstring_skip_stars _ Hw) as Hw'.
    pose proof (skip_stars_head rest) as Hh.
    set (w' := skip_stars rest) in *.
    destruct (N.eqb_spec (rd w' 0) 0) as [E0|E0].
    { apply (cstring_rd_0 _ Hw') in E0; rewrite E0, glob_star_nil in Hans.
      congruence. }
    destruct (N.eqb_spec (rd t 0) 0) as [Et0|Et0].
    { apply (cstring_rd_0 _ Ht) in Et0; subst t.
      rewrite glob_star_unfold, orb_false_r in Hans.
      destruct w' as [|c' w'']; [rewrite rd_nil in E0; congruence|].
      rewrite rd_cons_0 in Hh; rewrite glob_cons in Hans by exact Hh.
      congruence. }
    destruct (N.eqb_spec (rd w' 0) QUESTION) as [Eq|Eq]; cbn [negb].
    - cbn [bind pWild pTame pWildSequence pTameSequence].
      split; [|split; [|split]].
      + exists [], []; cbn [pWild pTame pWildSequence pTameSequence app].
        repeat split; try assumption; constructor.
      + contradiction.
      + intros _; split; [exact Hh|left; exact Eq].
      + unfold keeps_order; rewrite length_app; repeat split; lia.
    - pose proof (byte_seek_correct w' t Hw' Ht E0 Hh Eq) as Hsk.
      destruct (byte_seek w' t) as [b|t'|]; cbn [bind];
        [destruct Hsk; congruence| |exact Hsk].
      destruct Hsk as (Hg & Hr & m & Hsm).
      assert (Ht' : cstring t' = true)
        by (rewrite Hsm; apply cstring_skipn; exact Ht).
      assert (Hlen : (length t' <= length t)%nat)
        by (rewrite Hsm, length_skipn; lia).
      cbn [pWild pTame pWildSequence pTameSequence].
      split; [|split; [|split]].
      + exists [], []; cbn [pWild pTame pWildSequence pTameSequence app].
        repeat split; try assumption; [constructor|congruence].
      + intros Hz; congruence.
      + intros _; split; [exact Hh|right; congruence].
      + unfold keeps_order; rewrite length_app; repeat split; lia. }
  assert (Hplain :
    rd w 0 = rd t 0 \/ rd w 0 = QUESTION ->
    aligned ans (Cursors w t (seg ++ w) (tseg ++ t)) /\
    (rd t 0 = 0 -> ans = (rd w 0 =? 0)) /\
    (rd t 0 <> 0 -> seg_match (rd w 0) (rd t 0)) /\
    keeps_order (length (tseg ++ t)) (length t) (tseg ++ t) t).
  { intros Hor; split; [exact Hal|]; split; [|split].
    - intros Hz; apply (cstring_rd_0 _ Ht) in Hz; subst t.
      rewrite app_nil_r in Hans.
      destruct w as [|c rest].
      + rewrite app_nil_r, glob_star_unfold in Hans.
        rewrite <- (app_nil_r seg), <- (app_nil_r tseg) in Hans at 1.
        rewrite (seg_glob _ _ _ _ Hm) in Hans; exact Hans.
      + rewrite rd_cons_0 in *.
        apply cstring_cons in Hw; destruct Hw as [Hc0 _].
        rewrite (glob_too_short _ _ _ _ Hm Es) in Hans.
        destruct (N.eqb_spec c 0); [contradiction|exact Hans].
    - intros _; split; [exact Es|]; destruct Hor; auto.
    - unfold keeps_order; rewrite length_app; lia. }
  destruct (N.eqb_spec (rd w 0) (rd t 0)) as [Ed|Ed]; cbn [negb andb];
    [apply Hplain; left; exact Ed|].
  destruct (N.eqb_spec (rd w 0) QUESTION) as [Eq|Eq]; cbn [negb];
    [apply Hplain; right; exact Eq|].
  clear Hplain.
  destruct (N.eqb_spec (rd t 0) 0) as [Et0|Et0].
  { apply (cstring_rd_0 _ Ht) in Et0; subst t.
    rewrite rd_nil in Ed.
    destruct w as [|c rest]; [rewrite rd_nil in Ed; congruence|].
    rewrite rd_cons_0 in Es.
    rewrite app_nil_r, (glob_too_short _ _ _ _ Hm Es) in Hans; congruence. }
  destruct (skip_questions_aligned seg tseg w t Hm Eq Es Hcw Hct)
    as (seg' & tseg' & E & Hm' & Hq & Hst & Hc1 & Hc2 & Hl & Hg).
  rewrite E.
  assert (Hfail : glob (seg' ++ w) (tseg' ++ t) = false).
  { rewrite (seg_glob _ _ _ _ Hm').
    apply glob_first_differs; assumption. }
  assert (Hans' : ans = glob (STAR :: seg' ++ w) (tl (tseg' ++ t))).
  { rewrite Hans, Hg, glob_star_unfold, Hfail; cbn [orb].
    destruct (tseg' ++ t) as [|d u] eqn:Eu; [|reflexivity].
    apply app_eq_nil in Eu; destruct Eu as [_ ->].
    rewrite rd_nil in Et0; congruence. }
  pose proof (byte_retry_correct _ _ Hc1 Hc2 Hst Hq) as Hre.
  destruct (byte_retry (seg' ++ w) (tseg' ++ t)) as [b|u''|]; cbn [bind];
    [destruct Hre; congruence| |exact Hre].
  destruct Hre as (Hg' & Hr & m & Hsm).
  assert (Hu : cstring u'' = true)
    by (rewrite Hsm; apply cstring_skipn, cstring_tl; exact Hc2).
  assert (Hlen : rd u'' 0 <> 0 ->
                 (length u'' < length (tseg ++ t))%nat).
  { intros Hnz; rewrite Hsm, length_skipn.
    rewrite !length_app in *.
    destruct (tseg' ++ t) as [|d u] eqn:Eu.
    - rewrite Hsm, skipn_nil, rd_nil in Hnz; congruence.
    - apply (f_equal (@length N)) in Eu; rewrite length_app in Eu.
      cbn [tl length] in *; lia. }
  split; [|split; [|split]]; cbn [pWild pTame pWildSequence pTameSequence].
  - exists [], []; cbn [pWild pTame pWildSequence pTameSequence app].
    repeat split; try assumption; [constructor|congruence].
  - intros Hz; rewrite Hz in Hr; symmetry in Hr.
    rewrite Hr; cbn.
    apply (cstring_rd_0 _ Hc1) in Hr.
    rewrite Hans', Hg', Hr; apply glob_star_nil.
  - intros _; split; [exact Hst|right; congruence].
  - destruct (N.eq_dec (rd u'' 0) 0) as [Hz|Hnz].
    + apply (cstring_rd_0 _ Hu) in Hz; rewrite Hz.
      unfold keeps_order; cbn [length]; repeat split; lia.
    + specialize (Hlen Hnz); unfold keeps_order; repeat split; lia.
Qed.

Lemma byte_lower_loop_correct (gas : nat) (ans : bool) (s : cursors) :
  aligned ans s ->
  (length (pTameSequence s) * (length (pTameSequence s) + 1)
   + length (pTame s) < gas)%nat ->
  byte_lower_loop gas s = Return ans.
Proof.
  revert s; induction gas as [|gas IH]; intros s Hal Hg; [lia|].
  cbn [byte_lower_loop].
  pose proof (byte_lower_branch_correct ans s Hal) as Hb.
  assert (Hinv : (length (pTame s) <= length (pTameSequence s))%nat).
  { destruct Hal as (seg & tseg & _ & Et & _); rewrite Et, length_app; lia. }
  destruct (byte_lower_branch s) as [b|[w t ws ts]|]; cbn [bind];
    [congruence| |contradiction].
  cbn [pWild pTame pWildSequence pTameSequence] in *.
  destruct Hb as (Hal' & Hend & Hhead & Hk1 & Hk2 & Hk3).
  destruct (N.eqb_spec (rd t 0) 0) as [Ez|Ez];
    [rewrite (Hend Ez); reflexivity|].
  destruct (Hhead Ez) as [Hns Hor].
  destruct Hal' as (seg & tseg & Ew & Et & Hm & Hcw & Hct & Hans).
  cbn [pWild pTame pWildSequence pTameSequence] in *.
  destruct t as [|d t']; [rewrite rd_nil in Ez; congruence|].
  rewrite rd_cons_0 in *.
  destruct w as [|c w'].
  { rewrite rd_nil in Hor; destruct Hor; [discriminate|congruence]. }
  rewrite rd_cons_0 in *; cbn [tl].
  apply IH.
  - exists (seg ++ [c]), (tseg ++ [d]);
      cbn [pWild pTame pWildSequence pTameSequence].
    rewrite <- !app_assoc; cbn [app].
    repeat split; try assumption.
    apply Forall2_app; [exact Hm|].
    constructor; [split; assumption|constructor].
  - cbn [pWild pTame pWildSequence pTameSequence length] in *.
    destruct (Nat.eq_dec (length ts) (length (pTameSequence s))) as [Eq|Ne].
    + specialize (Hk3 Eq); rewrite Eq; lia.
    + nia.
Qed.

Lemma byte_upper_loop_correct (gas : nat) (p t : ptr) :
  cstring p = true -> cstring t = true -> (length t < gas)%nat ->
  match byte_upper_loop gas p t with
  | Return b => b = glob p t
  | Proceed wt =>
      glob p t = glob (STAR :: fst wt) (snd wt) /\
      cstring (fst wt) = true /\ cstring (snd wt) = true /\
      (length (snd wt) <= length t)%nat
  | OutOfGas => False
  end.
Proof.
  revert p t; induction gas as [|gas IH]; intros p t Hp Ht Hg; [lia|].
  cbn [byte_upper_loop].
  destruct (N.eqb_spec (rd t 0) 0) as [Et0|Et0].
  { apply (cstring_rd_0 _ Ht) in Et0; subst t.
    rewrite glob_empty_tame.
    destruct p as [|c p]; [reflexivity|].
    apply cstring_cons in Hp as Hc; destruct Hc as [Hc _].
    rewrite rd_cons_0; apply nonzero_true in Hc; rewrite Hc.
    apply only_stars_left_cstring; [exact Hp|discriminate]. }
  destruct (N.eqb_spec (rd p 0) STAR) as [Es|Es].
  { destruct p as [|c rest]; [rewrite rd_nil in Es; discriminate|].
    rewrite rd_cons_0 in Es; subst c; cbn [tl].
    apply cstring_cons in Hp; destruct Hp as [_ Hp].
    pose proof (cstring_skip_stars _ Hp) as Hw'.
    pose proof (skip_stars_head rest) as Hh.
    rewrite (glob_skip_stars rest).
    set (w' := skip_stars rest) in *.
    destruct (N.eqb_spec (rd w' 0) 0) as [E0|E0].
    { apply (cstring_rd_0 _ Hw') in E0; rewrite E0, glob_star_nil.
      reflexivity. }
    destruct (N.eqb_spec (rd w' 0) QUESTION) as [Eq|Eq]; cbn [negb].
    - cbn [bind fst snd]; repeat split; try assumption; lia.
    - pose proof (byte_seek_correct w' t Hw' Ht E0 Hh Eq) as Hsk.
      destruct (byte_seek w' t) as [b|t'|]; cbn [bind];
        [destruct Hsk; congruence| |exact Hsk].
      destruct Hsk as (Hgl & Hr & m & Hsm); cbn [fst snd].
      repeat split; try assumption;
        [rewrite Hsm; apply cstring_skipn; exact Ht
        |rewrite Hsm, length_skipn; lia]. }
  destruct (N.eqb_spec (rd p 0) (rd t 0)) as [Ed|Ed];
  destruct (N.eqb_spec (rd p 0) QUESTION) as [Eq|Eq]; cbn [negb andb];
    try (symmetry; apply glob_first_differs; assumption).
  all: destruct t as [|d t']; [rewrite rd_nil in Et0; congruence|];
    destruct p as [|c p'];
      [rewrite rd_nil in *; rewrite ?rd_cons_0 in *;
       first [congruence|discriminate]|];
    rewrite !rd_cons_0 in *; cbn [tl];
    apply cstring_cons in Hp; destruct Hp as [_ Hp];
    apply cstring_cons in Ht; destruct Ht as [_ Ht];
    specialize (IH p' t' Hp Ht);
    rewrite (glob_cons c p' (d :: t')) by exact Es;
    replace ((c =? QUESTION) || (c =? d)) with true
      by (symmetry; apply orb_true_iff;
          first [left; apply N.eqb_eq; assumption
                |right; apply N.eqb_eq; assumption]);
    cbn [andb];
    (destruct (byte_upper_loop gas p' t') as [b|wt|];
     [apply IH; simpl in Hg; lia
     |destruct IH as (I1 & I2 & I3 & I4); [simpl in Hg; lia|];
      repeat split; try assumption; simpl; lia
     |apply IH; simpl in Hg; lia]).
Qed.

(** [FastWildCompare] decides matching on terminated strings. *)
Lemma FastWildCompare_correct (p t : ptr) :
  cstring p = true -> cstring t = true ->
  FastWildCompare p t = Some (glob p t).
Proof.
  intros Hp Ht; unfold FastWildCompare, FastWildCompare_gas.
  pose proof (byte_upper_loop_correct (gas_for p t) p t Hp Ht) as Hu.
  destruct (byte_upper_loop (gas_for p t) p t) as [b|[w' t']|];
    cbn [bind verdict_of].
  - rewrite Hu; [reflexivity|unfold gas_for; nia].
  - destruct Hu as (Hg & Hw' & Ht' & Hl); [unfold gas_for; nia|].
    cbn [fst snd] in *.
    rewrite (byte_lower_loop_correct _ (glob p t)); [reflexivity| |].
    + exists [], []; cbn [pWild pTame pWildSequence pTameSequence app].
      repeat split; try assumption; constructor.
    + cbn [pWild pTame pWildSequence pTameSequence].
      unfold gas_for; nia.
  - exfalso; apply Hu; unfold gas_for; nia.
Qed.

(** ** On strings of single bytes [FastWildCompareUtf8] is [FastWildCompare] *)

Lemma single_byte_cstring (s : ptr) :
  single_byte s = true -> cstring s = true.
Proof.
  induction s as [|b s IH]; intros H; [reflexivity|].
  apply single_byte_cons in H; apply cstring_cons; tauto.
Qed.

Lemma single_byte_skip_stars (s : ptr) :
  single_byte s = true -> single_byte (skip_stars s) = true.
Proof.
  induction s as [|c s IH]; intros H; [reflexivity|].
  cbn [skip_stars]; destruct (c =? STAR); [|exact H].
  apply IH; apply single_byte_cons in H; tauto.
Qed.

Lemma CodePointCompare_single_byte (w t : ptr) :
  single_byte w = true -> CodePointCompare w t = (rd w 0 =? rd t 0).
Proof.
  intros Hw; unfold CodePointCompare.
  assert (Hle : rd w 0 <= SINGLETON_LIMIT).
  { destruct w as [|b w]; [rewrite rd_nil; limits; lia|].
    apply single_byte_cons in Hw; rewrite rd_cons_0; tauto. }
  destruct (rd w 0 =? rd t 0); [|reflexivity]; cbn [negb].
  destruct (N.ltb_spec SINGLETON_LIMIT (rd w 0)); [lia|].
  destruct (N.ltb_spec TWOFER_LIMIT (rd w 0)); [limits; lia|].
  destruct (N.ltb_spec THREESOME_LIMIT (rd w 0)); [limits; lia|].
  reflexivity.
Qed.

Lemma skip_questions_suffixes (ws ts : ptr) :
  exists j, skip_questions ws ts = (skipn j ws, skipn j ts).
Proof.
  revert ts; induction ws as [|c ws IH]; intros ts.
  - exists 0%nat; reflexivity.
  - cbn [skip_questions]; destruct (c =? QUESTION).
    + destruct (IH (tl ts)) as [j ->]; exists (S j).
      destruct ts; [rewrite !skipn_nil|]; reflexivity.
    + exists 0%nat; reflexivity.
Qed.

Lemma byte_seek_suffix (w t t' : ptr) :
  byte_seek w t = Proceed t' -> exists m, t' = skipn m t.
Proof.
  induction t as [|d t IH]; cbn [byte_seek].
  - destruct (rd w 0 =? 0); [|discriminate].
    intros E; injection E as <-; exists 0%nat; reflexivity.
  - destruct (rd w 0 =? d).
    + intros E; injection E as <-; exists 0%nat; reflexivity.
    + destruct (rd t 0 =? 0); [discriminate|].
      intros E; destruct (IH E) as [m ->]; exists (S m); reflexivity.
Qed.

Lemma byte_retry_suffix (w ts ts' : ptr) :
  byte_retry w ts = Proceed ts' -> exists m, ts' = skipn m ts.
Proof.
  induction ts as [|d ts IH]; cbn [byte_retry].
  - destruct (rd w 0 =? 0); [|discriminate].
    intros E; injection E as <-; exists 0%nat; reflexivity.
  - destruct (rd w 0 =? rd ts 0).
    + intros E; injection E as <-; exists 1%nat; reflexivity.
    + destruct (rd ts 0 =? 0); [discriminate|].
      intros E; destruct (IH E) as [m ->]; exists (S m); reflexivity.
Qed.

Lemma seek_single_byte (gas : nat) (w t : ptr) :
  single_byte w = true -> single_byte t = true ->
  refines (seek gas w t) (byte_seek w t).
Proof.
  intros Hw; revert t; induction gas as [|gas IH]; intros t Ht;
    [left; reflexivity|].
  cbn [seek]; rewrite (CodePointCompare_single_byte _ _ Hw).
  rewrite (advance_single_byte t Ht).
  destruct t as [|d t]; cbn [byte_seek tl].
  - rewrite rd_nil; destruct (rd w 0 =? 0); apply refines_refl.
  - rewrite rd_cons_0.
    destruct (rd w 0 =? d); [apply refines_refl|].
    unfold nonzero; destruct (rd t 0 =? 0); cbn [negb];
      [apply refines_refl|].
    apply IH; apply single_byte_cons in Ht; tauto.
Qed.

Lemma retry_single_byte (gas : nat) (w ts : ptr) :
  single_byte w = true -> single_byte ts = true ->
  refines (retry gas w ts) (byte_retry w ts).
Proof.
  intros Hw; revert ts; induction gas as [|gas IH]; intros ts Ht;
    [left; reflexivity|].
  cbn [retry]; unfold CodePointAdvanceAndCompare.
  pose proof (advance_single_byte ts Ht) as Ha.
  unfold CodePointAdvance in Ha; injection Ha as Ha _; rewrite Ha.
  rewrite (CodePointCompare_single_byte _ _ Hw).
  destruct ts as [|d ts]; cbn [byte_retry tl].
  - rewrite rd_nil; destruct (rd w 0 =? 0); apply refines_refl.
  - destruct (rd w 0 =? rd ts 0); [apply refines_refl|].
    destruct (rd ts 0 =? 0); [apply refines_refl|].
    apply IH; apply single_byte_cons in Ht; tauto.
Qed.

Lemma skip_stars_advancing_single_byte (gas : nat) (w : ptr) :
  single_byte w = true -> rd w 0 = STAR ->
  refines (skip_stars_advancing gas w) (Proceed (skip_stars (tl w))).
Proof.
  revert w; induction gas as [|gas IH]; intros w Hw Hs;
    [left; reflexivity|].
  cbn [skip_stars_advancing]; rewrite (advance_single_byte w Hw).
  pose proof (single_byte_tl w Hw) as Ht.
  destruct (tl w) as [|c w'] eqn:E.
  - rewrite rd_nil; cbn; apply refines_refl.
  - rewrite rd_cons_0; cbn [skip_stars].
    apply single_byte_cons in Ht as Hc; destruct Hc as [[Hc _] _].
    apply nonzero_true in Hc; rewrite Hc; cbn [andb].
    destruct (N.eqb_spec c STAR) as [Ec|Ec]; [|apply refines_refl].
    specialize (IH (c :: w') Ht); rewrite rd_cons_0 in IH.
    apply (IH Ec).
Qed.

Lemma refines_bind_proceeds {A B : Type} (P : A -> Prop)
    (o o' : outcome A) (k k' : A -> outcome B) :
  refines o o' -> (forall a, o' = Proceed a -> P a) ->
  (forall a, P a -> refines (k a) (k' a)) ->
  refines (bind o k) (bind o' k').
Proof.
  intros [->| ->] HP Hk; [left; reflexivity|].
  destruct o' as [b|a|]; cbn [bind];
    [apply refines_refl|apply Hk, HP; reflexivity|apply refines_refl].
Qed.

Lemma upper_loop_single_byte (gas : nat) (w t : ptr) :
  single_byte w = true -> single_byte t = true ->
  refines (upper_loop gas w t) (byte_upper_loop gas w t).
Proof.
  revert w t; induction gas as [|gas IH]; intros w t Hw Ht;
    [left; reflexivity|].
  cbn [upper_loop byte_upper_loop].
  destruct (rd t 0 =? 0); [apply refines_refl|].
  destruct (N.eqb_spec (rd w 0) STAR) as [Es|Es].
  { apply (refines_bind_proceeds (fun w' => w' = skip_stars (tl w))
             (skip_stars_advancing gas w) (Proceed (skip_stars (tl w)))
             _ (fun pWild' => _)).
    - apply skip_stars_advancing_single_byte; assumption.
    - intros a E; injection E as <-; reflexivity.
    - intros w' ->.
      destruct (rd (skip_stars (tl w)) 0 =? 0); [apply refines_refl|].
      apply refines_bind; [|intros; apply refines_refl].
      destruct (negb (rd (skip_stars (tl w)) 0 =? QUESTION));
        [|apply refines_refl].
      apply seek_single_byte;
        [apply single_byte_skip_stars, single_byte_tl|]; assumption. }
  rewrite (CodePointCompare_single_byte _ _ Hw).
  destruct (negb (rd w 0 =? rd t 0) && negb (rd w 0 =? QUESTION));
    [apply refines_refl|].
  rewrite (advance_single_byte w Hw), (advance_single_byte t Ht).
  cbn [fst]; apply IH; apply single_byte_tl; assumption.
Qed.

Lemma byte_upper_loop_single_byte (gas : nat) (w t : ptr) (wt : ptr * ptr) :
  single_byte w = true -> single_byte t = true ->
  byte_upper_loop gas w t = Proceed wt ->
  single_byte (fst wt) = true /\ single_byte (snd wt) = true.
Proof.
  revert w t; induction gas as [|gas IH]; intros w t Hw Ht; [discriminate|].
  cbn [byte_upper_loop].
  destruct (rd t 0 =? 0); [destruct (nonzero (rd w 0)); discriminate|].
  destruct (rd w 0 =? STAR).
  { pose proof (single_byte_skip_stars _ (single_byte_tl _ Hw)) as Hw'.
    destruct (rd (skip_stars (tl w)) 0 =? 0); [discriminate|].
    destruct (negb (rd (skip_stars (tl w)) 0 =? QUESTION)).
    - destruct (byte_seek (skip_stars (tl w)) t) as [b|t'|] eqn:E;
        cbn [bind]; try discriminate.
      intros H; injection H as <-; cbn [fst snd]; split; [exact Hw'|].
      destruct (byte_seek_suffix _ _ _ E) as [m ->].
      apply single_byte_skipn; exact Ht.
    - cbn [bind]; intros H; injection H as <-; cbn [fst snd]; tauto. }
  destruct (negb (rd w 0 =? rd t 0) && negb (rd w 0 =? QUESTION));
    [discriminate|].
  apply IH; apply single_byte_tl; assumption.
Qed.

Lemma lower_branch_single_byte (gas : nat) (s : cursors) :
  single_bytes s ->
  refines (lower_branch gas s) (byte_lower_branch s).
Proof.
  destruct s as [w t ws ts]; intros (Hw & Ht & Hws & Hts);
    cbn [pWild pTame pWildSequence pTameSequence] in *.
  unfold lower_branch, byte_lower_branch;
    cbn [pWild pTame pWildSequence pTameSequence].
  rewrite (CodePointCompare_single_byte _ _ Hw).
  destruct (rd w 0 =? STAR).
  { destruct (rd (skip_stars (tl w)) 0 =? 0); [apply refines_refl|].
    destruct (rd t 0 =? 0); [apply refines_refl|].
    apply refines_bind; [|intros; apply refines_refl].
    destruct (negb (rd (skip_stars (tl w)) 0 =? QUESTION));
      [|apply refines_refl].
    apply seek_single_byte;
      [apply single_byte_skip_stars, single_byte_tl|]; assumption. }
  destruct (negb (rd w 0 =? rd t 0) && negb (rd w 0 =? QUESTION));
    [|apply refines_refl].
  destruct (rd t 0 =? 0); [apply refines_refl|].
  destruct (skip_questions_suffixes ws ts) as [j ->].
  apply refines_bind; [|intros; apply refines_refl].
  apply retry_single_byte; apply single_byte_skipn; assumption.
Qed.

Lemma byte_lower_branch_single_byte (s s' : cursors) :
  single_bytes s -> byte_lower_branch s = Proceed s' -> single_bytes s'.
Proof.
  destruct s as [w t ws ts]; intros (Hw & Ht & Hws & Hts);
    cbn [pWild pTame pWildSequence pTameSequence] in *.
  unfold byte_lower_branch; cbn [pWild pTame pWildSequence pTameSequence].
  destruct (rd w 0 =? STAR).
  { pose proof (single_byte_skip_stars _ (single_byte_tl _ Hw)) as Hw'.
    destruct (rd (skip_stars (tl w)) 0 =? 0); [discriminate|].
    destruct (rd t 0 =? 0); [discriminate|].
    destruct (negb (rd (skip_stars (tl w)) 0 =? QUESTION)).
    - destruct (byte_seek (skip_stars (tl w)) t) as [b|t'|] eqn:E;
        cbn [bind]; try discriminate.
      destruct (byte_seek_suffix _ _ _ E) as [m ->].
      pose proof (single_byte_skipn t m Ht) as Ht'.
      intros E'; injection E' as <-; repeat split; assumption.
    - cbn [bind]; intros E'; injection E' as <-; repeat split; assumption. }
  destruct (negb (rd w 0 =? rd t 0) && negb (rd w 0 =? QUESTION)).
  - destruct (rd t 0 =? 0); [discriminate|].
    destruct (skip_questions_suffixes ws ts) as [j ->].
    pose proof (single_byte_skipn ws j Hws) as Hws'.
    destruct (byte_retry (skipn j ws) (skipn j ts)) as [b|ts'|] eqn:E;
      cbn [bind]; try discriminate.
    destruct (byte_retry_suffix _ _ _ E) as [m ->].
    pose proof (single_byte_skipn _ m (single_byte_skipn ts j Hts)) as Hts'.
    intros E'; injection E' as <-; repeat split; assumption.
  - intros E'; injection E' as <-; repeat split; assumption.
Qed.

Lemma lower_loop_single_byte (gas : nat) (s : cursors) :
  single_bytes s -> refines (lower_loop gas s) (byte_lower_loop gas s).
Proof.
  revert s; induction gas as [|gas IH]; intros s Hs; [left; reflexivity|].
  cbn [lower_loop byte_lower_loop].
  apply (refines_bind_proceeds single_bytes).
  - apply lower_branch_single_byte; exact Hs.
  - intros s'; apply byte_lower_branch_single_byte; exact Hs.
  - intros [w t ws ts] (Hw & Ht & Hws & Hts);
      cbn [pWild pTame pWildSequence pTameSequence] in *.
    destruct (rd t 0 =? 0); [apply refines_refl|].
    rewrite (advance_single_byte w Hw), (advance_single_byte t Ht).
    cbn [fst]; apply IH.
    repeat split; cbn [pWild pTame pWildSequence pTameSequence];
      try assumption; apply single_byte_tl; assumption.
Qed.

(** On strings of single bytes [FastWildCompareUtf8] returns what
    [FastWildCompare] returns. *)
Lemma FastWildCompareUtf8_single_byte (p t : ptr) :
  single_byte p = true -> single_byte t = true ->
  FastWildCompareUtf8 p t = FastWildCompare p t.
Proof.
  intros Hp Ht.
  destruct (FastWildCompareUtf8_gas_settled (gas_for p t) p t) as [b Hb];
    [lia|].
  unfold FastWildCompareUtf8; rewrite Hb; symmetry.
  unfold FastWildCompare, FastWildCompare_gas.
  unfold FastWildCompareUtf8_gas in Hb.
  revert Hb; apply refines_verdict.
  apply (refines_bind_proceeds
           (fun wt => single_byte (fst wt) = true
                      /\ single_byte (snd wt) = true)).
  - apply upper_loop_single_byte; assumption.
  - intros wt; apply byte_upper_loop_single_byte; assumption.
  - intros [w' t'] [Hw' Ht']; cbn [fst snd] in *.
    apply lower_loop_single_byte; repeat split; assumption.
Qed.

(** ** Counting code points *)

Lemma CodePointAdvance_at_zero (p : ptr) :
  rd p 0 = 0 -> CodePointAdvance p = (p, false) /\ advance_step p = 0%nat.
Proof.
  intros H; split; [|apply advance_step_at_zero; exact H].
  unfold CodePointAdvance; rewrite (advance_step_at_zero p H); cbn [skipn].
  rewrite H; reflexivity.
Qed.

Lemma count_loop_shift (gas : nat) (p : ptr) (i d : Z) :
  count_loop gas p (i + d)
  = option_map (fun n => (n + d)%Z) (count_loop gas p i).
Proof.
  revert p i; induction gas as [|gas IH]; intros p i; [reflexivity|].
  cbn [count_loop]; destruct (CodePointAdvance p) as [p' more].
  destruct more; [|reflexivity].
  replace (i + d + 1)%Z with (i + 1 + d)%Z by lia; apply IH.
Qed.

Lemma count_loop_gas (gas gas' : nat) (p : ptr) (i : Z) :
  (length p < gas)%nat -> (length p < gas')%nat ->
  count_loop gas p i = count_loop gas' p i.
Proof.
  revert gas' p i; induction gas as [|gas IH]; intros gas' p i Hg Hg';
    [lia|].
  destruct gas' as [|gas']; [lia|].
  cbn [count_loop]; destruct (CodePointAdvance p) as [p' more] eqn:E.
  destruct more; [|reflexivity].
  pose proof (advance_pair_shortens _ _ E); apply IH; lia.
Qed.

Lemma count_loop_grows (gas : nat) (p : ptr) (i n : Z) :
  count_loop gas p i = Some n -> (i <= n)%Z.
Proof.
  revert p i; induction gas as [|gas IH]; intros p i; [discriminate|].
  cbn [count_loop]; destruct (CodePointAdvance p) as [p' more].
  destruct more.
  - intros H; apply IH in H; lia.
  - intros H; injection H as <-; lia.
Qed.

Lemma CodePointCount_nonempty (t : ptr) (c : Z) :
  rd t 0 <> 0 -> CodePointCount t = Some c -> (1 <= c)%Z.
Proof.
  intros Ht; unfold CodePointCount, CodePointCount_gas.
  destruct (N.ltb_spec 0 (rd t 0)); [|lia].
  apply count_loop_grows.
Qed.

Lemma CodePointCount_at_end (t : ptr) :
  rd t 0 = 0 -> CodePointCount t = Some 0%Z.
Proof.
  intros Hz; unfold CodePointCount, CodePointCount_gas.
  destruct (N.ltb_spec 0 (rd t 0)); [lia|].
  cbn [count_loop].
  destruct (CodePointAdvance_at_zero t Hz) as [-> _]; reflexivity.
Qed.

Lemma CodePointCount_step (t : ptr) :
  cstring t = true -> t <> [] ->
  CodePointCount t
  = option_map Z.succ (CodePointCount (fst (CodePointAdvance t))).
Proof.
  intros Hc Hne.
  assert (Hnz : rd t 0 <> 0) by (rewrite (cstring_rd_0 _ Hc); exact Hne).
  pose proof (advance_shortens t Hnz) as Hsh.
  destruct (CodePointAdvance t) as [t' more] eqn:E; cbn [fst] in *.
  assert (Hm : more = nonzero (rd t' 0)).
  { unfold CodePointAdvance in E; injection E as <- <-; reflexivity. }
  assert (El : CodePointCount t
               = if more then count_loop (length t) t' 2 else Some 1%Z).
  { unfold CodePointCount, CodePointCount_gas.
    destruct (N.ltb_spec 0 (rd t 0)); [|lia].
    cbn [count_loop]; rewrite E; reflexivity. }
  rewrite El; destruct more.
  - symmetry in Hm; apply nonzero_true in Hm.
    unfold CodePointCount, CodePointCount_gas.
    destruct (N.ltb_spec 0 (rd t' 0)); [|lia].
    rewrite (count_loop_gas (length t) (S (length t')) t' 2) by lia.
    change 2%Z with (1 + 1)%Z; rewrite count_loop_shift.
    destruct (count_loop (S (length t')) t' 1); reflexivity.
  - symmetry in Hm; apply nonzero_false in Hm.
    rewrite (CodePointCount_at_end t' Hm); reflexivity.
Qed.

Lemma code_point_parts (u : ptr) :
  code_point u = true ->
  length u = nominal_width (rd u 0) /\ cstring u = true /\ u <> [] /\
  rd u 0 <> 0.
Proof.
  unfold code_point; rewrite andb_true_iff, Nat.eqb_eq; intros [Hl Hc].
  pose proof (nominal_width_positive (rd u 0)) as Hw.
  assert (Hne : u <> []) by (intros ->; simpl in Hl; lia).
  repeat split; try assumption.
  rewrite (cstring_rd_0 _ Hc); exact Hne.
Qed.

Lemma rd_app_l (u s : ptr) (k : nat) :
  (k < length u)%nat -> rd (u ++ s) k = rd u k.
Proof. intros H; unfold rd; apply app_nth1; exact H. Qed.

(** A whole code point is stepped over as a whole. *)
Lemma advance_code_point (u s : ptr) :
  code_point u = true -> cstring s = true ->
  CodePointAdvance (u ++ s) = (s, nonzero (rd s 0)).
Proof.
  intros Hu Hs; destruct (code_point_parts u Hu) as (Hl & Hc & Hne & _).
  assert (Hcs : cstring (u ++ s) = true)
    by (unfold cstring in *; rewrite forallb_app, Hc, Hs; reflexivity).
  unfold CodePointAdvance; rewrite (advance_step_cstring _ Hcs).
  rewrite rd_app_l by (destruct u; [contradiction|simpl; lia]).
  rewrite <- Hl, length_app, Nat.min_l by lia.
  rewrite skipn_app, skipn_all, Nat.sub_diag; reflexivity.
Qed.

Lemma cstring_concat (us : list ptr) :
  Forall (fun u => code_point u = true) us -> cstring (concat us) = true.
Proof.
  induction 1 as [|u us Hu _ IH]; [reflexivity|].
  cbn [concat]; unfold cstring in *; rewrite forallb_app, IH.
  destruct (code_point_parts u Hu) as (_ & Hc & _); unfold cstring in Hc.
  rewrite Hc; reflexivity.
Qed.

Lemma CodePointCount_concat (us : list ptr) :
  Forall (fun u => code_point u = true) us ->
  CodePointCount (concat us) = Some (Z.of_nat (length us)).
Proof.
  induction 1 as [|u us Hu Hus IH]; [reflexivity|].
  pose proof (cstring_concat us Hus) as Hcs.
  destruct (code_point_parts u Hu) as (_ & Hc & Hne & _).
  cbn [concat]; rewrite CodePointCount_step.
  - rewrite (advance_code_point u _ Hu Hcs); cbn [fst]; rewrite IH.
    cbn [option_map length]; f_equal; lia.
  - unfold cstring in *; rewrite forallb_app, Hc, Hcs; reflexivity.
  - destruct u; [contradiction|discriminate].
Qed.

(** ** Question marks only *)

Lemma upper_loop_questions (gas n : nat) (t : ptr) (c : Z) :
  cstring t = true -> (length t < gas)%nat -> CodePointCount t = Some c ->
  upper_loop gas (repeat QUESTION n) t = Return (c =? Z.of_nat n)%Z.
Proof.
  revert n t c; induction gas as [|gas IH]; intros n t c Ht Hg Hc; [lia|].
  destruct t as [|d t'].
  { injection Hc as <-.
    rewrite upper_loop_tame_empty
      by (unfold cstring; apply forallb_forall; intros x Hx;
          apply repeat_spec in Hx; subst x; reflexivity).
    destruct n as [|n]; reflexivity. }
  assert (Hnz : rd (d :: t') 0 <> 0)
    by (rewrite (cstring_rd_0 _ Ht); discriminate).
  pose proof (CodePointCount_nonempty _ _ Hnz Hc) as Hc1.
  destruct n as [|n].
  - cbn [repeat upper_loop]; rewrite rd_nil.
    destruct (N.eqb_spec (rd (d :: t') 0) 0); [contradiction|].
    change (0 =? STAR) with false; cbv iota.
    unfold CodePointCompare; rewrite rd_nil.
    destruct (N.eqb_spec 0 (rd (d :: t') 0)) as [E|_];
      [symmetry in E; contradiction|].
    cbn; f_equal; symmetry; apply Z.eqb_neq; lia.
  - cbn [repeat]; rewrite (upper_loop_question _ _ _ Hnz).
    rewrite CodePointCount_step in Hc by (assumption || discriminate).
    destruct (CodePointCount (fst (CodePointAdvance (d :: t')))) as [c'|]
      eqn:Ec; [|discriminate].
    injection Hc as <-.
    pose proof (advance_shortens _ Hnz) as Hsh.
    rewrite (IH n _ c');
      [|apply cstring_skipn; exact Ht|simpl in *; lia|exact Ec].
    f_equal.
    destruct (Z.eqb_spec c' (Z.of_nat n)),
      (Z.eqb_spec (Z.succ c') (Z.of_nat (S n)));
      try reflexivity; lia.
Qed.

(** ** A wild string of literal code points and a star at its end *)

Lemma rd_firstn (m k : nat) (t : ptr) :
  (k < m)%nat -> rd (firstn m t) k = rd t k.
Proof.
  revert k t; induction m as [|m IH]; intros k t Hk; [lia|].
  destruct t as [|d t]; [reflexivity|].
  destruct k as [|k]; [reflexivity|].
  cbn [firstn]; rewrite !rd_cons_S; apply IH; lia.
Qed.

Lemma CodePointCompare_code_point (u rest t : ptr) :
  code_point u = true -> cstring t = true ->
  CodePointCompare (u ++ rest) t = ptr_eqb u (firstn (length u) t).
Proof.
  intros Hu Ht; destruct (code_point_parts u Hu) as (Hl & Hc & Hne & Hnz).
  assert (Hpos : (0 < length u)%nat)
    by (destruct u; [contradiction|simpl; lia]).
  assert (H0 : rd (u ++ rest) 0 = rd u 0) by (apply rd_app_l; exact Hpos).
  destruct (ptr_eqb u (firstn (length u) t)) eqn:E.
  - apply ptr_eqb_true in E.
    apply CodePointCompare_spec; rewrite H0, <- Hl; intros k Hk.
    rewrite rd_app_l by exact Hk.
    rewrite E at 1; apply rd_firstn; exact Hk.
  - destruct (CodePointCompare (u ++ rest) t) eqn:F; [|reflexivity].
    rewrite CodePointCompare_spec, H0, <- Hl in F.
    assert (Hlt : (length u <= length t)%nat).
    { assert (Hk : (length u - 1 < length u)%nat) by lia.
      pose proof (F _ Hk) as Fk; rewrite rd_app_l in Fk by exact Hk.
      assert (Hn : rd t (length u - 1) <> 0)
        by (rewrite <- Fk; apply (cstring_rd u _ Hc); exact Hk).
      apply (cstring_rd t _ Ht) in Hn; lia. }
    assert (Eq : u = firstn (length u) t).
    { rewrite <- (firstn_all u) at 1.
      apply firstn_ext; [lia|exact Hlt|].
      intros k Hk; rewrite <- (F k Hk); symmetry; apply rd_app_l; exact Hk. }
    apply ptr_eqb_true in Eq; congruence.
Qed.

Lemma is_prefix_app (u l t : ptr) :
  is_prefix (u ++ l) t
  = ptr_eqb u (firstn (length u) t) && is_prefix l (skipn (length u) t).
Proof.
  unfold is_prefix.
  destruct (ptr_eqb u (firstn (length u) t)) eqn:E1;
  destruct (ptr_eqb l (firstn (length l) (skipn (length u) t))) eqn:E2;
  cbn [andb];
  try apply ptr_eqb_true in E1; try apply ptr_eqb_true in E2.
  - apply ptr_eqb_true.
    rewrite <- (firstn_skipn (length u) t) at 1.
    rewrite length_app, firstn_app, firstn_firstn, length_firstn.
    assert (Hl : length u = length (firstn (length u) t)) by congruence.
    rewrite length_firstn in Hl.
    replace (Nat.min (length u + length l) (length u)) with (length u) by lia.
    replace (length u + length l - Nat.min (length u) (length t))%nat
      with (length l) by lia.
    congruence.
  - destruct (ptr_eqb (u ++ l) (firstn (length (u ++ l)) t)) eqn:F;
      [|reflexivity].
    apply ptr_eqb_true in F; exfalso.
    assert (Hl : length u = length (firstn (length u) t)) by congruence.
    rewrite length_firstn in Hl.
    apply (f_equal (skipn (length u))) in F.
    rewrite skipn_app, skipn_all, Nat.sub_diag in F; cbn [app skipn] in F.
    rewrite length_app, skipn_firstn_comm in F.
    replace (length u + length l - length u)%nat with (length l) in F by lia.
    apply ptr_eqb_true in F; congruence.
  - destruct (ptr_eqb (u ++ l) (firstn (length (u ++ l)) t)) eqn:F;
      [|reflexivity].
    apply ptr_eqb_true in F; exfalso.
    apply (f_equal (firstn (length u))) in F.
    rewrite firstn_app, firstn_all, Nat.sub_diag, firstn_firstn in F.
    cbn [firstn] in F; rewrite app_nil_r, length_app in F.
    replace (Nat.min (length u) (length u + length l)) with (length u) in F
      by lia.
    apply ptr_eqb_true in F; congruence.
  - destruct (ptr_eqb (u ++ l) (firstn (length (u ++ l)) t)) eqn:F;
      [|reflexivity].
    apply ptr_eqb_true in F; exfalso.
    apply (f_equal (firstn (length u))) in F.
    rewrite firstn_app, firstn_all, Nat.sub_diag, firstn_firstn in F.
    cbn [firstn] in F; rewrite app_nil_r, length_app in F.
    replace (Nat.min (length u) (length u + length l)) with (length u) in F
      by lia.
    apply ptr_eqb_true in F; congruence.
Qed.

Lemma literal_code_point_parts (u : ptr) :
  literal_code_point u = true ->
  code_point u = true /\ rd u 0 <> STAR /\ rd u 0 <> QUESTION.
Proof.
  unfold literal_code_point.
  rewrite !andb_true_iff, !negb_true_iff, !N.eqb_neq; tauto.
Qed.

Lemma upper_loop_star_alone (gas : nat) (t : ptr) :
  cstring t = true -> upper_loop (S (S gas)) [STAR] t = Return true.
Proof.
  intros Ht; cbn [upper_loop].
  destruct (N.eqb_spec (rd t 0) 0); [reflexivity|].
  reflexivity.
Qed.

Lemma upper_loop_literal_star (gas : nat) (us : list ptr) (t : ptr) :
  Forall (fun u => literal_code_point u = true) us ->
  cstring t = true -> (length t + 1 < gas)%nat ->
  upper_loop gas (concat us ++ [STAR]) t = Return (is_prefix (concat us) t).
Proof.
  intros Hus; revert gas t; induction Hus as [|u us Hu Hus IH];
    intros gas t Ht Hg.
  - destruct gas as [|[|gas]]; try lia.
    cbn [concat app]; rewrite (upper_loop_star_alone _ _ Ht); reflexivity.
  - destruct gas as [|gas]; [lia|].
    destruct (literal_code_point_parts u Hu) as (Hcp & Hns & Hnq).
    destruct (code_point_parts u Hcp) as (Hl & Hc & Hne & Hnz).
    assert (Hpos : (0 < length u)%nat)
      by (destruct u; [contradiction|simpl; lia]).
    assert (Hrest : cstring (concat us ++ [STAR]) = true).
    { apply cstring_app; split; [|reflexivity].
      apply cstring_concat.
      eapply Forall_impl; [|exact Hus].
      intros a Ha; apply literal_code_point_parts in Ha; tauto. }
    cbn [concat]; rewrite <- app_assoc, is_prefix_app.
    assert (H0 : rd (u ++ concat us ++ [STAR]) 0 = rd u 0)
      by (apply rd_app_l; exact Hpos).
    destruct t as [|d t'].
    { assert (Hcs : cstring (u ++ concat us ++ [STAR]) = true)
        by (apply cstring_app; split; assumption).
      rewrite (upper_loop_tame_empty _ _ Hcs).
      destruct u as [|b u']; [contradiction|].
      rewrite rd_cons_0 in Hns; cbn [app forallb]; unfold is_star at 1.
      destruct (N.eqb_spec b STAR); [contradiction|].
      rewrite firstn_nil; reflexivity. }
    assert (Htz : rd (d :: t') 0 <> 0)
      by (rewrite (cstring_rd_0 _ Ht); discriminate).
    cbn [upper_loop]; rewrite H0.
    destruct (N.eqb_spec (rd (d :: t') 0) 0); [contradiction|].
    destruct (N.eqb_spec (rd u 0) STAR); [contradiction|].
    destruct (N.eqb_spec (rd u 0) QUESTION); [contradiction|].
    rewrite andb_true_r, (CodePointCompare_code_point _ _ _ Hcp Ht).
    destruct (ptr_eqb u (firstn (length u) (d :: t'))) eqn:E; cbn [negb andb];
      [|reflexivity].
    apply ptr_eqb_true in E.
    rewrite (advance_code_point _ _ Hcp Hrest); cbn [fst].
    assert (Hlt : (length u <= length (d :: t'))%nat).
    { apply (f_equal (@length N)) in E; rewrite length_firstn in E; lia. }
    assert (Eadv : fst (CodePointAdvance (d :: t'))
                   = skipn (length u) (d :: t')).
    { unfold CodePointAdvance; cbn [fst].
      rewrite (advance_step_cstring _ Ht).
      replace (rd (d :: t') 0) with (rd u 0)
        by (rewrite E at 1; apply rd_firstn; exact Hpos).
      rewrite <- Hl, Nat.min_l by exact Hlt; reflexivity. }
    rewrite Eadv; apply IH; [apply cstring_skipn; exact Ht|].
    rewrite length_skipn; cbn [length] in *; lia.
Qed.

(** ** The matcher with limits on a wild string with no wildcard *)

Lemma len_upper_loop_literal (gas a b : nat) (p t : ptr) (i : Z) :
  single_byte p = true -> single_byte t = true ->
  forallb (fun c => negb (c =? STAR) && negb (c =? QUESTION)) (firstn a p)
    = true ->
  (length t < gas)%nat ->
  len_upper_loop gas p t i (i + Z.of_nat a) (i + Z.of_nat b)
  = Return (ptr_eqb (firstn a p) (firstn b t)).
Proof.
  revert a b p t i; induction gas as [|gas IH];
    intros a b p t i Hp Ht Hl Hg; [lia|].
  cbn [len_upper_loop].
  pose proof (single_byte_rd_0 p Hp) as Hp0.
  pose proof (single_byte_rd_0 t Ht) as Ht0.
  destruct (Z.leb_spec (i + Z.of_nat b) i) as [Hb|Hb]; cbn [orb].
  { assert (b = 0%nat) by lia; subst b; cbn [firstn].
    destruct (Z.ltb_spec i (i + Z.of_nat a)) as [Ha|Ha]; cbn [andb].
    - destruct p as [|c p']; [destruct a; reflexivity|].
      apply single_byte_cons in Hp as Hc; destruct Hc as [[Hc _] _].
      rewrite rd_cons_0; apply nonzero_true in Hc; rewrite Hc.
      destruct a as [|a']; [lia|].
      cbn [firstn forallb len_only_stars_left] in *.
      destruct (c =? STAR); [discriminate|reflexivity].
    - assert (a = 0%nat) by lia; subst a; reflexivity. }
  destruct (N.eqb_spec (rd t 0) 0) as [Et|Et].
  { apply Ht0 in Et; subst t; rewrite firstn_nil.
    destruct (Z.ltb_spec i (i + Z.of_nat a)) as [Ha|Ha]; cbn [andb].
    - destruct p as [|c p']; [destruct a; reflexivity|].
      apply single_byte_cons in Hp as Hc; destruct Hc as [[Hc _] _].
      rewrite rd_cons_0; apply nonzero_true in Hc; rewrite Hc.
      destruct a as [|a']; [lia|].
      cbn [firstn forallb len_only_stars_left] in *.
      destruct (c =? STAR); [discriminate|reflexivity].
    - assert (a = 0%nat) by lia; subst a; reflexivity. }
  destruct t as [|d t']; [rewrite rd_nil in Et; congruence|].
  destruct b as [|b']; [lia|].
  destruct (Z.leb_spec (i + Z.of_nat a) i) as [Ha|Ha].
  { assert (a = 0%nat) by lia; subst a; reflexivity. }
  destruct a as [|a']; [lia|].
  rewrite (CodePointCompare_single_byte _ _ Hp), rd_cons_0.
  destruct p as [|c p'].
  { rewrite rd_nil; change (0 =? STAR) with false; cbv iota.
    rewrite rd_cons_0 in Et.
    destruct (N.eqb_spec 0 d) as [E|_]; [symmetry in E; contradiction|].
    reflexivity. }
  rewrite rd_cons_0; cbn [firstn forallb] in Hl |- *.
  apply andb_true_iff in Hl; destruct Hl as [Hc Hl].
  apply andb_true_iff in Hc; destruct Hc as [Hs Hq].
  apply negb_true_iff in Hs; apply negb_true_iff in Hq.
  rewrite Hs, Hq, andb_true_r.
  destruct (N.eqb_spec c d) as [->|Hcd]; cbn [negb].
  - rewrite (advance_single_byte _ Hp), (advance_single_byte _ Ht).
    cbn [fst tl].
    replace (i + Z.of_nat (S a'))%Z with (i + 1 + Z.of_nat a')%Z by lia.
    replace (i + Z.of_nat (S b'))%Z with (i + 1 + Z.of_nat b')%Z by lia.
    rewrite IH;
      [|apply single_byte_cons in Hp; tauto
       |apply single_byte_cons in Ht; tauto|exact Hl|simpl in Hg; lia].
    f_equal; apply ptr_eqb_iff; split; intros E;
      [|injection E as E]; congruence.
  - f_equal; symmetry.
    unfold ptr_eqb.
    destruct (list_eq_dec N.eq_dec (c :: firstn a' p') (d :: firstn b' t'))
      as [E|_]; [injection E; intros; contradiction|reflexivity].
Qed.

(** ** Stars against the empty tame string, under a limit *)

Lemma len_only_stars_left_repeat (n : nat) (i lenWild : Z) :
  (i < lenWild)%Z ->
  len_only_stars_left (repeat STAR n) i lenWild
  = (lenWild <=? i + Z.of_nat n)%Z.
Proof.
  revert i; induction n as [|n IH]; intros i Hi.
  - cbn; symmetry; apply Z.leb_gt; lia.
  - cbn [repeat len_only_stars_left]; change (STAR =? STAR) with true.
    cbv iota.
    destruct (Z.leb_spec lenWild (i + 1)) as [H|H].
    + symmetry; apply Z.leb_le; lia.
    + rewrite IH by lia; f_equal; lia.
Qed.

(** * Strings of whole code points *)

(** ** Code points as numbers *)

Lemma utf8_unit_parts (u : ptr) :
  utf8_unit u = true ->
  code_point u = true /\ Forall (fun b => b < 256) u.
Proof.
  unfold utf8_unit; rewrite andb_true_iff, forallb_forall, Forall_forall.
  intros [H1 H2]; split; [exact H1|].
  intros b Hb; apply N.ltb_lt; apply H2; exact Hb.
Qed.

Lemma code_cons (b : N) (u : ptr) : code (b :: u) = b + 256 * code u.
Proof. reflexivity. Qed.

Lemma code_injective (u v : ptr) :
  length u = length v ->
  Forall (fun b => b < 256) u -> Forall (fun b => b < 256) v ->
  code u = code v -> u = v.
Proof.
  revert v; induction u as [|b u IH]; intros [|c v] Hl Hu Hv E;
    try discriminate; [reflexivity|].
  rewrite !code_cons in E.
  inversion Hu as [|? ? Hb Hu']; inversion Hv as [|? ? Hc Hv']; subst.
  assert (b = c /\ code u = code v) as [-> E'] by lia.
  f_equal; apply IH; auto.
Qed.

Lemma code_first (u : ptr) :
  Forall (fun b => b < 256) u -> rd u 0 = code u mod 256.
Proof.
  destruct u as [|b u]; [reflexivity|].
  intros H; inversion H as [|? ? Hb _]; subst.
  rewrite rd_cons_0, code_cons.
  rewrite N.mul_comm, N.Div0.mod_add, N.mod_small; [reflexivity|exact Hb].
Qed.

Lemma utf8_unit_code_nonzero (u : ptr) : utf8_unit u = true -> code u <> 0.
Proof.
  intros Hu; destruct (utf8_unit_parts u Hu) as [Hcp _].
  destruct (code_point_parts u Hcp) as (_ & _ & _ & Hnz).
  destruct u as [|b u]; [rewrite rd_nil in Hnz; congruence|].
  rewrite rd_cons_0 in Hnz; rewrite code_cons; lia.
Qed.

(** A code point whose first byte is a single-byte value is that byte. *)
Lemma utf8_unit_single (u : ptr) :
  utf8_unit u = true -> rd u 0 <= SINGLETON_LIMIT -> u = [rd u 0].
Proof.
  intros Hu Hle; destruct (utf8_unit_parts u Hu) as [Hcp _].
  destruct (code_point_parts u Hcp) as (Hl & _ & _ & _).
  unfold nominal_width in Hl.
  destruct (N.ltb_spec THREESOME_LIMIT (rd u 0)); [limits; lia|].
  destruct (N.ltb_spec TWOFER_LIMIT (rd u 0)); [limits; lia|].
  destruct (N.ltb_spec SINGLETON_LIMIT (rd u 0)); [lia|].
  destruct u as [|b [|c u]]; simpl in Hl; try lia.
  reflexivity.
Qed.

Lemma utf8_unit_first_is (u : ptr) (c : N) :
  utf8_unit u = true -> c <= SINGLETON_LIMIT ->
  (rd u 0 =? c) = (code u =? c).
Proof.
  intros Hu Hc; destruct (utf8_unit_parts u Hu) as [_ Hr].
  destruct (N.eqb_spec (rd u 0) c) as [E|E].
  - rewrite (utf8_unit_single u Hu) by lia.
    rewrite E; cbn; symmetry; apply N.eqb_eq; lia.
  - symmetry; apply N.eqb_neq; intros F; apply E.
    rewrite (code_first u Hr), F; apply N.mod_small; limits; lia.
Qed.

Lemma utf8_unit_equal (u v : ptr) :
  utf8_unit u = true -> utf8_unit v = true ->
  code u = code v -> u = v.
Proof.
  intros Hu Hv E.
  destruct (utf8_unit_parts u Hu) as [Hcu Hru].
  destruct (utf8_unit_parts v Hv) as [Hcv Hrv].
  destruct (code_point_parts u Hcu) as (Hlu & _).
  destruct (code_point_parts v Hcv) as (Hlv & _).
  apply code_injective; try assumption.
  rewrite Hlu, Hlv, (code_first u Hru), (code_first v Hrv), E; reflexivity.
Qed.

Lemma units_code_points (us : list ptr) :
  Forall (fun u => utf8_unit u = true) us ->
  Forall (fun u => code_point u = true) us.
Proof.
  intros H; eapply Forall_impl; [|exact H].
  intros u Hu; apply utf8_unit_parts in Hu; tauto.
Qed.

Lemma encodes_cstring (us : list ptr) (w W : ptr) :
  encodes us w W -> cstring w = true.
Proof.
  intros (Hu & -> & _); apply cstring_concat, units_code_points; exact Hu.
Qed.

Lemma encodes_first (us : list ptr) (w W : ptr) (c : N) :
  encodes us w W -> c <= SINGLETON_LIMIT ->
  (rd w 0 =? c) = (rd W 0 =? c).
Proof.
  intros (Hu & -> & ->) Hc.
  destruct us as [|u us]; [reflexivity|].
  inversion Hu as [|? ? Hu1 _]; subst.
  destruct (utf8_unit_parts u Hu1) as [Hcp _].
  destruct (code_point_parts u Hcp) as (_ & _ & Hne & _).
  cbn [concat map]; rewrite rd_cons_0.
  rewrite rd_app_l by (destruct u; [contradiction|simpl; lia]).
  apply utf8_unit_first_is; assumption.
Qed.

Lemma encodes_at_end (us : list ptr) (w W : ptr) :
  encodes us w W -> (rd w 0 =? 0) = (rd W 0 =? 0).
Proof. intros H; apply (encodes_first _ _ _ 0 H); limits; lia. Qed.

Lemma encodes_nil_l (us : list ptr) (w W : ptr) :
  encodes us w W -> rd W 0 = 0 -> us = [].
Proof.
  intros (Hu & -> & ->) H0.
  destruct us as [|u us]; [reflexivity|].
  inversion Hu as [|? ? Hu1 _]; subst.
  cbn [map] in H0; rewrite rd_cons_0 in H0.
  apply utf8_unit_code_nonzero in Hu1; contradiction.
Qed.

(** Stepping over one byte that is a whole code point. *)
Lemma encodes_tl_single (us : list ptr) (w W : ptr) :
  encodes us w W -> rd W 0 <> 0 -> rd W 0 <= SINGLETON_LIMIT ->
  exists us', encodes us' (tl w) (tl W) /\ length us = S (length us').
Proof.
  intros (Hu & -> & ->) Hnz Hle.
  destruct us as [|u us]; [rewrite rd_nil in Hnz; congruence|].
  inversion Hu as [|? ? Hu1 Hus]; subst.
  cbn [map] in Hle; rewrite rd_cons_0 in Hle.
  destruct (utf8_unit_parts u Hu1) as [_ Hr].
  assert (Hf : rd u 0 <= SINGLETON_LIMIT).
  { rewrite (code_first u Hr).
    rewrite N.mod_small by (limits; lia); exact Hle. }
  rewrite (utf8_unit_single u Hu1 Hf).
  exists us; repeat split; assumption.
Qed.

(** Advancing over one code point. *)
Lemma encodes_advance (us : list ptr) (w W : ptr) :
  encodes us w W -> rd W 0 <> 0 ->
  exists us', encodes us' (fst (CodePointAdvance w)) (tl W) /\
              length us = S (length us').
Proof.
  intros (Hu & -> & ->) Hnz.
  destruct us as [|u us]; [rewrite rd_nil in Hnz; congruence|].
  inversion Hu as [|? ? Hu1 Hus]; subst.
  destruct (utf8_unit_parts u Hu1) as [Hcp _].
  cbn [concat].
  rewrite (advance_code_point u (concat us) Hcp)
    by (apply cstring_concat, units_code_points; exact Hus).
  exists us; repeat split; assumption.
Qed.

Lemma CodePointCompare_at_end (t : ptr) :
  CodePointCompare [] t = (rd t 0 =? 0).
Proof.
  unfold CodePointCompare; rewrite !rd_nil.
  rewrite (N.eqb_sym 0 (rd t 0)).
  destruct (rd t 0 =? 0); reflexivity.
Qed.

Lemma CodePointCompare_encoded (pus tus : list ptr) (w W t T : ptr) :
  encodes pus w W -> encodes tus t T ->
  CodePointCompare w t = (rd W 0 =? rd T 0).
Proof.
  intros Hw Ht; pose proof (encodes_cstring _ _ _ Ht) as Hct.
  destruct Hw as (Hpu & -> & ->), Ht as (Htu & -> & ->).
  destruct pus as [|u pus].
  { cbn [concat map]; rewrite CodePointCompare_at_end, rd_nil.
    rewrite (N.eqb_sym 0).
    apply (encodes_at_end tus); repeat split; assumption. }
  inversion Hpu as [|? ? Hu1 _]; subst.
  destruct (utf8_unit_parts u Hu1) as [Hcu _].
  destruct (code_point_parts u Hcu) as (Hlu & _ & Hne & _).
  cbn [concat map]; rewrite rd_cons_0.
  rewrite (CodePointCompare_code_point u _ _ Hcu Hct).
  destruct tus as [|v tus].
  { cbn [concat map]; rewrite rd_nil, firstn_nil.
    pose proof (utf8_unit_code_nonzero u Hu1).
    destruct (N.eqb_spec (code u) 0); [contradiction|].
    unfold ptr_eqb; destruct (list_eq_dec N.eq_dec u []); [contradiction|].
    reflexivity. }
  inversion Htu as [|? ? Hv1 _]; subst.
  destruct (utf8_unit_parts v Hv1) as [Hcv _].
  destruct (code_point_parts v Hcv) as (Hlv & _ & Hnev & _).
  cbn [concat map]; rewrite rd_cons_0.
  assert (Hposu : (0 < length u)%nat)
    by (destruct u; [contradiction|simpl; lia]).
  assert (Hposv : (0 < length v)%nat)
    by (destruct v; [contradiction|simpl; lia]).
  destruct (N.eqb_spec (code u) (code v)) as [E|E].
  - apply (utf8_unit_equal u v Hu1 Hv1) in E; subst v.
    apply ptr_eqb_true.
    rewrite firstn_app, firstn_all, Nat.sub_diag; cbn [firstn].
    rewrite app_nil_r; reflexivity.
  - destruct (ptr_eqb u (firstn (length u) (v ++ concat tus))) eqn:F;
      [|reflexivity].
    apply ptr_eqb_true in F; exfalso; apply E.
    assert (H0 : rd u 0 = rd v 0).
    { rewrite F at 1; rewrite rd_firstn by exact Hposu.
      apply rd_app_l; exact Hposv. }
    assert (Hl : length u = length v) by congruence.
    rewrite Hl, firstn_app, firstn_all, Nat.sub_diag in F.
    cbn [firstn] in F; rewrite app_nil_r in F; congruence.
Qed.

(** ** The matcher on bytes and [FastWildCompare] on numbers *)

Lemma refines_by_bind {A B C D : Type} (R : A -> B -> Prop)
    (R' : C -> D -> Prop) (o : outcome A) (o' : outcome B)
    (k : A -> outcome C) (k' : B -> outcome D) :
  refines_by R o o' ->
  (forall a a', R a a' -> o' = Proceed a' ->
                refines_by R' (k a) (k' a')) ->
  refines_by R' (bind o k) (bind o' k').
Proof.
  intros [->|H] Hk; [left; reflexivity|].
  destruct o as [b|a|], o' as [b'|a'|]; try contradiction; cbn [bind].
  - right; exact H.
  - apply Hk; [exact H|reflexivity].
Qed.

Lemma refines_by_verdict {A B : Type} (R : A -> B -> Prop)
    (o : outcome A) (o' : outcome B) (b : bool) :
  refines_by R o o' -> verdict_of o = Some b -> verdict_of o' = Some b.
Proof.
  intros [->|H]; [discriminate|].
  destruct o as [c|a|], o' as [c'|a'|]; try contradiction; cbn [verdict_of];
    try discriminate.
  subst c'; auto.
Qed.

Lemma refines_by_return {A B : Type} (R : A -> B -> Prop) (b : bool) :
  refines_by R (Return b) (Return b).
Proof. right; reflexivity. Qed.

Lemma refines_by_proceed {A B : Type} (R : A -> B -> Prop) (a : A) (a' : B) :
  R a a' -> refines_by R (Proceed a) (Proceed a').
Proof. intros H; right; exact H. Qed.

(** ** The wild string behind a star *)

Lemma no_question_after_star_tl (W : ptr) :
  no_question_after_star W = true -> no_question_after_star (tl W) = true.
Proof.
  destruct W as [|c W]; [auto|].
  cbn [no_question_after_star tl]; rewrite andb_true_iff; tauto.
Qed.

Lemma no_question_after_star_skip_stars (W : ptr) :
  no_question_after_star W = true ->
  no_question_after_star (skip_stars W) = true.
Proof.
  induction W as [|c W IH]; [auto|].
  intros H; cbn [skip_stars]; destruct (c =? STAR); [|exact H].
  apply IH; apply (no_question_after_star_tl _ H).
Qed.

Lemma no_question_after_star_head (W : ptr) :
  no_question_after_star W = true -> rd W 0 = STAR ->
  rd (skip_stars (tl W)) 0 <> QUESTION.
Proof.
  destruct W as [|c W]; [rewrite rd_nil; discriminate|].
  rewrite rd_cons_0; intros H ->.
  cbn [no_question_after_star tl] in *.
  rewrite N.eqb_refl, andb_true_iff, negb_true_iff, N.eqb_neq in H; tauto.
Qed.

(** ** Steps on bytes and on numbers *)

Lemma encoded_cstring (w W : ptr) : encoded w W -> cstring w = true.
Proof. intros [us H]; exact (encodes_cstring _ _ _ H). Qed.

Lemma encoded_first (w W : ptr) (c : N) :
  encoded w W -> c <= SINGLETON_LIMIT -> (rd w 0 =? c) = (rd W 0 =? c).
Proof. intros [us H]; apply (encodes_first _ _ _ _ H). Qed.

Lemma encoded_at_end (w W : ptr) :
  encoded w W -> (rd w 0 =? 0) = (rd W 0 =? 0).
Proof. intros [us H]; apply (encodes_at_end _ _ _ H). Qed.

Lemma encoded_star (w W : ptr) :
  encoded w W -> (rd w 0 =? STAR) = (rd W 0 =? STAR).
Proof. intros H; apply (encoded_first _ _ _ H); limits; unfold STAR; lia. Qed.

Lemma encoded_question (w W : ptr) :
  encoded w W -> (rd w 0 =? QUESTION) = (rd W 0 =? QUESTION).
Proof.
  intros H; apply (encoded_first _ _ _ H); limits; unfold QUESTION; lia.
Qed.

Lemma encoded_nil : encoded [] [].
Proof. exists []; repeat split; constructor. Qed.

Lemma encoded_compare (w W t T : ptr) :
  encoded w W -> encoded t T ->
  CodePointCompare w t = (rd W 0 =? rd T 0).
Proof.
  intros [pus Hw] [tus Ht]; exact (CodePointCompare_encoded _ _ _ _ _ _ Hw Ht).
Qed.

Lemma encoded_advance (w W : ptr) :
  encoded w W ->
  exists w', CodePointAdvance w = (w', nonzero (rd w' 0)) /\
             encoded w' (tl W).
Proof.
  intros (us & Hu & -> & ->).
  destruct us as [|u us].
  { exists []; split; [reflexivity|apply encoded_nil]. }
  inversion Hu as [|? ? Hu1 Hus]; subst.
  destruct (utf8_unit_parts u Hu1) as [Hcp _].
  exists (concat us); split.
  - cbn [concat]; apply advance_code_point;
      [exact Hcp|apply cstring_concat, units_code_points; exact Hus].
  - exists us; repeat split; assumption.
Qed.

Lemma encoded_tl_star (w W : ptr) :
  encoded w W -> rd W 0 = STAR -> encoded (tl w) (tl W).
Proof.
  intros [us H] Hs.
  destruct (encodes_tl_single us w W H) as (us' & H' & _).
  - rewrite Hs; discriminate.
  - rewrite Hs; limits; unfold STAR; lia.
  - exists us'; exact H'.
Qed.

Lemma utf8_unit_star (u : ptr) :
  utf8_unit u = true -> rd u 0 = STAR -> u = [STAR].
Proof.
  intros Hu E; rewrite (utf8_unit_single u Hu), E; [reflexivity|].
  rewrite E; limits; unfold STAR; lia.
Qed.

Lemma skip_stars_no_star (w : ptr) : rd w 0 <> STAR -> skip_stars w = w.
Proof.
  destruct w as [|b w]; [reflexivity|].
  rewrite rd_cons_0; intros H; cbn [skip_stars].
  destruct (N.eqb_spec b STAR); [contradiction|reflexivity].
Qed.

Lemma encoded_skip_stars (w W : ptr) :
  encoded w W -> encoded (skip_stars w) (skip_stars W).
Proof.
  intros (us & Hu & -> & ->).
  induction Hu as [|u us Hu1 Hus IH]; [apply encoded_nil|].
  assert (He : encoded (concat (u :: us)) (map code (u :: us))).
  { exists (u :: us); repeat split; constructor; assumption. }
  pose proof (encoded_star _ _ He) as Es.
  destruct (N.eqb_spec (rd (map code (u :: us)) 0) STAR) as [E|E].
  - cbn [map] in E; rewrite rd_cons_0 in E.
    assert (Hs : rd u 0 = STAR).
    { apply N.eqb_eq; rewrite utf8_unit_first_is;
        [apply N.eqb_eq; exact E|exact Hu1|limits; unfold STAR; lia]. }
    rewrite (utf8_unit_star u Hu1 Hs); cbn [concat map app code fold_right].
    cbn [skip_stars]; replace (STAR + 256 * 0) with STAR by reflexivity.
    rewrite N.eqb_refl; exact IH.
  - apply N.eqb_neq in Es.
    rewrite (skip_stars_no_star _ E), (skip_stars_no_star _ Es); exact He.
Qed.

Lemma encoded_only_stars_left (w W : ptr) :
  encoded w W -> only_stars_left w = only_stars_left W.
Proof.
  intros (us & Hu & -> & ->).
  induction Hu as [|u us Hu1 Hus IH]; [reflexivity|].
  assert (He : encoded (concat (u :: us)) (map code (u :: us))).
  { exists (u :: us); repeat split; constructor; assumption. }
  assert (He' : encoded (concat us) (map code us)).
  { exists us; repeat split; assumption. }
  pose proof (encoded_star _ _ He) as Es.
  destruct (N.eqb_spec (rd (map code (u :: us)) 0) STAR) as [E|E].
  - cbn [map] in E; rewrite rd_cons_0 in E.
    assert (Hs : rd u 0 = STAR).
    { apply N.eqb_eq; rewrite utf8_unit_first_is;
        [apply N.eqb_eq; exact E|exact Hu1|limits; unfold STAR; lia]. }
    rewrite (utf8_unit_star u Hu1 Hs); cbn [concat map app code fold_right].
    cbn [only_stars_left]; replace (STAR + 256 * 0) with STAR by reflexivity.
    rewrite N.eqb_refl, (encoded_at_end _ _ He'), IH; reflexivity.
  - apply N.eqb_neq in Es.
    destruct (concat (u :: us)) as [|b w];
      destruct (map code (u :: us)) as [|c W]; try reflexivity;
      rewrite ?rd_cons_0, ?rd_nil in *; cbn [only_stars_left].
    + destruct (N.eqb_spec c STAR); [contradiction|reflexivity].
    + destruct (N.eqb_spec b STAR); [contradiction|reflexivity].
    + destruct (N.eqb_spec b STAR); [contradiction|].
      destruct (N.eqb_spec c STAR); [contradiction|reflexivity].
Qed.

(** The loop of line 176 leaves the wild pointer behind the run of
    stars. *)
Lemma skip_stars_advancing_encoded (gas : nat) (w W : ptr) :
  encoded w W -> rd W 0 = STAR ->
  refines_by encoded (skip_stars_advancing gas w)
             (Proceed (skip_stars (tl W))).
Proof.
  revert w W; induction gas as [|gas IH]; intros w W He Hs;
    [left; reflexivity|].
  cbn [skip_stars_advancing].
  destruct (encoded_advance w W He) as (w' & -> & He').
  pose proof (encoded_star _ _ He') as Es.
  pose proof (encoded_at_end _ _ He') as E0.
  unfold nonzero; rewrite Es, E0.
  destruct (N.eqb_spec (rd (tl W) 0) STAR) as [E|E].
  - rewrite E; cbn [N.eqb negb andb].
    replace (STAR =? 0) with false by reflexivity; cbn [negb andb].
    replace (skip_stars (tl W)) with (skip_stars (tl (tl W))).
    + apply IH; assumption.
    + destruct (tl W) as [|c W']; [reflexivity|].
      rewrite rd_cons_0 in E; subst c; cbn [tl skip_stars].
      rewrite N.eqb_refl; reflexivity.
  - rewrite andb_false_r.
    rewrite (skip_stars_no_star _ E); right; exact He'.
Qed.

Lemma seek_encoded (gas : nat) (w W t T : ptr) :
  encoded w W -> encoded t T ->
  refines_by encoded (seek gas w t) (byte_seek W T).
Proof.
  intros Hw; revert t T; induction gas as [|gas IH]; intros t T Ht;
    [left; reflexivity|].
  cbn [seek]; rewrite (encoded_compare _ _ _ _ Hw Ht).
  destruct (encoded_advance t T Ht) as (t' & -> & Ht').
  pose proof (encoded_at_end _ _ Ht') as E0.
  destruct T as [|d T]; cbn [byte_seek tl] in *.
  - rewrite rd_nil in *.
    destruct (rd W 0 =? 0); [right; exact Ht|].
    apply N.eqb_eq in E0; rewrite E0; right; reflexivity.
  - rewrite rd_cons_0.
    destruct (rd W 0 =? d); [right; exact Ht|].
    unfold nonzero; rewrite E0.
    destruct (rd T 0 =? 0); cbn [negb]; [right; reflexivity|].
    apply IH; exact Ht'.
Qed.

Lemma retry_encoded (gas : nat) (w W ts TS : ptr) :
  encoded w W -> encoded ts TS ->
  refines_by encoded (retry gas w ts) (byte_retry W TS).
Proof.
  intros Hw; revert ts TS; induction gas as [|gas IH]; intros ts TS Ht;
    [left; reflexivity|].
  cbn [retry]; unfold CodePointAdvanceAndCompare.
  destruct (encoded_advance ts TS Ht) as (ts' & Ha & Ht').
  unfold CodePointAdvance in Ha; injection Ha as Ha _; rewrite Ha.
  rewrite (encoded_compare _ _ _ _ Hw Ht').
  pose proof (encoded_at_end _ _ Ht') as E0; rewrite E0.
  destruct TS as [|d TS]; cbn [byte_retry tl] in *.
  - rewrite rd_nil in *.
    destruct (rd W 0 =? 0); [right; exact Ht'|right; reflexivity].
  - destruct (rd W 0 =? rd TS 0); [right; exact Ht'|].
    destruct (rd TS 0 =? 0); [right; reflexivity|].
    apply IH; exact Ht'.
Qed.

Lemma upper_loop_encoded (gas : nat) (w W t T : ptr) :
  encoded w W -> encoded t T -> no_question_after_star W = true ->
  refines_by encoded_pair (upper_loop gas w t) (byte_upper_loop gas W T).
Proof.
  revert w W t T; induction gas as [|gas IH]; intros w W t T Hw Ht Hn;
    [left; reflexivity|].
  cbn [upper_loop byte_upper_loop].
  unfold nonzero.
  rewrite (encoded_at_end _ _ Ht), (encoded_at_end _ _ Hw),
    (encoded_star _ _ Hw), (encoded_question _ _ Hw),
    (encoded_compare _ _ _ _ Hw Ht), (encoded_only_stars_left _ _ Hw).
  destruct (rd T 0 =? 0).
  { destruct (negb (rd W 0 =? 0)); right; reflexivity. }
  destruct (N.eqb_spec (rd W 0) STAR) as [Es|Es].
  { pose proof (no_question_after_star_head W Hn Es) as Hq.
    pose proof (no_question_after_star_skip_stars _
                  (no_question_after_star_tl _ Hn)) as Hn'.
    apply (refines_by_bind encoded encoded_pair
             (skip_stars_advancing gas w)
             (Proceed (skip_stars (tl W)))
             _ (fun pWild' => _)).
    - apply skip_stars_advancing_encoded; assumption.
    - intros w' W' Hw' HW'; injection HW' as <-.
      rewrite (encoded_at_end _ _ Hw'), (encoded_question _ _ Hw').
      destruct (rd (skip_stars (tl W)) 0 =? 0); [right; reflexivity|].
      apply (refines_by_bind encoded).
      + destruct (negb (rd (skip_stars (tl W)) 0 =? QUESTION));
          [apply seek_encoded; assumption|right; exact Ht].
      + intros t' T' Ht' _; right; cbn [fst snd].
        repeat split; assumption. }
  destruct (negb (rd W 0 =? rd T 0) && negb (rd W 0 =? QUESTION));
    [right; reflexivity|].
  destruct (encoded_advance w W Hw) as (w' & -> & Hw').
  destruct (encoded_advance t T Ht) as (t' & -> & Ht').
  cbn [fst]; apply IH; try assumption.
  apply no_question_after_star_tl; exact Hn.
Qed.

Lemma skip_questions_none (ws ts : ptr) :
  rd ws 0 <> QUESTION -> skip_questions ws ts = (ws, ts).
Proof.
  destruct ws as [|c ws]; [reflexivity|].
  rewrite rd_cons_0; intros H; cbn [skip_questions].
  destruct (N.eqb_spec c QUESTION); [contradiction|reflexivity].
Qed.

Lemma lower_branch_encoded (gas : nat) (s S : cursors) :
  encoded_cursors s S ->
  refines_by encoded_cursors (lower_branch gas s) (byte_lower_branch S).
Proof.
  destruct s as [w t ws ts], S as [W T WS TS].
  intros (Hw & Ht & Hws & Hts & Hn & Hns & Hq);
    cbn [pWild pTame pWildSequence pTameSequence] in *.
  unfold lower_branch, byte_lower_branch;
    cbn [pWild pTame pWildSequence pTameSequence].
  rewrite (encoded_at_end _ _ Ht), (encoded_star _ _ Hw),
    (encoded_question _ _ Hw), (encoded_compare _ _ _ _ Hw Ht).
  destruct (N.eqb_spec (rd W 0) STAR) as [Es|Es].
  { pose proof (no_question_after_star_head W Hn Es) as Hq'.
    pose proof (no_question_after_star_skip_stars _
                  (no_question_after_star_tl _ Hn)) as Hn'.
    pose proof (encoded_skip_stars _ _ (encoded_tl_star _ _ Hw Es)) as Hw'.
    rewrite (encoded_at_end _ _ Hw'), (encoded_question _ _ Hw').
    destruct (rd (skip_stars (tl W)) 0 =? 0); [right; reflexivity|].
    destruct (rd T 0 =? 0); [right; reflexivity|].
    apply (refines_by_bind encoded).
    + destruct (negb (rd (skip_stars (tl W)) 0 =? QUESTION));
        [apply seek_encoded; assumption|right; exact Ht].
    + intros t' T' Ht' _; right.
      repeat split; cbn [pWild pTame pWildSequence pTameSequence];
        assumption. }
  destruct (negb (rd W 0 =? rd T 0) && negb (rd W 0 =? QUESTION)).
  - destruct (rd T 0 =? 0); [right; reflexivity|].
    assert (Hq0 : rd ws 0 <> QUESTION).
    { intros F; apply Hq; apply N.eqb_eq.
      rewrite <- (encoded_question _ _ Hws); apply N.eqb_eq; exact F. }
    rewrite (skip_questions_none ws ts Hq0), (skip_questions_none WS TS Hq).
    apply (refines_by_bind encoded).
    + apply retry_encoded; assumption.
    + intros t' T' Ht' _; right.
      repeat split; cbn [pWild pTame pWildSequence pTameSequence];
        assumption.
  - right; repeat split; cbn [pWild pTame pWildSequence pTameSequence];
      assumption.
Qed.

Lemma lower_loop_encoded (gas : nat) (s S : cursors) :
  encoded_cursors s S ->
  refines_by encoded_cursors (lower_loop gas s) (byte_lower_loop gas S).
Proof.
  revert s S; induction gas as [|gas IH]; intros s S Hs;
    [left; reflexivity|].
  cbn [lower_loop byte_lower_loop].
  apply (refines_by_bind encoded_cursors).
  - apply lower_branch_encoded; exact Hs.
  - intros [w t ws ts] [W T WS TS] (Hw & Ht & Hws & Hts & Hn & Hns & Hq) _;
      cbn [pWild pTame pWildSequence pTameSequence] in *.
    rewrite (encoded_at_end _ _ Ht), (encoded_at_end _ _ Hw).
    destruct (rd T 0 =? 0); [right; reflexivity|].
    destruct (encoded_advance w W Hw) as (w' & -> & Hw').
    destruct (encoded_advance t T Ht) as (t' & -> & Ht').
    cbn [fst]; apply IH.
    repeat split; cbn [pWild pTame pWildSequence pTameSequence];
      try assumption.
    apply no_question_after_star_tl; exact Hn.
Qed.

Lemma FastWildCompare_gas_correct (gas : nat) (p t : ptr) :
  cstring p = true -> cstring t = true -> (gas_for p t <= gas)%nat ->
  FastWildCompare_gas gas p t = Some (glob p t).
Proof.
  intros Hp Ht Hgas; unfold FastWildCompare_gas.
  unfold gas_for in Hgas.
  pose proof (byte_upper_loop_correct gas p t Hp Ht) as Hu.
  destruct (byte_upper_loop gas p t) as [b|[w' t']|];
    cbn [bind verdict_of].
  - rewrite Hu; [reflexivity|nia].
  - destruct Hu as (Hg & Hw' & Ht' & Hl); [nia|].
    cbn [fst snd] in *.
    rewrite (byte_lower_loop_correct _ (glob p t)); [reflexivity| |].
    + exists [], []; cbn [pWild pTame pWildSequence pTameSequence app].
      repeat split; try assumption; constructor.
    + cbn [pWild pTame pWildSequence pTameSequence]; nia.
  - exfalso; apply Hu; nia.
Qed.

Lemma length_units (us : list ptr) :
  Forall (fun u => utf8_unit u = true) us ->
  (length us <= length (concat us))%nat.
Proof.
  induction 1 as [|u us Hu _ IH]; [reflexivity|].
  destruct (utf8_unit_parts u Hu) as [Hcp _].
  destruct (code_point_parts u Hcp) as (_ & _ & Hne & _).
  cbn [concat length]; rewrite length_app.
  destruct u; [contradiction|simpl; lia].
Qed.

Lemma cstring_codes (us : list ptr) :
  Forall (fun u => utf8_unit u = true) us -> cstring (map code us) = true.
Proof.
  induction 1 as [|u us Hu _ IH]; [reflexivity|].
  cbn [map]; apply cstring_cons; split; [|exact IH].
  apply utf8_unit_code_nonzero; exact Hu.
Qed.

(** On strings of whole code points, with no question mark next behind a
    star, [FastWildCompareUtf8] decides matching code point by code
    point. *)
Lemma utf8_matcher_on_code_points (pus tus : list ptr) :
  Forall (fun u => utf8_unit u = true) pus ->
  Forall (fun u => utf8_unit u = true) tus ->
  no_question_after_star (map code pus) = true ->
  FastWildCompareUtf8 (concat pus) (concat tus)
  = Some (glob (map code pus) (map code tus)).
Proof.
  intros Hp Ht Hn.
  set (p := concat pus); set (t := concat tus).
  destruct (FastWildCompareUtf8_gas_settled (gas_for p t) p t) as [b Hb];
    [lia|].
  unfold FastWildCompareUtf8; rewrite Hb; f_equal.
  assert (Hb' : FastWildCompare_gas (gas_for p t) (map code pus)
                  (map code tus) = Some b).
  { unfold FastWildCompareUtf8_gas in Hb; unfold FastWildCompare_gas.
    revert Hb; apply (refines_by_verdict encoded_cursors).
    apply (refines_by_bind encoded_pair).
    - apply upper_loop_encoded;
        [exists pus|exists tus|]; repeat split; assumption.
    - intros [w' t'] [W' T'] (Hw' & Ht' & Hn' & Hq') _; cbn [fst snd] in *.
      apply lower_loop_encoded.
      repeat split; cbn [pWild pTame pWildSequence pTameSequence];
        assumption. }
  rewrite FastWildCompare_gas_correct in Hb'.
  - congruence.
  - apply cstring_codes; exact Hp.
  - apply cstring_codes; exact Ht.
  - pose proof (length_units pus Hp); pose proof (length_units tus Ht).
    unfold gas_for, p, t; rewrite !length_map; nia.
Qed.

(** ** The matcher with limits *)

Lemma encoded_codes_cstring (w W : ptr) : encoded w W -> cstring W = true.
Proof. intros (us & Hu & _ & ->); apply cstring_codes; exact Hu. Qed.

Lemma index_of_at_end (len : Z) (p : ptr) (i : Z) :
  cstring p = true -> index_of len p i -> (len <=? i)%Z = (rd p 0 =? 0).
Proof.
  intros Hs Hi; unfold index_of in Hi.
  destruct p as [|b p].
  - rewrite rd_nil; simpl in *; destruct (Z.leb_spec len i); [reflexivity|lia].
  - apply cstring_cons in Hs; destruct Hs as [Hb _].
    rewrite rd_cons_0; simpl length in Hi.
    destruct (N.eqb_spec b 0); [contradiction|].
    destruct (Z.leb_spec len i); [lia|reflexivity].
Qed.

Lemma index_below_at_end (len : Z) (p : ptr) (i : Z) :
  cstring p = true -> index_below len p i ->
  (len <=? i)%Z || (rd p 0 =? 0) = (rd p 0 =? 0).
Proof.
  intros Hs Hi; unfold index_below in Hi.
  destruct (N.eqb_spec (rd p 0) 0) as [E|E]; [apply orb_true_r|].
  destruct p as [|b p]; [rewrite rd_nil in E; contradiction|].
  simpl length in Hi.
  destruct (Z.leb_spec len i); [lia|reflexivity].
Qed.

Section CodePointLimits.

Variables lenWild lenTame : Z.

Lemma len_only_stars_left_encoded (w W : ptr) (i : Z) :
  encoded w W -> index_of lenWild W i ->
  len_only_stars_left w i lenWild = only_stars_left W.
Proof.
  intros (us & Hu & -> & ->); revert i.
  induction Hu as [|u us Hu1 Hus IH]; intros i Hi; [reflexivity|].
  assert (He : encoded (concat (u :: us)) (map code (u :: us))).
  { exists (u :: us); repeat split; constructor; assumption. }
  assert (He' : encoded (concat us) (map code us)).
  { exists us; repeat split; assumption. }
  pose proof (encoded_star _ _ He) as Es.
  destruct (N.eqb_spec (rd (map code (u :: us)) 0) STAR) as [E|E].
  - assert (Hi' : index_of lenWild (map code us) (i + 1)).
    { apply (index_of_tl _ (map code (u :: us)));
        [rewrite E; discriminate|exact Hi]. }
    cbn [map] in E; rewrite rd_cons_0 in E.
    assert (Hs : rd u 0 = STAR).
    { apply N.eqb_eq; rewrite utf8_unit_first_is;
        [apply N.eqb_eq; exact E|exact Hu1|limits; unfold STAR; lia]. }
    rewrite (utf8_unit_star u Hu1 Hs); cbn [concat map app code fold_right].
    cbn [only_stars_left len_only_stars_left].
    replace (STAR + 256 * 0) with STAR by reflexivity.
    rewrite N.eqb_refl.
    rewrite (index_of_at_end _ _ _ (encoded_codes_cstring _ _ He') Hi').
    rewrite (IH _ Hi'); reflexivity.
  - apply N.eqb_neq in Es.
    destruct (concat (u :: us)) as [|b w];
      destruct (map code (u :: us)) as [|c W]; try reflexivity;
      rewrite ?rd_cons_0, ?rd_nil in *;
      cbn [only_stars_left len_only_stars_left].
    + destruct (N.eqb_spec c STAR); [contradiction|reflexivity].
    + destruct (N.eqb_spec b STAR); [contradiction|reflexivity].
    + destruct (N.eqb_spec b STAR); [contradiction|].
      destruct (N.eqb_spec c STAR); [contradiction|reflexivity].
Qed.

Lemma len_skip_stars_advancing_encoded (gas : nat) (w W : ptr) (i : Z) :
  encoded w W -> rd W 0 <> 0 -> index_of lenWild W i ->
  refines_by (fun wi W' => encoded (fst wi) W' /\
                (rd W' 0 <> 0 -> index_of lenWild W' (snd wi)))
             (len_skip_stars_advancing gas w i lenWild)
             (Proceed (skip_stars (tl W))).
Proof.
  revert w W i; induction gas as [|gas IH]; intros w W i He Hnz Hi;
    [left; reflexivity|].
  cbn [len_skip_stars_advancing].
  destruct (encoded_advance w W He) as (w' & -> & He').
  pose proof (encoded_star _ _ He') as Es.
  pose proof (encoded_at_end _ _ He') as E0.
  pose proof (index_of_tl _ _ _ Hnz Hi) as Hi'.
  pose proof (index_of_at_end _ _ _ (encoded_codes_cstring _ _ He') Hi')
    as Hend.
  unfold nonzero; rewrite Es, E0.
  destruct (N.eqb_spec (rd (tl W) 0) 0) as [Ez|Ez]; cbn [negb].
  { assert (Hnil : tl W = []).
    { apply (cstring_rd_0 _ (encoded_codes_cstring _ _ He')); exact Ez. }
    rewrite Hnil in *; cbn [skip_stars]; right; cbn [fst snd].
    split; [exact He'|rewrite rd_nil; congruence]. }
  rewrite Z.ltb_antisym, Hend; cbn [negb]; rewrite andb_true_r.
  destruct (N.eqb_spec (rd (tl W) 0) STAR) as [E|E].
  - replace (skip_stars (tl W)) with (skip_stars (tl (tl W))).
    + apply IH; assumption.
    + destruct (tl W) as [|c W']; [reflexivity|].
      rewrite rd_cons_0 in E; subst c; cbn [tl skip_stars].
      rewrite N.eqb_refl; reflexivity.
  - rewrite (skip_stars_no_star _ E); right; cbn [fst snd]; auto.
Qed.

Lemma len_seek_encoded (gas : nat) (w W t T : ptr) (i : Z) :
  encoded w W -> encoded t T -> index_below lenTame T i ->
  refines_by (fun ti T' => encoded (fst ti) T' /\
                           index_below lenTame T' (snd ti))
             (len_seek gas w t i) (byte_seek W T).
Proof.
  intros Hw; revert t T i; induction gas as [|gas IH]; intros t T i Ht Hi;
    [left; reflexivity|].
  cbn [len_seek]; rewrite (encoded_compare _ _ _ _ Hw Ht).
  destruct (encoded_advance t T Ht) as (t' & -> & Ht').
  pose proof (encoded_at_end _ _ Ht') as E0.
  destruct T as [|d T]; cbn [byte_seek tl] in *.
  - rewrite rd_nil in *.
    destruct (rd W 0 =? 0); [right; cbn [fst snd]; auto|].
    unfold nonzero; rewrite E0; right; reflexivity.
  - rewrite rd_cons_0.
    destruct (rd W 0 =? d); [right; cbn [fst snd]; auto|].
    unfold nonzero; rewrite E0.
    destruct (rd T 0 =? 0); cbn [negb]; [right; reflexivity|].
    apply IH; [exact Ht'|].
    apply (index_below_tl _ (d :: T)); [|exact Hi].
    apply encoded_codes_cstring, cstring_cons in Ht.
    rewrite rd_cons_0; tauto.
Qed.

Lemma len_skip_stars_encoded (w W : ptr) (i : Z) :
  encoded w W -> index_of lenWild W i ->
  match len_skip_stars w i lenWild with
  | Return b => b = true /\ rd (skip_stars W) 0 = 0
  | Proceed wi => encoded (fst wi) (skip_stars W) /\
                  index_of lenWild (skip_stars W) (snd wi)
  | OutOfGas => False
  end.
Proof.
  intros (us & Hu & -> & ->); revert i.
  induction Hu as [|u us Hu1 Hus IH]; intros i Hi.
  { cbn; split; [apply encoded_nil|exact Hi]. }
  assert (He : encoded (concat (u :: us)) (map code (u :: us))).
  { exists (u :: us); repeat split; constructor; assumption. }
  assert (He' : encoded (concat us) (map code us)).
  { exists us; repeat split; assumption. }
  pose proof (encoded_star _ _ He) as Es.
  destruct (N.eqb_spec (rd (map code (u :: us)) 0) STAR) as [E|E].
  - assert (Hi' : index_of lenWild (map code us) (i + 1)).
    { apply (index_of_tl _ (map code (u :: us)));
        [rewrite E; discriminate|exact Hi]. }
    cbn [map] in E; rewrite rd_cons_0 in E.
    assert (Hs : rd u 0 = STAR).
    { apply N.eqb_eq; rewrite utf8_unit_first_is;
        [apply N.eqb_eq; exact E|exact Hu1|limits; unfold STAR; lia]. }
    rewrite (utf8_unit_star u Hu1 Hs); cbn [concat map app code fold_right].
    cbn [skip_stars len_skip_stars].
    replace (STAR + 256 * 0) with STAR by reflexivity.
    rewrite N.eqb_refl.
    rewrite (index_of_at_end _ _ _ (encoded_codes_cstring _ _ He') Hi').
    destruct (N.eqb_spec (rd (map code us) 0) 0) as [Ez|Ez];
      [|apply IH; exact Hi'].
    apply (cstring_rd_0 _ (encoded_codes_cstring _ _ He')) in Ez.
    rewrite Ez; cbn; auto.
  - apply N.eqb_neq in Es.
    rewrite (skip_stars_no_star _ E).
    destruct (concat (u :: us)) as [|b w] eqn:F.
    + cbn [len_skip_stars fst snd]; split; [exact He|exact Hi].
    + rewrite rd_cons_0 in Es; cbn [len_skip_stars].
      destruct (N.eqb_spec b STAR); [contradiction|].
      cbn [fst snd]; split; [exact He|exact Hi].
Qed.

Lemma len_skip_questions_none (ws ts : ptr) (iw it : Z) :
  rd ws 0 <> QUESTION -> len_skip_questions ws ts iw it = (ws, ts, iw, it).
Proof.
  destruct ws as [|c ws]; [reflexivity|].
  rewrite rd_cons_0; intros H; cbn [len_skip_questions].
  destruct (N.eqb_spec c QUESTION); [contradiction|reflexivity].
Qed.

Lemma len_retry_encoded (gas : nat) (w W ts TS : ptr) (i : Z) :
  encoded w W -> encoded ts TS -> index_below lenTame TS i ->
  refines_by (fun ti T' => encoded (fst ti) T' /\
                           index_below lenTame T' (snd ti) /\
                           rd W 0 = rd T' 0)
             (len_retry gas w ts i lenTame) (byte_retry W TS).
Proof.
  intros Hw; revert ts TS i; induction gas as [|gas IH]; intros ts TS i Ht Hi;
    [left; reflexivity|].
  cbn [len_retry]; unfold CodePointAdvanceAndCompare.
  destruct (encoded_advance ts TS Ht) as (ts' & Ha & Ht').
  unfold CodePointAdvance in Ha; injection Ha as Ha _; rewrite Ha.
  rewrite (encoded_compare _ _ _ _ Hw Ht').
  pose proof (encoded_at_end _ _ Ht') as E0; rewrite E0.
  pose proof (index_below_tl_same _ _ _ Hi) as Hi'.
  destruct TS as [|d TS]; cbn [byte_retry tl] in *.
  - rewrite rd_nil in *.
    destruct (N.eqb_spec (rd W 0) 0) as [Ew|Ew].
    + right; cbn [fst snd]; rewrite rd_nil; auto.
    + rewrite orb_true_r; right; reflexivity.
  - destruct (N.eqb_spec (rd W 0) (rd TS 0)) as [Ew|Ew];
      [right; cbn [fst snd]; auto|].
    assert (Hi1 : index_below lenTame TS (i + 1)).
    { apply (index_below_tl _ (d :: TS)); [|exact Hi].
      apply encoded_codes_cstring, cstring_cons in Ht.
      rewrite rd_cons_0; tauto. }
    rewrite (index_below_at_end _ _ _ (encoded_codes_cstring _ _ Ht') Hi1).
    destruct (rd TS 0 =? 0); [right; reflexivity|].
    apply IH; assumption.
Qed.

Lemma len_upper_loop_encoded (gas : nat) (w W t T : ptr) (i : Z) :
  encoded w W -> encoded t T -> no_question_after_star W = true ->
  index_of lenWild W i -> index_below lenTame T i ->
  refines_by (fun r WT =>
                encoded_pair (fst (fst (fst r)), snd (fst (fst r))) WT /\
                index_of lenWild (fst WT) (snd (fst r)) /\
                index_below lenTame (snd WT) (snd r))
             (len_upper_loop gas w t i lenWild lenTame)
             (byte_upper_loop gas W T).
Proof.
  revert w W t T i; induction gas as [|gas IH];
    intros w W t T i Hw Ht Hn Hiw Hit; [left; reflexivity|].
  cbn [len_upper_loop byte_upper_loop].
  pose proof (encoded_codes_cstring _ _ Hw) as HcW.
  pose proof (encoded_codes_cstring _ _ Ht) as HcT.
  unfold nonzero.
  rewrite (encoded_at_end _ _ Ht), (encoded_at_end _ _ Hw),
    (encoded_star _ _ Hw), (encoded_question _ _ Hw),
    (encoded_compare _ _ _ _ Hw Ht).
  rewrite (index_below_at_end _ _ _ HcT Hit).
  pose proof (index_of_at_end _ _ _ HcW Hiw) as Hend.
  rewrite Z.ltb_antisym, Hend.
  destruct (N.eqb_spec (rd T 0) 0) as [Et|Et].
  { destruct (rd W 0 =? 0); cbn [negb andb]; [right; reflexivity|].
    rewrite (len_only_stars_left_encoded _ _ _ Hw Hiw); right; reflexivity. }
  destruct (N.eqb_spec (rd W 0) 0) as [Ew|Ew].
  { rewrite Ew; change (0 =? STAR) with false; cbv iota.
    change (0 =? QUESTION) with false.
    destruct (N.eqb_spec 0 (rd T 0)); [congruence|right; reflexivity]. }
  destruct (N.eqb_spec (rd W 0) STAR) as [Es|Es].
  { pose proof (no_question_after_star_head W Hn Es) as Hq.
    pose proof (no_question_after_star_skip_stars _
                  (no_question_after_star_tl _ Hn)) as Hn'.
    apply (refines_by_bind _ _
             (len_skip_stars_advancing gas w i lenWild)
             (Proceed (skip_stars (tl W)))
             _ (fun pWild' => _)
             (len_skip_stars_advancing_encoded gas w W i Hw Ew Hiw)).
    intros [w' i'] W' [Hw' Hi'] HW'; injection HW' as <-.
    cbn [fst snd] in *.
    rewrite (encoded_at_end _ _ Hw'), (encoded_question _ _ Hw').
    destruct (N.eqb_spec (rd (skip_stars (tl W)) 0) 0) as [Ez|Ez];
      [right; reflexivity|].
    specialize (Hi' Ez).
    apply (refines_by_bind
             (fun ti T' => encoded (fst ti) T' /\
                           index_below lenTame T' (snd ti))).
    + destruct (negb (rd (skip_stars (tl W)) 0 =? QUESTION));
        [apply len_seek_encoded; assumption|right; cbn [fst snd]; auto].
    + intros [t' it'] T' [Ht' Hit'] _; right; cbn [fst snd] in *.
      repeat split; assumption. }
  destruct (negb (rd W 0 =? rd T 0) && negb (rd W 0 =? QUESTION));
    [right; reflexivity|].
  destruct (encoded_advance w W Hw) as (w' & -> & Hw').
  destruct (encoded_advance t T Ht) as (t' & -> & Ht').
  cbn [fst]; apply IH; try assumption.
  - apply no_question_after_star_tl; exact Hn.
  - apply index_of_tl; assumption.
  - apply index_below_tl; assumption.
Qed.

Lemma len_lower_branch_encoded (gas : nat) (ls : len_cursors) (S : cursors) :
  encoded_len_cursors lenWild lenTame ls S ->
  refines_by (fun ls' S' => encoded_len_cursors lenWild lenTame ls' S' /\
                            (rd (pTame S') 0 <> 0 -> rd (pWild S') 0 <> 0))
             (len_lower_branch gas lenWild lenTame ls)
             (byte_lower_branch S).
Proof.
  destruct ls as [w t iw it ws ts iws its], S as [W T WS TS].
  intros Hin; pose proof Hin as Hin0; revert Hin0.
  unfold encoded_len_cursors at 1, encoded_cursors;
    cbn [pWild pTame pWildSequence pTameSequence
         lpWild lpTame lpWildSequence lpTameSequence
         iWild iTame iWildSequence iTameSequence].
  intros ((Hw & Ht & Hws & Hts & Hn & Hns & Hq) & Hiw & Hit & Hiws & Hits).
  pose proof (encoded_codes_cstring _ _ Hw) as HcW.
  pose proof (encoded_codes_cstring _ _ Ht) as HcT.
  unfold len_lower_branch, byte_lower_branch;
    cbn [pWild pTame pWildSequence pTameSequence
         lpWild lpTame lpWildSequence lpTameSequence
         iWild iTame iWildSequence iTameSequence].
  rewrite (encoded_at_end _ _ Ht), (encoded_star _ _ Hw),
    (encoded_question _ _ Hw), (encoded_compare _ _ _ _ Hw Ht).
  rewrite (index_below_at_end _ _ _ HcT Hit).
  destruct (N.eqb_spec (rd W 0) STAR) as [Es|Es].
  { assert (Hnz : rd W 0 <> 0) by (rewrite Es; discriminate).
    pose proof (no_question_after_star_head W Hn Es) as Hq'.
    pose proof (no_question_after_star_skip_stars _
                  (no_question_after_star_tl _ Hn)) as Hn'.
    pose proof (len_skip_stars_encoded (tl w) (tl W) (iw + 1)
                  (encoded_tl_star _ _ Hw Es)
                  (index_of_tl _ _ _ Hnz Hiw)) as Hsk.
    destruct (len_skip_stars (tl w) (iw + 1) lenWild) as [b|[w' i']|];
      [| |contradiction]; cbn [bind].
    - destruct Hsk as [-> Hz]; rewrite Hz; right; reflexivity.
    - cbn [fst snd] in Hsk; destruct Hsk as [Hw' Hi'].
      rewrite (encoded_at_end _ _ Hw'), (encoded_question _ _ Hw').
      rewrite (index_below_at_end _ _ _ (encoded_codes_cstring _ _ Hw')
                 (index_of_below _ _ _ Hi')).
      destruct (N.eqb_spec (rd (skip_stars (tl W)) 0) 0) as [Ez|Ez];
        [right; reflexivity|].
      destruct (rd T 0 =? 0); [right; reflexivity|].
      apply (refines_by_bind
               (fun ti T' => encoded (fst ti) T' /\
                             index_below lenTame T' (snd ti))).
      + destruct (negb (rd (skip_stars (tl W)) 0 =? QUESTION));
          [apply len_seek_encoded; assumption|right; cbn [fst snd]; auto].
      + intros [t' it'] T' [Ht' Hit'] _; right; cbn [fst snd] in *.
        split; [|cbn [pWild]; auto].
        unfold encoded_len_cursors, encoded_cursors;
          cbn [pWild pTame pWildSequence pTameSequence
               lpWild lpTame lpWildSequence lpTameSequence
               iWild iTame iWildSequence iTameSequence].
        repeat split; assumption. }
  destruct (N.eqb_spec (rd W 0) (rd T 0)) as [Ec|Ec]; cbn [negb andb].
  { right; split; [exact Hin|cbn [pWild pTame]; congruence]. }
  destruct (N.eqb_spec (rd W 0) QUESTION) as [Eq|Eq]; cbn [negb].
  { right; split; [exact Hin|cbn [pWild pTame]].
    intros _; rewrite Eq; discriminate. }
  destruct (N.eqb_spec (rd T 0) 0) as [Et|Et]; [right; reflexivity|].
  assert (Hq0 : rd ws 0 <> QUESTION).
  { intros F; apply Hq; apply N.eqb_eq.
    rewrite <- (encoded_question _ _ Hws); apply N.eqb_eq; exact F. }
  rewrite (len_skip_questions_none ws ts _ _ Hq0),
    (skip_questions_none WS TS Hq).
  apply (refines_by_bind _ _ _ _ _ _
           (len_retry_encoded gas ws WS ts TS its Hws Hts Hits)).
  intros [ts' it'] TS' (Hts' & Hit' & Hc) _; right; cbn [fst snd] in *.
  split; [|cbn [pWild pTame]; congruence].
  unfold encoded_len_cursors, encoded_cursors;
    cbn [pWild pTame pWildSequence pTameSequence
         lpWild lpTame lpWildSequence lpTameSequence
         iWild iTame iWildSequence iTameSequence].
  repeat split; assumption.
Qed.

Lemma len_lower_loop_encoded (gas : nat) (ls : len_cursors) (S : cursors) :
  encoded_len_cursors lenWild lenTame ls S ->
  refines_by (fun _ _ => True)
             (len_lower_loop gas lenWild lenTame ls) (byte_lower_loop gas S).
Proof.
  revert ls S; induction gas as [|gas IH]; intros ls S Hin;
    [left; reflexivity|].
  cbn [len_lower_loop byte_lower_loop].
  apply (refines_by_bind _ _ _ _ _ _ (len_lower_branch_encoded gas ls S Hin)).
  clear Hin.
  intros [w t iw it ws ts iws its] [W T WS TS] [Hin Hnz] _.
  unfold encoded_len_cursors, encoded_cursors in Hin;
    cbn [pWild pTame pWildSequence pTameSequence
         lpWild lpTame lpWildSequence lpTameSequence
         iWild iTame iWildSequence iTameSequence] in *.
  destruct Hin as ((Hw & Ht & Hws & Hts & Hn & Hns & Hq)
                   & Hiw & Hit & Hiws & Hits).
  pose proof (encoded_codes_cstring _ _ Hw) as HcW.
  pose proof (encoded_codes_cstring _ _ Ht) as HcT.
  rewrite (encoded_at_end _ _ Ht), (encoded_at_end _ _ Hw).
  rewrite (index_below_at_end _ _ _ HcT Hit).
  rewrite (index_below_at_end _ _ _ HcW (index_of_below _ _ _ Hiw)).
  destruct (N.eqb_spec (rd T 0) 0) as [Et|Et]; [right; reflexivity|].
  specialize (Hnz Et).
  destruct (encoded_advance w W Hw) as (w' & -> & Hw').
  destruct (encoded_advance t T Ht) as (t' & -> & Ht').
  cbn [fst]; apply IH.
  unfold encoded_len_cursors, encoded_cursors;
    cbn [pWild pTame pWildSequence pTameSequence
         lpWild lpTame lpWildSequence lpTameSequence
         iWild iTame iWildSequence iTameSequence].
  repeat split; try assumption.
  - apply no_question_after_star_tl; exact Hn.
  - apply index_of_tl; assumption.
  - apply index_below_tl; assumption.
Qed.

End CodePointLimits.

(** The same for [FastWildLenCompareUtf8], the limit of the wild string at
    its count of code points and that of the tame string at its count or
    beyond. *)
Lemma len_matcher_on_code_points (pus tus : list ptr) (lenTame : Z) :
  Forall (fun u => utf8_unit u = true) pus ->
  Forall (fun u => utf8_unit u = true) tus ->
  no_question_after_star (map code pus) = true ->
  (Z.of_nat (length tus) <= lenTame)%Z ->
  FastWildLenCompareUtf8 (concat pus) (concat tus)
                         (Z.of_nat (length pus)) lenTame
  = Some (glob (map code pus) (map code tus)).
Proof.
  intros Hp Ht Hn Hl.
  set (p := concat pus); set (t := concat tus).
  set (lenWild := Z.of_nat (length pus)).
  destruct (FastWildLenCompareUtf8_gas_settled (gas_for p t) p t
              lenWild lenTame) as [b Hb]; [lia|].
  unfold FastWildLenCompareUtf8; rewrite Hb; f_equal.
  assert (Hb' : FastWildCompare_gas (gas_for p t) (map code pus)
                  (map code tus) = Some b).
  { unfold FastWildLenCompareUtf8_gas in Hb; unfold FastWildCompare_gas.
    revert Hb; apply (refines_by_verdict (fun _ _ => True)).
    apply (refines_by_bind _ _ _ _ _ _
             (len_upper_loop_encoded lenWild lenTame (gas_for p t)
                p (map code pus) t (map code tus) 0%Z
                (ex_intro _ pus (conj Hp (conj eq_refl eq_refl)))
                (ex_intro _ tus (conj Ht (conj eq_refl eq_refl)))
                Hn
                ltac:(unfold index_of, lenWild; rewrite length_map; lia)
                ltac:(unfold index_below; rewrite length_map; lia))).
    intros [[[w' t'] iw] it] [W' T'] ((Hw' & Ht' & Hn' & Hq') & Hiw & Hit) _;
      cbn [fst snd] in *.
    apply len_lower_loop_encoded.
    unfold encoded_len_cursors, encoded_cursors;
      cbn [pWild pTame pWildSequence pTameSequence
           lpWild lpTame lpWildSequence lpTameSequence
           iWild iTame iWildSequence iTameSequence].
    repeat split; assumption. }
  rewrite FastWildCompare_gas_correct in Hb'.
  - congruence.
  - apply cstring_codes; exact Hp.
  - apply cstring_codes; exact Ht.
  - pose proof (length_units pus Hp); pose proof (length_units tus Ht).
    unfold gas_for, p, t; rewrite !length_map; nia.
Qed.

(** ** Stars in a row, and limits at the start *)

Lemma glob_star_ext (x y : ptr) :
  (forall t, glob x t = glob y t) ->
  forall t, glob (STAR :: x) t = glob (STAR :: y) t.
Proof.
  intros H t; induction t as [|d t IH].
  - rewrite (glob_star_unfold x []), (glob_star_unfold y []), H.
    reflexivity.
  - rewrite (glob_star_unfold x (d :: t)), (glob_star_unfold y (d :: t)).
    rewrite H, IH; reflexivity.
Qed.

Lemma glob_app_ext (a x y : ptr) :
  (forall t, glob x t = glob y t) ->
  forall t, glob (a ++ x) t = glob (a ++ y) t.
Proof.
  intros H; induction a as [|c a IH]; intros t; [apply H|].
  cbn [app]; destruct (N.eq_dec c STAR) as [->|Hc].
  - apply glob_star_ext; exact IH.
  - rewrite !glob_cons by exact Hc.
    destruct t as [|d t]; [reflexivity|rewrite IH; reflexivity].
Qed.

Lemma len_only_stars_left_firstn (p : ptr) (i lenWild : Z) :
  (i < lenWild)%Z ->
  len_only_stars_left p i lenWild
  = forallb is_star (firstn (Z.to_nat (lenWild - i)) p)
    && (lenWild - i <=? Z.of_nat (length p))%Z.
Proof.
  revert i; induction p as [|c p IH]; intros i Hi.
  - rewrite firstn_nil; cbn; symmetry; apply Z.leb_gt; lia.
  - cbn [len_only_stars_left].
    replace (Z.to_nat (lenWild - i)) with (S (Z.to_nat (lenWild - (i + 1))))
      by lia.
    cbn [firstn forallb]; unfold is_star at 1.
    destruct (c =? STAR); [|reflexivity]; cbn [andb].
    destruct (Z.leb_spec lenWild (i + 1)) as [H|H].
    + replace (lenWild - (i + 1))%Z with 0%Z by lia.
      cbn [Z.to_nat firstn forallb].
      symmetry; apply Z.leb_le; simpl length; lia.
    + rewrite (IH (i + 1)%Z) by lia; f_equal.
      simpl length.
      destruct (Z.leb_spec (lenWild - (i + 1)) (Z.of_nat (length p)));
        symmetry; [apply Z.leb_le|apply Z.leb_gt]; lia.
Qed.

(** * The cursor on buffers with content behind the terminator *)

Lemma rd_strlen (p : ptr) : rd p (strlen p) = 0.
Proof.
  induction p as [|b p IH]; [reflexivity|].
  cbn [strlen]; destruct (N.eqb_spec b 0) as [->|Hb]; [reflexivity|].
  rewrite rd_cons_S; exact IH.
Qed.

Lemma rd_before_strlen (p : ptr) (i : nat) :
  (i < strlen p)%nat -> rd p i <> 0.
Proof.
  revert i; induction p as [|b p IH]; intros i Hi; [simpl in Hi; lia|].
  cbn [strlen] in Hi; destruct (N.eqb_spec b 0) as [->|Hb]; [lia|].
  destruct i as [|i]; [rewrite rd_cons_0; exact Hb|].
  rewrite rd_cons_S; apply IH; lia.
Qed.

Lemma rd_skipn (m k : nat) (p : ptr) : rd (skipn m p) k = rd p (m + k).
Proof.
  revert p; induction m as [|m IH]; intros p; [reflexivity|].
  destruct p as [|b p]; [rewrite skipn_nil, !rd_nil; reflexivity|].
  cbn [skipn Nat.add]; rewrite rd_cons_S; apply IH.
Qed.

Lemma nonzero_before_terminator (p : ptr) (i : nat) :
  (forall j, (strlen p <= j < nominal_width (rd p 0))%nat -> rd p j = 0) ->
  (i < nominal_width (rd p 0))%nat ->
  nonzero (rd p i) = (i <? strlen p)%nat.
Proof.
  intros H Hi; destruct (Nat.ltb_spec i (strlen p)) as [Hk|Hk].
  - apply nonzero_true, rd_before_strlen; exact Hk.
  - apply nonzero_false, H; lia.
Qed.

Lemma positive_nonzero (b : N) : (0 <? b) = nonzero b.
Proof. unfold nonzero; destruct b; reflexivity. Qed.

Lemma advance_step_terminated (p : ptr) :
  (forall j, (strlen p <= j < nominal_width (rd p 0))%nat -> rd p j = 0) ->
  advance_step p = Nat.min (nominal_width (rd p 0)) (strlen p).
Proof.
  intros H.
  pose proof (nonzero_before_terminator p 0 H) as H0.
  pose proof (nonzero_before_terminator p 1 H) as H1.
  pose proof (nonzero_before_terminator p 2 H) as H2.
  pose proof (nonzero_before_terminator p 3 H) as H3.
  unfold advance_step; rewrite positive_nonzero.
  unfold nominal_width in *.
  destruct (N.ltb_spec THREESOME_LIMIT (rd p 0));
  destruct (N.ltb_spec TWOFER_LIMIT (rd p 0));
  destruct (N.ltb_spec SINGLETON_LIMIT (rd p 0));
    try (limits; lia); cbn [andb bool_to_nat Nat.add];
    rewrite ?H0, ?H1, ?H2, ?H3 by lia;
    destruct (strlen p) as [|[|[|[|k]]]]; reflexivity.
Qed.

(** ** A whole code point at the left of a comparison *)

Lemma nominal_width_second (b : N) :
  SINGLETON_LIMIT < b -> (1 < nominal_width b)%nat.
Proof.
  intros H; unfold nominal_width.
  destruct (N.ltb_spec THREESOME_LIMIT b); [lia|].
  destruct (N.ltb_spec TWOFER_LIMIT b); [lia|].
  destruct (N.ltb_spec SINGLETON_LIMIT b); lia.
Qed.

Lemma nominal_width_third (b : N) :
  TWOFER_LIMIT < b -> (2 < nominal_width b)%nat.
Proof.
  intros H; unfold nominal_width.
  destruct (N.ltb_spec THREESOME_LIMIT b); [lia|].
  destruct (N.ltb_spec TWOFER_LIMIT b); lia.
Qed.

Lemma nominal_width_fourth (b : N) :
  THREESOME_LIMIT < b -> (3 < nominal_width b)%nat.
Proof.
  intros H; unfold nominal_width.
  destruct (N.ltb_spec THREESOME_LIMIT b); lia.
Qed.

Lemma advance_step_whole (u rest : ptr) :
  code_point u = true -> advance_step (u ++ rest) = length u.
Proof.
  intros Hu; destruct (code_point_parts u Hu) as (Hl & Hc & Hne & _).
  assert (Hpos : (0 < length u)%nat)
    by (destruct u; [contradiction|simpl; lia]).
  transitivity (advance_step u).
  - unfold advance_step; rewrite (rd_app_l u rest 0 Hpos).
    destruct (N.ltb_spec SINGLETON_LIMIT (rd u 0)) as [H1|H1];
      [rewrite (rd_app_l u rest 1)
         by (rewrite Hl; apply nominal_width_second; exact H1)|];
    (destruct (N.ltb_spec TWOFER_LIMIT (rd u 0)) as [H2|H2];
      [rewrite (rd_app_l u rest 2)
         by (rewrite Hl; apply nominal_width_third; exact H2)|]);
    (destruct (N.ltb_spec THREESOME_LIMIT (rd u 0)) as [H3|H3];
      [rewrite (rd_app_l u rest 3)
         by (rewrite Hl; apply nominal_width_fourth; exact H3)|]);
    reflexivity.
  - rewrite (advance_step_cstring u Hc), <- Hl; apply Nat.min_id.
Qed.

Lemma advance_whole_any_rest (u rest : ptr) :
  code_point u = true ->
  CodePointAdvance (u ++ rest) = (rest, nonzero (rd rest 0)).
Proof.
  intros Hu; unfold CodePointAdvance; rewrite (advance_step_whole u rest Hu).
  rewrite skipn_app, skipn_all, Nat.sub_diag; reflexivity.
Qed.

Lemma rd_nonzero_inside (t : ptr) (k : nat) :
  rd t k <> 0 -> (k < length t)%nat.
Proof.
  intros H; destruct (Nat.lt_ge_cases k (length t)) as [Hk|Hk]; [exact Hk|].
  exfalso; apply H; unfold rd; apply nth_overflow; exact Hk.
Qed.

Lemma compare_whole_prefix (u rest t : ptr) :
  code_point u = true -> CodePointCompare (u ++ rest) t = true ->
  t = u ++ skipn (length u) t.
Proof.
  intros Hu F; destruct (code_point_parts u Hu) as (Hl & Hc & Hne & _).
  assert (Hpos : (0 < length u)%nat)
    by (destruct u; [contradiction|simpl; lia]).
  rewrite CodePointCompare_spec, (rd_app_l u rest 0 Hpos), <- Hl in F.
  assert (Hlt : (length u <= length t)%nat).
  { assert (Hk : (length u - 1 < length u)%nat) by lia.
    pose proof (F _ Hk) as Fk; rewrite rd_app_l in Fk by exact Hk.
    assert (Hn : rd t (length u - 1) <> 0)
      by (rewrite <- Fk; apply (cstring_rd u _ Hc); exact Hk).
    apply rd_nonzero_inside in Hn; lia. }
  assert (Eq : u = firstn (length u) t).
  { rewrite <- (firstn_all u) at 1.
    apply firstn_ext; [lia|exact Hlt|].
    intros k Hk; rewrite <- (F k Hk); symmetry; apply rd_app_l; exact Hk. }
  rewrite Eq at 1; symmetry; apply firstn_skipn.
Qed.

(** * Wild positions are starts of code points *)














(** ** Code numbers of wildcards, and a lone code point *)






(** * Further properties of the code *)

(** X1: [FastWildCompare] decides matching.  On terminated strings it
    returns whether the wild string matches the tame string, a star standing
    for any run of bytes, a question mark for any one byte and any other
    byte for itself. *)
Theorem FastWildCompare_decides_matching (p t : ptr) :
  cstring p = true -> cstring t = true ->
  FastWildCompare p t = Some (glob p t).
Proof. exact (FastWildCompare_correct p t). Qed.

Lemma FastWildCompare_decides_matching_witness :
  FastWildCompare (bytes "*a?b*") (bytes "caaabd")
  = Some (glob (bytes "*a?b*") (bytes "caaabd")).
Proof. apply FastWildCompare_decides_matching; reflexivity. Defined.

(** X2: on strings whose code points are single bytes [FastWildCompareUtf8]
    decides matching too, and returns what [FastWildCompare] returns. *)
Theorem FastWildCompareUtf8_decides_matching (p t : ptr) :
  single_byte p = true -> single_byte t = true ->
  FastWildCompareUtf8 p t = Some (glob p t) /\
  FastWildCompareUtf8 p t = FastWildCompare p t.
Proof.
  intros Hp Ht; rewrite (FastWildCompareUtf8_single_byte p t Hp Ht).
  split; [|reflexivity].
  apply FastWildCompare_correct; apply single_byte_cstring; assumption.
Qed.

Lemma FastWildCompareUtf8_decides_matching_witness :
  FastWildCompareUtf8 (bytes "*issip*ss*") (bytes "mississipissippi")
  = Some (glob (bytes "*issip*ss*") (bytes "mississipissippi")) /\
  FastWildCompareUtf8 (bytes "*issip*ss*") (bytes "mississipissippi")
  = FastWildCompare (bytes "*issip*ss*") (bytes "mississipissippi").
Proof. apply FastWildCompareUtf8_decides_matching; reflexivity. Defined.

(** X3: on strings whose code points are single bytes
    [FastWildLenCompareUtf8] decides matching when the limit of the wild
    string is its length and the limit of the tame string is its length or
    any larger number. *)
Theorem FastWildLenCompareUtf8_decides_matching (p t : ptr) (lenTame : Z) :
  single_byte p = true -> single_byte t = true ->
  (Z.of_nat (length t) <= lenTame)%Z ->
  FastWildLenCompareUtf8 p t (Z.of_nat (length p)) lenTame
  = Some (glob p t).
Proof.
  intros Hp Ht Hl; unfold FastWildLenCompareUtf8.
  rewrite (FastWildLenCompareUtf8_gas_single_byte
             (Z.of_nat (length p)) lenTame _ p t Hp Ht eq_refl Hl).
  change (FastWildCompareUtf8_gas (gas_for p t) p t)
    with (FastWildCompareUtf8 p t).
  rewrite (FastWildCompareUtf8_single_byte p t Hp Ht).
  apply FastWildCompare_correct; apply single_byte_cstring; assumption.
Qed.

Lemma FastWildLenCompareUtf8_decides_matching_witness :
  FastWildLenCompareUtf8 (bytes "*a?b") (bytes "caaab")
                         (Z.of_nat (length (bytes "*a?b"))) 9
  = Some (glob (bytes "*a?b") (bytes "caaab")).
Proof.
  apply FastWildLenCompareUtf8_decides_matching;
    [reflexivity|reflexivity|simpl; lia].
Defined.

(** X4: on strings whose code points are single bytes, [test] passes
    exactly when the expected result is whether the wild string matches
    the tame string. *)
Theorem test_passes_when_expected (pTame pWild : ptr) (bExpected : bool) :
  single_byte pTame = true -> single_byte pWild = true ->
  test pTame pWild bExpected = Some (Bool.eqb bExpected (glob pWild pTame)).
Proof.
  intros Ht Hp; unfold test.
  rewrite (CodePointCount_single_byte _ Hp), (CodePointCount_single_byte _ Ht).
  rewrite (matchers_agree_on_single_bytes pWild pTame _ _ Hp Ht
             (CodePointCount_single_byte _ Hp)
             (CodePointCount_single_byte _ Ht)).
  rewrite (FastWildCompareUtf8_single_byte _ _ Hp Ht).
  rewrite FastWildCompare_correct by (apply single_byte_cstring; assumption).
  destruct bExpected, (glob pWild pTame); reflexivity.
Qed.

Lemma test_passes_when_expected_witness :
  test (bytes "abcccd") (bytes "*ccd") false
  = Some (Bool.eqb false (glob (bytes "*ccd") (bytes "abcccd"))).
Proof. apply test_passes_when_expected; reflexivity. Defined.

(** X5: [CodePointCompare] of a whole code point, whatever follows it, with
    a terminated string is true exactly when the string starts with the
    bytes of the code point. *)
Theorem CodePointCompare_whole_code_point (u rest t : ptr) :
  code_point u = true -> cstring t = true ->
  CodePointCompare (u ++ rest) t = is_prefix u t.
Proof. exact (CodePointCompare_code_point u rest t). Qed.

Lemma CodePointCompare_whole_code_point_witness :
  CodePointCompare (euro ++ bytes "*") (euro ++ bytes "ab")
  = is_prefix euro (euro ++ bytes "ab").
Proof. apply CodePointCompare_whole_code_point; reflexivity. Defined.

(** X6: [CodePointAdvance] steps over a whole code point as a whole: the
    pointer ends behind its last byte, and true is returned exactly when
    the byte found there is not zero. *)
Theorem CodePointAdvance_whole_code_point (u s : ptr) :
  code_point u = true -> cstring s = true ->
  CodePointAdvance (u ++ s) = (s, nonzero (rd s 0)).
Proof. exact (advance_code_point u s). Qed.

Lemma CodePointAdvance_whole_code_point_witness :
  CodePointAdvance (euro ++ bytes "ab")
  = (bytes "ab", nonzero (rd (bytes "ab") 0)).
Proof. apply CodePointAdvance_whole_code_point; reflexivity. Defined.

(** X7: when every byte from the first zero byte of the buffer up to the
    width that its first byte calls for is zero, as it is for a whole code
    point, for one cut short by a single byte, and wherever the memory
    behind the terminator is zero, [CodePointAdvance] steps over as many
    bytes as the first byte calls for, or up to the terminator if that
    comes first, and reports whether it stopped before the terminator.
    Whatever else the buffer holds behind its terminator plays no part. *)
Theorem CodePointAdvance_terminated (p : ptr) :
  (forall i, (strlen p <= i < nominal_width (rd p 0))%nat -> rd p i = 0) ->
  CodePointAdvance p
  = (skipn (Nat.min (nominal_width (rd p 0)) (strlen p)) p,
     (Nat.min (nominal_width (rd p 0)) (strlen p) <? strlen p)%nat).
Proof.
  intros H; unfold CodePointAdvance.
  rewrite (advance_step_terminated p H).
  set (m := Nat.min (nominal_width (rd p 0)) (strlen p)).
  f_equal; rewrite rd_skipn, Nat.add_0_r.
  destruct (Nat.ltb_spec m (strlen p)) as [Hk|Hk].
  - apply nonzero_true, rd_before_strlen; exact Hk.
  - assert (E : m = strlen p) by (unfold m in *; lia).
    rewrite E, rd_strlen; reflexivity.
Qed.

Lemma CodePointAdvance_terminated_witness :
  CodePointAdvance (firstn 2 euro ++ 0 :: bytes "A")
  = (skipn (Nat.min (nominal_width (rd (firstn 2 euro ++ 0%N :: bytes "A") 0))
                    (strlen (firstn 2 euro ++ 0%N :: bytes "A")))
           (firstn 2 euro ++ 0 :: bytes "A"),
     (Nat.min (nominal_width (rd (firstn 2 euro ++ 0%N :: bytes "A") 0))
              (strlen (firstn 2 euro ++ 0%N :: bytes "A"))
      <? strlen (firstn 2 euro ++ 0%N :: bytes "A"))%nat).
Proof.
  apply CodePointAdvance_terminated.
  intros i Hi; change (2 <= i < 3)%nat in Hi.
  assert (E : i = 2%nat) by lia; rewrite E; reflexivity.
Defined.

(** X8: on a string whose code points are single bytes [CodePointCount] is
    the number of its bytes. *)
Theorem CodePointCount_of_single_bytes (p : ptr) :
  single_byte p = true -> CodePointCount p = Some (Z.of_nat (length p)).
Proof. exact (CodePointCount_single_byte p). Qed.

Lemma CodePointCount_of_single_bytes_witness :
  CodePointCount (bytes "mississippi")
  = Some (Z.of_nat (length (bytes "mississippi"))).
Proof. apply CodePointCount_of_single_bytes; reflexivity. Defined.

(** X9: on a string made of whole code points [CodePointCount] is their
    number. *)
Theorem CodePointCount_of_code_points (us : list ptr) :
  Forall (fun u => code_point u = true) us ->
  CodePointCount (concat us) = Some (Z.of_nat (length us)).
Proof. exact (CodePointCount_concat us). Qed.

Lemma CodePointCount_of_code_points_witness :
  CodePointCount (concat [euro; bytes "a"; e_acute])
  = Some (Z.of_nat (length [euro; bytes "a"; e_acute])).
Proof.
  apply CodePointCount_of_code_points.
  repeat constructor.
Defined.

(** X10: a wild string of [n] question marks matches the terminated strings
    that [CodePointCount] counts [n] code points in, and no others,
    whatever the widths of the code points. *)
Theorem question_marks_match_by_count (n : nat) (t : ptr) (c : Z) :
  cstring t = true -> CodePointCount t = Some c ->
  FastWildCompareUtf8 (repeat QUESTION n) t = Some (c =? Z.of_nat n)%Z.
Proof.
  intros Ht Hc; unfold FastWildCompareUtf8, FastWildCompareUtf8_gas.
  rewrite (upper_loop_questions _ n t c Ht); [reflexivity| |exact Hc].
  unfold gas_for; nia.
Qed.

Lemma question_marks_match_by_count_witness :
  FastWildCompareUtf8 (repeat QUESTION 3) (euro ++ bytes "a" ++ e_acute)
  = Some (3 =? Z.of_nat 3)%Z.
Proof. apply question_marks_match_by_count; reflexivity. Defined.

(** X11: a wild string of code points that are no wildcards, with a star at
    its end, matches the terminated strings that start with these code
    points, and no others. *)
Theorem literal_then_star_matches_prefix (us : list ptr) (t : ptr) :
  Forall (fun u => literal_code_point u = true) us -> cstring t = true ->
  FastWildCompareUtf8 (concat us ++ [STAR]) t
  = Some (is_prefix (concat us) t).
Proof.
  intros Hus Ht; unfold FastWildCompareUtf8, FastWildCompareUtf8_gas.
  rewrite (upper_loop_literal_star _ us t Hus Ht); [reflexivity|].
  unfold gas_for; nia.
Qed.

Lemma literal_then_star_matches_prefix_witness :
  FastWildCompareUtf8 (concat [euro; bytes "a"] ++ [STAR])
                      (euro ++ bytes "ab" ++ e_acute)
  = Some (is_prefix (concat [euro; bytes "a"])
                    (euro ++ bytes "ab" ++ e_acute)).
Proof.
  apply literal_then_star_matches_prefix; [repeat constructor|reflexivity].
Defined.

(** X12: on strings whose code points are single bytes, when the wild
    string has no wildcard among its first [a] code points,
    [FastWildLenCompareUtf8] with the limits [a] and [b] returns whether the
    first [a] code points of the wild string are the first [b] code points
    of the tame string. *)
Theorem FastWildLenCompareUtf8_literal_limits (a b : nat) (p t : ptr) :
  single_byte p = true -> single_byte t = true ->
  forallb (fun c => negb (c =? STAR) && negb (c =? QUESTION)) (firstn a p)
    = true ->
  FastWildLenCompareUtf8 p t (Z.of_nat a) (Z.of_nat b)
  = Some (ptr_eqb (firstn a p) (firstn b t)).
Proof.
  intros Hp Ht Hl; unfold FastWildLenCompareUtf8, FastWildLenCompareUtf8_gas.
  rewrite (len_upper_loop_literal _ a b p t 0 Hp Ht Hl); [reflexivity|].
  unfold gas_for; nia.
Qed.

Lemma FastWildLenCompareUtf8_literal_limits_witness :
  FastWildLenCompareUtf8 (bytes "abc*") (bytes "abd") (Z.of_nat 2) (Z.of_nat 2)
  = Some (ptr_eqb (firstn 2 (bytes "abc*")) (firstn 2 (bytes "abd"))).
Proof. apply FastWildLenCompareUtf8_literal_limits; reflexivity. Defined.

(** X13: against the empty tame string, [FastWildLenCompareUtf8] accepts a
    wild string of [n] stars exactly when the limit of the wild string is
    at most [n]: with a limit beyond the terminator it returns false. *)
Theorem FastWildLenCompareUtf8_stars_limit (n : nat) (lenWild lenTame : Z) :
  (1 <= n)%nat ->
  FastWildLenCompareUtf8 (repeat STAR n) [] lenWild lenTame
  = Some (lenWild <=? Z.of_nat n)%Z.
Proof.
  intros Hn; unfold FastWildLenCompareUtf8, FastWildLenCompareUtf8_gas.
  destruct (gas_for_succ (repeat STAR n) []) as [gas ->].
  cbn [len_upper_loop]; rewrite rd_nil, orb_true_r.
  destruct n as [|n]; [lia|].
  change (nonzero (rd (repeat STAR (S n)) 0)) with true.
  rewrite andb_true_r.
  destruct (Z.ltb_spec 0 lenWild) as [H|H]; cbn [bind verdict_of].
  - rewrite len_only_stars_left_repeat by exact H; reflexivity.
  - f_equal; symmetry; apply Z.leb_le; lia.
Qed.

Lemma FastWildLenCompareUtf8_stars_limit_witness :
  FastWildLenCompareUtf8 (repeat STAR 2) [] 3 0 = Some (3 <=? Z.of_nat 2)%Z.
Proof. apply FastWildLenCompareUtf8_stars_limit; lia. Defined.

(** X14: when [CodePointCompare] is true with a whole code point at its
    left position, the right buffer starts with the bytes of that code
    point, and [CodePointAdvance] steps over exactly these bytes in both
    buffers, whatever follows them. *)
Theorem CodePointCompare_then_advance (u rest t : ptr) :
  code_point u = true -> CodePointCompare (u ++ rest) t = true ->
  t = u ++ skipn (length u) t /\
  CodePointAdvance (u ++ rest) = (rest, nonzero (rd rest 0)) /\
  CodePointAdvance t
  = (skipn (length u) t, nonzero (rd (skipn (length u) t) 0)).
Proof.
  intros Hu Hc; pose proof (compare_whole_prefix u rest t Hu Hc) as Ht.
  split; [exact Ht|split].
  - apply advance_whole_any_rest; exact Hu.
  - rewrite Ht at 1; apply advance_whole_any_rest; exact Hu.
Qed.

Lemma CodePointCompare_then_advance_witness :
  euro ++ 0 :: bytes "A"
  = euro ++ skipn (length euro) (euro ++ 0 :: bytes "A") /\
  CodePointAdvance (euro ++ bytes "ab")
  = (bytes "ab", nonzero (rd (bytes "ab") 0)) /\
  CodePointAdvance (euro ++ 0 :: bytes "A")
  = (skipn (length euro) (euro ++ 0 :: bytes "A"),
     nonzero (rd (skipn (length euro) (euro ++ 0 :: bytes "A")) 0)).
Proof. apply CodePointCompare_then_advance; reflexivity. Defined.

(** X15: on strings of whole code points of any widths, the wild string
    with no question mark next behind a star, [FastWildCompareUtf8] decides
    matching code point by code point: a star stands for any run of code
    points, a question mark for any one code point, any other code point
    for itself. *)
Theorem FastWildCompareUtf8_decides_code_points (pus tus : list ptr) :
  Forall (fun u => utf8_unit u = true) pus ->
  Forall (fun u => utf8_unit u = true) tus ->
  no_question_after_star (map code pus) = true ->
  FastWildCompareUtf8 (concat pus) (concat tus)
  = Some (glob (map code pus) (map code tus)).
Proof. exact (utf8_matcher_on_code_points pus tus). Qed.

Lemma FastWildCompareUtf8_decides_code_points_witness :
  FastWildCompareUtf8 (concat [bytes "*"; e_acute; bytes "?"; euro])
                      (concat [euro; e_acute; euro; euro])
  = Some (glob (map code [bytes "*"; e_acute; bytes "?"; euro])
               (map code [euro; e_acute; euro; euro])).
Proof.
  apply FastWildCompareUtf8_decides_code_points;
    [repeat constructor|repeat constructor|reflexivity].
Defined.

(** X16: the same for [FastWildLenCompareUtf8], called with the count of
    code points of the wild string as its limit and a limit of the tame
    string that is its count of code points or more. *)
Theorem FastWildLenCompareUtf8_decides_code_points (pus tus : list ptr)
    (lenTame : Z) :
  Forall (fun u => utf8_unit u = true) pus ->
  Forall (fun u => utf8_unit u = true) tus ->
  no_question_after_star (map code pus) = true ->
  (Z.of_nat (length tus) <= lenTame)%Z ->
  FastWildLenCompareUtf8 (concat pus) (concat tus)
                         (Z.of_nat (length pus)) lenTame
  = Some (glob (map code pus) (map code tus)).
Proof. exact (len_matcher_on_code_points pus tus lenTame). Qed.

Lemma FastWildLenCompareUtf8_decides_code_points_witness :
  FastWildLenCompareUtf8 (concat [euro; bytes "*"; e_acute])
                         (concat [euro; bytes "a"; e_acute; e_acute])
                         (Z.of_nat (length [euro; bytes "*"; e_acute])) 7
  = Some (glob (map code [euro; bytes "*"; e_acute])
               (map code [euro; bytes "a"; e_acute; e_acute])).
Proof.
  apply FastWildLenCompareUtf8_decides_code_points;
    [repeat constructor|repeat constructor|reflexivity|simpl; lia].
Defined.

(** X17: on strings of whole code points, the wild string with no question
    mark next behind a star, [test] passes exactly when the expected result
    is whether the strings match code point by code point. *)
Theorem test_passes_on_code_points (tus pus : list ptr) (bExpected : bool) :
  Forall (fun u => utf8_unit u = true) tus ->
  Forall (fun u => utf8_unit u = true) pus ->
  no_question_after_star (map code pus) = true ->
  test (concat tus) (concat pus) bExpected
  = Some (Bool.eqb bExpected (glob (map code pus) (map code tus))).
Proof.
  intros Ht Hp Hn; unfold test.
  rewrite (CodePointCount_concat pus (units_code_points pus Hp)).
  rewrite (CodePointCount_concat tus (units_code_points tus Ht)).
  rewrite (utf8_matcher_on_code_points pus tus Hp Ht Hn).
  rewrite (len_matcher_on_code_points pus tus _ Hp Ht Hn) by lia.
  destruct bExpected, (glob (map code pus) (map code tus)); reflexivity.
Qed.

Lemma test_passes_on_code_points_witness :
  test (concat [euro; e_acute; bytes "a"]) (concat [bytes "*"; e_acute])
       true
  = Some (Bool.eqb true (glob (map code [bytes "*"; e_acute])
                              (map code [euro; e_acute; bytes "a"]))).
Proof.
  apply test_passes_on_code_points;
    [repeat constructor|repeat constructor|reflexivity].
Defined.

(** X18: [FastWildCompare] takes two stars in a row, anywhere in the wild
    string, for one star. *)
Theorem FastWildCompare_star_run (a b t : ptr) :
  cstring a = true -> cstring b = true -> cstring t = true ->
  FastWildCompare (a ++ STAR :: STAR :: b) t
  = FastWildCompare (a ++ STAR :: b) t.
Proof.
  intros Ha Hb Ht.
  rewrite !FastWildCompare_correct; try assumption.
  - f_equal; apply glob_app_ext; intros u; apply glob_star_star.
  - apply cstring_app; split; [exact Ha|].
    apply cstring_cons; split; [discriminate|exact Hb].
  - apply cstring_app; split; [exact Ha|].
    apply cstring_cons; split; [discriminate|].
    apply cstring_cons; split; [discriminate|exact Hb].
Qed.

Lemma FastWildCompare_star_run_witness :
  FastWildCompare (bytes "a" ++ STAR :: STAR :: bytes "c") (bytes "abbc")
  = FastWildCompare (bytes "a" ++ STAR :: bytes "c") (bytes "abbc").
Proof. apply FastWildCompare_star_run; reflexivity. Defined.

(** X19: with a limit of the wild string of zero or less,
    [FastWildLenCompareUtf8] reads no wild byte: it returns true exactly
    when the limit of the tame string is zero or less or the tame string
    is empty. *)
Theorem FastWildLenCompareUtf8_zero_wild_limit (p t : ptr)
    (lenWild lenTame : Z) :
  (lenWild <= 0)%Z ->
  FastWildLenCompareUtf8 p t lenWild lenTame
  = Some ((lenTame <=? 0)%Z || (rd t 0 =? 0)).
Proof.
  intros Hl; unfold FastWildLenCompareUtf8, FastWildLenCompareUtf8_gas.
  destruct (gas_for_succ p t) as [gas ->].
  cbn [len_upper_loop].
  destruct ((lenTame <=? 0)%Z || (rd t 0 =? 0)).
  - destruct (Z.ltb_spec 0 lenWild); [lia|reflexivity].
  - destruct (Z.leb_spec lenWild 0); [reflexivity|lia].
Qed.

Lemma FastWildLenCompareUtf8_zero_wild_limit_witness :
  FastWildLenCompareUtf8 (bytes "a") (bytes "b") 0 5
  = Some ((5 <=? 0)%Z || (rd (bytes "b") 0 =? 0)).
Proof. apply FastWildLenCompareUtf8_zero_wild_limit; lia. Defined.

(** X20: when the limit of the tame string is zero or less, or the tame
    string is empty, [FastWildLenCompareUtf8] returns true exactly when the
    limit of the wild string is zero or less, or the wild string is empty,
    or the wild string has as many bytes as its limit says and these are
    all stars. *)
Theorem FastWildLenCompareUtf8_tame_exhausted (p t : ptr)
    (lenWild lenTame : Z) :
  (lenTame <= 0)%Z \/ rd t 0 = 0 ->
  FastWildLenCompareUtf8 p t lenWild lenTame
  = Some ((lenWild <=? 0)%Z || (rd p 0 =? 0)
          || forallb is_star (firstn (Z.to_nat lenWild) p)
             && (lenWild <=? Z.of_nat (length p))%Z).
Proof.
  intros Ht; unfold FastWildLenCompareUtf8, FastWildLenCompareUtf8_gas.
  destruct (gas_for_succ p t) as [gas ->].
  cbn [len_upper_loop].
  replace ((lenTame <=? 0)%Z || (rd t 0 =? 0)) with true.
  2:{ symmetry; apply orb_true_iff; destruct Ht as [H|H];
        [left; apply Z.leb_le; exact H|right; apply N.eqb_eq; exact H]. }
  rewrite Z.ltb_antisym; unfold nonzero.
  destruct (lenWild <=? 0)%Z eqn:E; cbn [negb andb orb]; [reflexivity|].
  destruct (rd p 0 =? 0); cbn [negb orb]; [reflexivity|].
  cbn [bind verdict_of]; f_equal.
  apply Z.leb_gt in E.
  rewrite (len_only_stars_left_firstn p 0 lenWild E).
  rewrite Z.sub_0_r; reflexivity.
Qed.

Lemma FastWildLenCompareUtf8_tame_exhausted_witness :
  FastWildLenCompareUtf8 (bytes "**a") [] 2 3
  = Some ((2 <=? 0)%Z || (rd (bytes "**a") 0 =? 0)
          || forallb is_star (firstn (Z.to_nat 2) (bytes "**a"))
             && (2 <=? Z.of_nat (length (bytes "**a")))%Z).
Proof.
  apply FastWildLenCompareUtf8_tame_exhausted; right; reflexivity.
Defined.
